(** * DiffusionEquation: the implicit viscous-diffusion step

    A shallow embedding of [src/diffusion/DiffusionEquation.cpp] and the
    properties of its constructor, [readParameters], [updateInternals],
    [solve] and [setSolverSettings].

    The class drives AMReX.  The AMReX containers and operations the class
    calls are modelled in the first part of the file, after the AMReX
    documentation of each; the multigrid solver, the C math library and the
    content of freshly allocated buffers are left open (they are arguments
    of the model).  The model is sequential: one process owns every patch. *)

From Stdlib Require Import ZArith String List Bool Lia FunctionalExtensionality.
From Stdlib Require Import Floats.PrimFloat.
From stdpp Require Import base option list.

Local Open Scope Z_scope.

(** ** Scalars and index space *)

(** [amrex::Real] in the default (double precision) build. *)
Definition Real : Type := float.

(** The source is three-dimensional: it loops over [k], indexes direction 2
    and builds three-entry boundary tables. *)
Definition AMREX_SPACEDIM : nat := 3.

Definition IntVect : Type := (Z * Z * Z)%type.

Record Box : Type := MkBox { smallEnd : IntVect; bigEnd : IntVect }.

Definition iv_add (p s : IntVect) : IntVect :=
  let '(i, j, k) := p in let '(a, b, c) := s in (i + a, j + b, k + c).

Definition contains (bx : Box) (p : IntVect) : bool :=
  let '(i, j, k) := p in
  let '(li, lj, lk) := smallEnd bx in
  let '(hi, hj, hk) := bigEnd bx in
  (li <=? i) && (i <=? hi) && (lj <=? j) && (j <=? hj) && (lk <=? k) && (k <=? hk).

(** [amrex::grow(bx, n)]: [n] more cells on every side. *)
Definition grow (bx : Box) (n : Z) : Box :=
  let '(li, lj, lk) := smallEnd bx in
  let '(hi, hj, hk) := bigEnd bx in
  MkBox (li - n, lj - n, lk - n) (hi + n, hj + n, hk + n).

(** [Box::surroundingNodes(dir)]: the faces of the cells of [bx] in
    direction [dir] (one more index at the high end). *)
Definition surroundingNodes (bx : Box) (dir : nat) : Box :=
  let '(hi, hj, hk) := bigEnd bx in
  MkBox (smallEnd bx)
        (match dir with
         | O => (hi + 1, hj, hk)
         | S O => (hi, hj + 1, hk)
         | _ => (hi, hj, hk + 1)
         end).

(** The cells of a box in the order of the source's loop nest
    [for i .. for j .. for k]. *)
Definition box_cells (bx : Box) : list IntVect :=
  let '(li, lj, lk) := smallEnd bx in
  let '(hi, hj, hk) := bigEnd bx in
  i ← seqZ li (hi - li + 1);
  j ← seqZ lj (hj - lj + 1);
  k ← seqZ lk (hk - lk + 1);
  [(i, j, k)].

Definition iv_eqb (p q : IntVect) : bool :=
  let '(i, j, k) := p in let '(a, b, c) := q in
  (i =? a) && (j =? b) && (k =? c).

(** ** Arrays, patches and MultiFabs *)

(** [amrex::Array4<Real>]: the value at cell [(i,j,k)] and component [n]. *)
Abbreviation Array4 := (IntVect -> nat -> Real).

(** One assignment [arr(i,j,k,n) = v]. *)
Definition assign (arr : Array4) (p : IntVect) (n : nat) (v : Real) : Array4 :=
  fun q m => if iv_eqb q p && (m =? n)%nat then v else arr q m.

(** A MultiFab: one array per box of its [BoxArray]; the array of box [i]
    covers the box grown by [nGrow] ghost cells. *)
Record MultiFab : Type := MkMultiFab {
  boxArray : list Box;
  nComp : nat;
  nGrow : Z;
  fabs : list Array4
}.

Definition with_fabs (mf : MultiFab) (fs : list Array4) : MultiFab :=
  MkMultiFab (boxArray mf) (nComp mf) (nGrow mf) fs.

(** [BaseFab::setVal(x, bx, N)]: sets the single component [N] on [bx]
    (the three-argument overload; [N] defaults to 0). *)
Definition setVal (x : Real) (bx : Box) (N : nat) (arr : Array4) : Array4 :=
  fun p n => if contains bx p && (n =? N)%nat then x else arr p n.

(** The per-patch kernels of [MultiFab::Copy] and [MultiFab::Multiply] on a
    region: components [dstcomp .. dstcomp+numcomp-1] of the destination
    from components [srccomp ..] of the source. *)
Definition in_comps (dstcomp numcomp n : nat) : bool :=
  (dstcomp <=? n)%nat && (n <? dstcomp + numcomp)%nat.

Definition fab_copy (region : Box) (src : Array4) (srccomp dstcomp numcomp : nat)
    (dst : Array4) : Array4 :=
  fun p n =>
    if contains region p && in_comps dstcomp numcomp n
    then src p (n - dstcomp + srccomp)%nat
    else dst p n.

Definition fab_mult (region : Box) (src : Array4) (srccomp dstcomp numcomp : nat)
    (dst : Array4) : Array4 :=
  fun p n =>
    if contains region p && in_comps dstcomp numcomp n
    then PrimFloat.mul (dst p n) (src p (n - dstcomp + srccomp)%nat)
    else dst p n.

(** Apply a kernel to every patch of [dst], on its valid box grown by
    [nghost], with the matching patch of [src]. *)
Definition on_patches (k : Box -> Array4 -> Array4 -> Array4)
    (dst src : MultiFab) (nghost : Z) : MultiFab :=
  with_fabs dst
    (imap (fun i d =>
             match boxArray dst !! i, fabs src !! i with
             | Some bx, Some s => k (grow bx nghost) s d
             | _, _ => d
             end) (fabs dst)).

(** [MultiFab::Copy(dst, src, srccomp, dstcomp, numcomp, nghost)]. *)
Definition MultiFab_Copy (dst src : MultiFab) (srccomp dstcomp numcomp : nat)
    (nghost : Z) : MultiFab :=
  on_patches (fun r s d => fab_copy r s srccomp dstcomp numcomp d) dst src nghost.

(** [MultiFab::Multiply(dst, src, srccomp, dstcomp, numcomp, nghost)]:
    [dst *= src]. *)
Definition MultiFab_Multiply (dst src : MultiFab) (srccomp dstcomp numcomp : nat)
    (nghost : Z) : MultiFab :=
  on_patches (fun r s d => fab_mult r s srccomp dstcomp numcomp d) dst src nghost.

(** *** Geometry and halo exchange *)

Record Geometry : Type := MkGeometry {
  Domain : Box;
  isPeriodic : bool * bool * bool
}.

(** [Periodicity]: the period in each direction, 0 where not periodic. *)
Definition Periodicity : Type := IntVect.

Definition box_length (bx : Box) : IntVect :=
  let '(li, lj, lk) := smallEnd bx in
  let '(hi, hj, hk) := bigEnd bx in
  (hi - li + 1, hj - lj + 1, hk - lk + 1).

Definition periodicity (g : Geometry) : Periodicity :=
  let '(lx, ly, lz) := box_length (Domain g) in
  let '(px, py, pz) := isPeriodic g in
  (if px then lx else 0, if py then ly else 0, if pz then lz else 0).

(** [Periodicity::shiftIntVect]: the shifts by whole periods, the zero
    shift first. *)
Definition shiftIntVect (per : Periodicity) : list IntVect :=
  let '(px, py, pz) := per in
  a ← [0; -1; 1]; b ← [0; -1; 1]; c ← [0; -1; 1];
  [(a * px, b * py, c * pz)].

(** Where a ghost point of a patch gets its value from: the first shift and
    box such that the shifted point is a valid point of that box. *)
Definition find_box (ba : list Box) (q : IntVect) : option nat :=
  fst <$> list_find (fun bx => contains bx q = true) ba.

Fixpoint fb_source (ba : list Box) (shifts : list IntVect) (p : IntVect)
    : option (nat * IntVect) :=
  match shifts with
  | [] => None
  | s :: rest =>
      match find_box ba (iv_add p s) with
      | Some j => Some (j, iv_add p s)
      | None => fb_source ba rest p
      end
  end.

Definition is_ghost (bx : Box) (ng : Z) (p : IntVect) : bool :=
  contains (grow bx ng) p && negb (contains bx p).

(** [FabArray::FillBoundary(period)]: every ghost point that is a valid
    point of some patch (possibly after a periodic shift) takes that
    patch's value, in every component; nothing else changes. *)
Definition FillBoundary (mf : MultiFab) (per : Periodicity) : MultiFab :=
  with_fabs mf
    (imap (fun i d =>
             match boxArray mf !! i with
             | Some bx =>
                 fun p n =>
                   if is_ghost bx (nGrow mf) p then
                     match fb_source (boxArray mf) (shiftIntVect per) p with
                     | Some (j, q) =>
                         match fabs mf !! j with
                         | Some s => s q n
                         | None => d p n
                         end
                     | None => d p n
                     end
                   else d p n
             | None => d
             end) (fabs mf)).

(** *** Cell-to-face averaging *)

(** [amrex::Array<T, AMREX_SPACEDIM>]. *)
Abbreviation Array3 A := (A * A * A)%type.

Definition lower_neighbour (dir : nat) (p : IntVect) : IntVect :=
  let '(i, j, k) := p in
  match dir with
  | O => (i - 1, j, k)
  | S O => (i, j - 1, k)
  | _ => (i, j, k - 1)
  end.

(** The value [amrex::average_cellcenter_to_face] stores on a face: the
    mean of the two cells that share it. *)
Definition face_average (dir : nat) (cc : Array4) (p : IntVect) : Real :=
  PrimFloat.mul 0.5%float (PrimFloat.add (cc (lower_neighbour dir p) O) (cc p O)).

Definition average_dir (dir : nat) (fc cc : MultiFab) : MultiFab :=
  with_fabs fc
    (imap (fun i d =>
             match boxArray cc !! i, fabs cc !! i with
             | Some bx, Some c =>
                 fun p n =>
                   if contains (surroundingNodes bx dir) p && (n =? 0)%nat
                   then face_average dir c p
                   else d p n
             | _, _ => d
             end) (fabs fc)).

(** [amrex::average_cellcenter_to_face(fc, cc, geom)]: one component, the
    faces of the valid cells of every patch of [cc]. *)
Definition average_cellcenter_to_face (fc : Array3 MultiFab) (cc : MultiFab)
    (geom : Geometry) : Array3 MultiFab :=
  let '(fx, fy, fz) := fc in
  (average_dir 0 fx cc, average_dir 1 fy cc, average_dir 2 fz cc).

(** ** Embedded-boundary data *)

Inductive EBCellFlag : Type :=
  | cell_regular | cell_single_valued | cell_multi_valued | cell_covered.

Inductive FabType : Type :=
  | covered | regular | singlevalued | multivalued | undefined.

Definition EBCellFlagFab : Type := IntVect -> EBCellFlag.

Definition isRegular (f : EBCellFlag) : bool :=
  match f with cell_regular => true | _ => false end.
Definition isCovered (f : EBCellFlag) : bool :=
  match f with cell_covered => true | _ => false end.
Definition isMultiValued (f : EBCellFlag) : bool :=
  match f with cell_multi_valued => true | _ => false end.

(** [EBCellFlagFab::getType(bx)]: [regular] when every cell of [bx] is
    regular, [covered] when every cell is covered, otherwise
    [multivalued] or [singlevalued]. *)
Definition getType (flags : EBCellFlagFab) (bx : Box) : FabType :=
  let cells := box_cells bx in
  if forallb (fun p => isRegular (flags p)) cells then regular
  else if forallb (fun p => isCovered (flags p)) cells then covered
  else if existsb (fun p => isMultiValued (flags p)) cells then multivalued
  else singlevalued.

(** What the class reads of an [EBFArrayBoxFactory]: per patch, the cell
    flags and the boundary normals ([getBndryNormal()], components 0..2). *)
Record EBFArrayBoxFactory : Type := MkEBFactory {
  getMultiEBCellFlagFab : list EBCellFlagFab;
  getBndryNormal : list Array4
}.

(** ** The mesh hierarchy *)

Record AmrCore : Type := MkAmrCore {
  maxLevel : Z;
  finestLevel : Z;
  Geom : list Geometry;
  grids : list (list Box)
}.

(** The levels visited by [for (lev = 0; lev <= top; lev++)]. *)
Definition levels_upto (top : Z) : list nat := seq 0 (Z.to_nat (top + 1)).

(** ** The linear operator and the multigrid solver *)

(** The operator [matrix] (an [MLEBTensorOp]): what each of its setters
    was last handed.  [op_eb_dirichlet] is the Dirichlet condition on the
    embedded surface, per level: the surface value ([None] for the
    homogeneous condition, value zero) and the coefficient, as
    [MLEBABecLap::setEBDirichlet] and [MLEBABecLap::setEBHomogDirichlet]
    record them; [None] as long as none was set. *)
Record LinOp : Type := MkLinOp {
  op_defined : option (list Geometry * list (list Box));
  op_max_coarsening_level : option Z;
  op_max_order : option Z;
  op_domain_bc : option (Array3 Z * Array3 Z);
  op_scalars : option (Real * Real);
  op_acoeffs : nat -> option MultiFab;
  op_shear_viscosity : nat -> option (Array3 MultiFab);
  op_eb_shear_viscosity : nat -> option MultiFab;
  op_level_bc : nat -> option MultiFab;
  op_eb_dirichlet : nat -> option (option MultiFab * MultiFab)
}.

Definition LinOp_blank : LinOp :=
  MkLinOp None None None None None
          (fun _ => None) (fun _ => None) (fun _ => None) (fun _ => None)
          (fun _ => None).

Definition upd {A : Type} (f : nat -> option A) (lev : nat) (x : A) : nat -> option A :=
  fun l => if (l =? lev)%nat then Some x else f l.

Definition LinOp_define (g : list Geometry) (ba : list (list Box)) (mcl : Z)
    (op : LinOp) : LinOp :=
  MkLinOp (Some (g, ba)) (Some mcl) (op_max_order op) (op_domain_bc op)
          (op_scalars op) (op_acoeffs op) (op_shear_viscosity op)
          (op_eb_shear_viscosity op) (op_level_bc op) (op_eb_dirichlet op).

Definition LinOp_setMaxOrder (o : Z) (op : LinOp) : LinOp :=
  MkLinOp (op_defined op) (op_max_coarsening_level op) (Some o) (op_domain_bc op)
          (op_scalars op) (op_acoeffs op) (op_shear_viscosity op)
          (op_eb_shear_viscosity op) (op_level_bc op) (op_eb_dirichlet op).

Definition LinOp_setDomainBC (lo hi : Array3 Z) (op : LinOp) : LinOp :=
  MkLinOp (op_defined op) (op_max_coarsening_level op) (op_max_order op)
          (Some (lo, hi))
          (op_scalars op) (op_acoeffs op) (op_shear_viscosity op)
          (op_eb_shear_viscosity op) (op_level_bc op) (op_eb_dirichlet op).

Definition LinOp_setScalars (a b : Real) (op : LinOp) : LinOp :=
  MkLinOp (op_defined op) (op_max_coarsening_level op) (op_max_order op)
          (op_domain_bc op)
          (Some (a, b)) (op_acoeffs op) (op_shear_viscosity op)
          (op_eb_shear_viscosity op) (op_level_bc op) (op_eb_dirichlet op).

Definition LinOp_setACoeffs (lev : nat) (alpha : MultiFab) (op : LinOp) : LinOp :=
  MkLinOp (op_defined op) (op_max_coarsening_level op) (op_max_order op)
          (op_domain_bc op)
          (op_scalars op) (upd (op_acoeffs op) lev alpha) (op_shear_viscosity op)
          (op_eb_shear_viscosity op) (op_level_bc op) (op_eb_dirichlet op).

Definition LinOp_setShearViscosity (lev : nat) (beta : Array3 MultiFab)
    (op : LinOp) : LinOp :=
  MkLinOp (op_defined op) (op_max_coarsening_level op) (op_max_order op)
          (op_domain_bc op)
          (op_scalars op) (op_acoeffs op) (upd (op_shear_viscosity op) lev beta)
          (op_eb_shear_viscosity op) (op_level_bc op) (op_eb_dirichlet op).

(** [MLEBABecLap::setEBHomogDirichlet(amrlev, beta)]. *)
Definition LinOp_setEBHomogDirichlet (lev : nat) (beta : MultiFab)
    (op : LinOp) : LinOp :=
  MkLinOp (op_defined op) (op_max_coarsening_level op) (op_max_order op)
          (op_domain_bc op)
          (op_scalars op) (op_acoeffs op) (op_shear_viscosity op)
          (op_eb_shear_viscosity op) (op_level_bc op)
          (upd (op_eb_dirichlet op) lev (None, beta)).

(** [MLEBTensorOp::setEBShearViscosity(amrlev, eta)]: AMReX implements it
    as [MLEBABecLap::setEBHomogDirichlet(amrlev, eta)], so besides the
    coefficient the call puts a homogeneous Dirichlet condition on the
    embedded surface of the level. *)
Definition LinOp_setEBShearViscosity (lev : nat) (beta : MultiFab)
    (op : LinOp) : LinOp :=
  let op := LinOp_setEBHomogDirichlet lev beta op in
  MkLinOp (op_defined op) (op_max_coarsening_level op) (op_max_order op)
          (op_domain_bc op)
          (op_scalars op) (op_acoeffs op) (op_shear_viscosity op)
          (upd (op_eb_shear_viscosity op) lev beta) (op_level_bc op)
          (op_eb_dirichlet op).

Definition LinOp_setLevelBC (lev : nat) (levelbcdata : MultiFab)
    (op : LinOp) : LinOp :=
  MkLinOp (op_defined op) (op_max_coarsening_level op) (op_max_order op)
          (op_domain_bc op)
          (op_scalars op) (op_acoeffs op) (op_shear_viscosity op)
          (op_eb_shear_viscosity op) (upd (op_level_bc op) lev levelbcdata)
          (op_eb_dirichlet op).

(** [MLMG::BottomSolver]. *)
Inductive BottomSolver : Type :=
  | bs_smoother | bs_bicgstab | bs_cg | bs_bicgcg | bs_cgbicg | bs_hypre | bs_petsc.

(** The controls of an [MLMG] object that the class sets. *)
Record MLMG : Type := MkMLMG {
  bottom_solver : BottomSolver;
  max_iters : Z;
  max_fmg_iters : Z;
  cg_maxiter : Z;
  mlmg_verbose : Z;
  cg_verbose : Z;
  final_fill_bc : bool
}.

(** ** Calls that leave the class *)

Inductive Event : Type :=
  | EvPrint (msg : string)
  | EvSetScalars (a b : Real)
  | EvSetACoeffs (lev : nat) (alpha : MultiFab)
  | EvSetShearViscosity (lev : nat) (beta : Array3 MultiFab)
  | EvSetEBShearViscosity (lev : nat) (beta : MultiFab)
  | EvSetLevelBC (lev : nat) (levelbcdata : MultiFab)
  | EvSetEBDirichlet (lev : nat) (phi_eb beta : MultiFab)
  | EvSetEBHomogDirichlet (lev : nat) (beta : MultiFab)
  | EvMLMGSolve (op : LinOp) (mlmg : MLMG) (sol rhs : list MultiFab) (rtol atol : Real).

(** ** The object *)

Record DiffusionEquation : Type := MkDiffusionEquation {
  amrcore : AmrCore;
  ebfactory : list EBFArrayBoxFactory;
  nghost : Z;
  cyl_speed : Real;
  bc_lo : Array3 Z;
  bc_hi : Array3 Z;
  b : list (Array3 MultiFab);
  phi : list MultiFab;
  rhs : list MultiFab;
  vel_eb : list MultiFab;
  matrix : LinOp;
  verbose : Z;
  mg_verbose : Z;
  mg_cg_verbose : Z;
  mg_max_iter : Z;
  mg_cg_maxiter : Z;
  mg_max_fmg_iter : Z;
  mg_max_coarsening_level : Z;
  mg_rtol : Real;
  mg_atol : Real;
  bottom_solver_type : string
}.

Definition set_b (x : list (Array3 MultiFab)) (o : DiffusionEquation) : DiffusionEquation :=
  MkDiffusionEquation (amrcore o) (ebfactory o) (nghost o) (cyl_speed o) (bc_lo o)
    (bc_hi o) x (phi o) (rhs o) (vel_eb o) (matrix o) (verbose o) (mg_verbose o)
    (mg_cg_verbose o) (mg_max_iter o) (mg_cg_maxiter o) (mg_max_fmg_iter o)
    (mg_max_coarsening_level o) (mg_rtol o) (mg_atol o) (bottom_solver_type o).

Definition set_phi (x : list MultiFab) (o : DiffusionEquation) : DiffusionEquation :=
  MkDiffusionEquation (amrcore o) (ebfactory o) (nghost o) (cyl_speed o) (bc_lo o)
    (bc_hi o) (b o) x (rhs o) (vel_eb o) (matrix o) (verbose o) (mg_verbose o)
    (mg_cg_verbose o) (mg_max_iter o) (mg_cg_maxiter o) (mg_max_fmg_iter o)
    (mg_max_coarsening_level o) (mg_rtol o) (mg_atol o) (bottom_solver_type o).

Definition set_rhs (x : list MultiFab) (o : DiffusionEquation) : DiffusionEquation :=
  MkDiffusionEquation (amrcore o) (ebfactory o) (nghost o) (cyl_speed o) (bc_lo o)
    (bc_hi o) (b o) (phi o) x (vel_eb o) (matrix o) (verbose o) (mg_verbose o)
    (mg_cg_verbose o) (mg_max_iter o) (mg_cg_maxiter o) (mg_max_fmg_iter o)
    (mg_max_coarsening_level o) (mg_rtol o) (mg_atol o) (bottom_solver_type o).

Definition set_vel_eb (x : list MultiFab) (o : DiffusionEquation) : DiffusionEquation :=
  MkDiffusionEquation (amrcore o) (ebfactory o) (nghost o) (cyl_speed o) (bc_lo o)
    (bc_hi o) (b o) (phi o) (rhs o) x (matrix o) (verbose o) (mg_verbose o)
    (mg_cg_verbose o) (mg_max_iter o) (mg_cg_maxiter o) (mg_max_fmg_iter o)
    (mg_max_coarsening_level o) (mg_rtol o) (mg_atol o) (bottom_solver_type o).

Definition set_matrix (x : LinOp) (o : DiffusionEquation) : DiffusionEquation :=
  MkDiffusionEquation (amrcore o) (ebfactory o) (nghost o) (cyl_speed o) (bc_lo o)
    (bc_hi o) (b o) (phi o) (rhs o) (vel_eb o) x (verbose o) (mg_verbose o)
    (mg_cg_verbose o) (mg_max_iter o) (mg_cg_maxiter o) (mg_max_fmg_iter o)
    (mg_max_coarsening_level o) (mg_rtol o) (mg_atol o) (bottom_solver_type o).

(** ** Methods as state transformers

    A method runs on a [World]: the object and the calls made so far.  It
    returns normally, aborts the process ([amrex::Abort]), or has no
    defined behaviour (a vector indexed out of range). *)

Record World : Type := MkWorld { self : DiffusionEquation; out : list Event }.

Inductive Result (A : Type) : Type :=
  | Normal (a : A) (w : World)
  | Aborted (w : World)
  | Undefined.
Arguments Normal {A} a w.
Arguments Aborted {A} w.
Arguments Undefined {A}.

Definition M (A : Type) : Type := World -> Result A.

Definition ret {A : Type} (a : A) : M A := fun w => Normal a w.

Definition bind {A B : Type} (m : M A) (k : A -> M B) : M B :=
  fun w =>
    match m w with
    | Normal a w' => k a w'
    | Aborted w' => Aborted w'
    | Undefined => Undefined
    end.

#[global] Instance M_ret : MRet M := @ret.
#[global] Instance M_bind : MBind M := fun A B k m => bind m k.

Definition get : M DiffusionEquation := fun w => Normal (self w) w.
Definition modify (f : DiffusionEquation -> DiffusionEquation) : M unit :=
  fun w => Normal tt (MkWorld (f (self w)) (out w)).
Definition emit (e : Event) : M unit :=
  fun w => Normal tt (MkWorld (self w) (out w ++ [e])).
Definition amrex_Abort {A : Type} : M A := fun w => Aborted w.

(** [v[i]] on a vector: undefined out of range. *)
Definition at_ {A : Type} (v : list A) (i : nat) : M A :=
  fun w => match v !! i with Some x => Normal x w | None => Undefined end.

(** [amrex::Print() << msg << std::endl]. *)
Definition amrex_Print (msg : string) : M unit := emit (EvPrint msg).

Definition when (c : bool) (m : M unit) : M unit := if c then m else ret tt.

(** A [for] loop over [idx], threading the value [a]. *)
Fixpoint for_acc {I A : Type} (idx : list I) (body : I -> A -> M A) (a : A) : M A :=
  match idx with
  | [] => ret a
  | i :: rest => a' ← body i a; for_acc rest body a'
  end.

Definition for_ {I : Type} (idx : list I) (body : I -> M unit) : M unit :=
  for_acc idx (fun i _ => body i) tt.

(** A call on [matrix]: the operator changes and the call is recorded. *)
Definition matrix_call (e : Event) (f : LinOp -> LinOp) : M unit :=
  modify (fun o => set_matrix (f (matrix o)) o);; emit e.

Definition for_dirs (f : nat -> MultiFab -> MultiFab) (a : Array3 MultiFab)
    : Array3 MultiFab :=
  let '(x, y, z) := a in (f 0%nat x, f 1%nat y, f 2%nat z).

(** [ParmParse pp(prefix); pp.query(name, var)]: [var] keeps its value when
    the input has no such entry. *)
Record ParmParse : Type := MkParmParse {
  pp_int : string -> option Z;
  pp_real : string -> option Real;
  pp_string : string -> option string
}.

Definition IArrayBox : Type := IntVect -> nat -> Z.

(** A [unique_ptr] that [resize] has created and nothing has [reset] yet. *)
Definition MultiFab_null : MultiFab := MkMultiFab [] 0 0 [].

(** The solution written into the patches of [phi]. *)
Definition store_solution (phi_ : list MultiFab) (sol : list (list Array4))
    : list MultiFab :=
  imap (fun lev mf =>
          match sol !! lev with
          | Some fs => with_fabs mf fs
          | None => mf
          end) phi_.

Section Methods.

(** The C math library. *)
Variables (sin cos : Real -> Real) (atan2 : Real -> Real -> Real).

(** The tiles [MFIter(mf, TilingIfNotGPU())] visits, in order: the index
    of the patch and the tile box. *)
Variable tiling : MultiFab -> list (nat * Box).

(** The content of the memory a [new MultiFab] gets, per allocation
    site (0, 1, 2: [b] in each direction; 3: [phi]; 4: [rhs];
    5: [vel_eb]), level and patch. *)
Variable fresh : nat -> nat -> nat -> Array4.

(** [set_diff_bc] (Fortran, declared in diffusion_F.H): the two
    three-entry boundary tables. *)
Variable set_diff_bc :
  Box -> Z -> IArrayBox -> IArrayBox -> IArrayBox -> IArrayBox -> IArrayBox ->
  IArrayBox -> Array3 Z * Array3 Z.

(** [MLMG solver(matrix)]: the controls of a new solver; and
    [solver.solve(sol, rhs, rtol, atol)]: the data it leaves in the patches
    of [sol], level by level, or [None] when it gives up (it then aborts
    the process). *)
Variable MLMG_ctor : LinOp -> MLMG.
Variable MLMG_solve :
  LinOp -> MLMG -> list MultiFab -> list MultiFab -> Real -> Real ->
  option (list (list Array4)).

Definition MultiFab_new (ba : list Box) (ncomp : nat) (ngrow : Z)
    (site lev : nat) : MultiFab :=
  MkMultiFab ba ncomp ngrow (map (fresh site lev) (seq 0 (length ba))).

(** *** readParameters (lines 140-154) *)
Definition readParameters (pp : ParmParse) : M unit :=
  modify (fun o =>
    MkDiffusionEquation (amrcore o) (ebfactory o) (nghost o) (cyl_speed o)
      (bc_lo o) (bc_hi o) (b o) (phi o) (rhs o) (vel_eb o) (matrix o)
      (default (verbose o) (pp_int pp "verbose"))
      (default (mg_verbose o) (pp_int pp "mg_verbose"))
      (default (mg_cg_verbose o) (pp_int pp "mg_cg_verbose"))
      (default (mg_max_iter o) (pp_int pp "mg_max_iter"))
      (default (mg_cg_maxiter o) (pp_int pp "mg_cg_maxiter"))
      (default (mg_max_fmg_iter o) (pp_int pp "mg_max_fmg_iter"))
      (default (mg_max_coarsening_level o) (pp_int pp "mg_max_coarsening_level"))
      (default (mg_rtol o) (pp_real pp "mg_rtol"))
      (default (mg_atol o) (pp_real pp "mg_atol"))
      (default (bottom_solver_type o) (pp_string pp "bottom_solver_type"))).

(** *** The constructor (lines 16-134) *)

(** Lines 109-116: the loop nest of the cut-cell branch. *)
Definition fill_cut_cells (speed : Real) (nrm_fab : Array4) (bx : Box)
    (vel_eb_arr : Array4) : Array4 :=
  foldl (fun arr p =>
           let theta :=
             atan2 (PrimFloat.opp (nrm_fab p 1%nat)) (PrimFloat.opp (nrm_fab p 0%nat)) in
           let arr := assign arr p 0 (PrimFloat.mul speed (sin theta)) in
           assign arr p 1 (PrimFloat.mul (PrimFloat.opp speed) (cos theta)))
        vel_eb_arr (box_cells bx).

Definition is_covered_or_regular (t : FabType) : bool :=
  match t with covered | regular => true | _ => false end.

(** Lines 94-117: the body of the tile loop; [mfi] is the patch index,
    [bx] the tile box.  The flags of a patch of [vel_eb] are those of the
    factory the buffer was built with, [ebfactory[lev]]. *)
Definition fill_tile (lev : nat) (fact : EBFArrayBoxFactory)
    (tile : nat * Box) : M unit :=
  let '(mfi, bx) := tile in
  o ← get;
  mf ← at_ (vel_eb o) lev;
  vel_eb_fab ← at_ (fabs mf) mfi;
  flags ← at_ (getMultiEBCellFlagFab fact) mfi;
  if is_covered_or_regular (getType flags bx)
  then
    modify (set_vel_eb
              (<[lev := with_fabs mf (<[mfi := setVal 0%float bx 0 vel_eb_fab]> (fabs mf))]>
                 (vel_eb o)))
  else
    nrm_fab ← at_ (getBndryNormal fact) mfi;
    modify (set_vel_eb
              (<[lev := with_fabs mf
                          (<[mfi := fill_cut_cells (cyl_speed o) nrm_fab bx vel_eb_fab]>
                             (fabs mf))]>
                 (vel_eb o))).

(** Lines 81-119. *)
Definition fill_vel_eb (max_level : Z) : M unit :=
  for_ (levels_upto max_level) (fun lev =>
    o ← get;
    fact ← at_ (ebfactory o) lev;
    mf ← at_ (vel_eb o) lev;
    for_ (tiling mf) (fill_tile lev fact)).

(** Lines 56-79. *)
Definition allocate (grids_ : list (list Box)) (max_level : Z) : M unit :=
  let n := Z.to_nat (max_level + 1) in
  modify (fun o =>
    set_b (replicate n (MultiFab_null, MultiFab_null, MultiFab_null))
      (set_phi (replicate n MultiFab_null)
         (set_rhs (replicate n MultiFab_null)
            (set_vel_eb (replicate n MultiFab_null) o))));;
  for_ (levels_upto max_level) (fun lev =>
    o ← get;
    ba ← at_ grids_ lev;
    _ ← at_ (ebfactory o) lev;
    let edge dir := map (fun bx => surroundingNodes bx dir) ba in
    modify (fun o =>
      set_b (<[lev := (MultiFab_new (edge 0%nat) 1 (nghost o) 0 lev,
                       MultiFab_new (edge 1%nat) 1 (nghost o) 1 lev,
                       MultiFab_new (edge 2%nat) 1 (nghost o) 2 lev)]> (b o))
        (set_phi (<[lev := MultiFab_new ba 3 1 3 lev]> (phi o))
           (set_rhs (<[lev := MultiFab_new ba 3 0 4 lev]> (rhs o))
              (set_vel_eb (<[lev := MultiFab_new ba 3 (nghost o) 5 lev]> (vel_eb o))
                 o))))).

Definition ctor (pp : ParmParse) (_amrcore : AmrCore)
    (_ebfactory : list EBFArrayBoxFactory)
    (bc_ilo bc_ihi bc_jlo bc_jhi bc_klo bc_khi : list IArrayBox)
    (_nghost : Z) (_cyl_speed : Real) : M unit :=
  readParameters pp;;
  o ← get;
  when (0 <? verbose o) (amrex_Print "Constructing DiffusionEquation class");;
  modify (fun o =>
    MkDiffusionEquation _amrcore _ebfactory _nghost _cyl_speed
      (bc_lo o) (bc_hi o) (b o) (phi o) (rhs o) (vel_eb o) (matrix o)
      (verbose o) (mg_verbose o) (mg_cg_verbose o) (mg_max_iter o)
      (mg_cg_maxiter o) (mg_max_fmg_iter o) (mg_max_coarsening_level o)
      (mg_rtol o) (mg_atol o) (bottom_solver_type o));;
  let geom := Geom _amrcore in
  let grids_ := grids _amrcore in
  let max_level := maxLevel _amrcore in
  g0 ← at_ geom 0%nat;
  ilo ← at_ bc_ilo 0%nat; ihi ← at_ bc_ihi 0%nat;
  jlo ← at_ bc_jlo 0%nat; jhi ← at_ bc_jhi 0%nat;
  klo ← at_ bc_klo 0%nat; khi ← at_ bc_khi 0%nat;
  let bcs := set_diff_bc (Domain g0) _nghost ilo ihi jlo jhi klo khi in
  modify (fun o =>
    MkDiffusionEquation (amrcore o) (ebfactory o) (nghost o) (cyl_speed o)
      (fst bcs) (snd bcs) (b o) (phi o) (rhs o) (vel_eb o) (matrix o)
      (verbose o) (mg_verbose o) (mg_cg_verbose o) (mg_max_iter o)
      (mg_cg_maxiter o) (mg_max_fmg_iter o) (mg_max_coarsening_level o)
      (mg_rtol o) (mg_atol o) (bottom_solver_type o));;
  allocate grids_ max_level;;
  fill_vel_eb max_level;;
  modify (fun o =>
    set_matrix
      (LinOp_setDomainBC (bc_lo o) (bc_hi o)
         (LinOp_setMaxOrder 3
            (LinOp_define geom grids_ (mg_max_coarsening_level o) (matrix o)))) o).

(** *** updateInternals (lines 156-163) *)
Definition updateInternals (amrcore_in : AmrCore)
    (ebfactory_in : list EBFArrayBoxFactory) : M unit :=
  amrex_Print "ERROR: DiffusionEquation::updateInternals() not yet implemented";;
  amrex_Abort.

(** *** setSolverSettings (lines 265-287) *)
Definition setBottomSolver (s : BottomSolver) (m : MLMG) : MLMG :=
  MkMLMG s (max_iters m) (max_fmg_iters m) (cg_maxiter m) (mlmg_verbose m)
         (cg_verbose m) (final_fill_bc m).
Definition setMaxIter (n : Z) (m : MLMG) : MLMG :=
  MkMLMG (bottom_solver m) n (max_fmg_iters m) (cg_maxiter m) (mlmg_verbose m)
         (cg_verbose m) (final_fill_bc m).
Definition setMaxFmgIter (n : Z) (m : MLMG) : MLMG :=
  MkMLMG (bottom_solver m) (max_iters m) n (cg_maxiter m) (mlmg_verbose m)
         (cg_verbose m) (final_fill_bc m).
Definition setCGMaxIter (n : Z) (m : MLMG) : MLMG :=
  MkMLMG (bottom_solver m) (max_iters m) (max_fmg_iters m) n (mlmg_verbose m)
         (cg_verbose m) (final_fill_bc m).
Definition setVerbose (v : Z) (m : MLMG) : MLMG :=
  MkMLMG (bottom_solver m) (max_iters m) (max_fmg_iters m) (cg_maxiter m) v
         (cg_verbose m) (final_fill_bc m).
Definition setCGVerbose (v : Z) (m : MLMG) : MLMG :=
  MkMLMG (bottom_solver m) (max_iters m) (max_fmg_iters m) (cg_maxiter m)
         (mlmg_verbose m) v (final_fill_bc m).
Definition setFinalFillBC (f : bool) (m : MLMG) : MLMG :=
  MkMLMG (bottom_solver m) (max_iters m) (max_fmg_iters m) (cg_maxiter m)
         (mlmg_verbose m) (cg_verbose m) f.

Definition setSolverSettings (o : DiffusionEquation) (solver : MLMG) : MLMG :=
  let solver :=
    if String.eqb (bottom_solver_type o) "smoother"
    then setBottomSolver bs_smoother solver
    else if String.eqb (bottom_solver_type o) "hypre"
    then setBottomSolver bs_hypre solver
    else solver in
  let solver := setMaxIter (mg_max_iter o) solver in
  let solver := setMaxFmgIter (mg_max_fmg_iter o) solver in
  let solver := setCGMaxIter (mg_cg_maxiter o) solver in
  let solver := setVerbose (mg_verbose o) solver in
  let solver := setCGVerbose (mg_cg_verbose o) solver in
  setFinalFillBC true solver.

(** *** solve (lines 168-259) *)

(** Lines 187-201: the coefficients of the operator. *)
Definition refresh_coefficients (ro_in eta_in : list MultiFab) (dt : Real) : M unit :=
  matrix_call (EvSetScalars 1%float dt) (LinOp_setScalars 1%float dt);;
  o ← get;
  for_ (levels_upto (finestLevel (amrcore o))) (fun lev =>
    o ← get;
    blev ← at_ (b o) lev;
    eta ← at_ eta_in lev;
    geom ← at_ (Geom (amrcore o)) lev;
    let blev := average_cellcenter_to_face blev eta geom in
    let blev := for_dirs (fun dir m => FillBoundary m (periodicity geom)) blev in
    modify (set_b (<[lev := blev]> (b o)));;
    ro ← at_ ro_in lev;
    matrix_call (EvSetACoeffs lev ro) (LinOp_setACoeffs lev ro);;
    matrix_call (EvSetShearViscosity lev blev) (LinOp_setShearViscosity lev blev);;
    matrix_call (EvSetEBShearViscosity lev eta) (LinOp_setEBShearViscosity lev eta)).

(** Lines 208-241: right-hand side, initial guess and level boundary
    data.  The block of lines 226-240 is compiled out ([#if 0]). *)
Definition build_rhs (vel_in ro_in : list MultiFab) : M unit :=
  o ← get;
  for_ (levels_upto (finestLevel (amrcore o))) (fun lev =>
    o ← get;
    r ← at_ (rhs o) lev;
    v ← at_ vel_in lev;
    let r := MultiFab_Copy r v 0 0 AMREX_SPACEDIM 0 in
    ro ← at_ ro_in lev;
    let r := foldl (fun r i => MultiFab_Multiply r ro 0 i 1 (nGrow r)) r (seq 0 3) in
    modify (set_rhs (<[lev := r]> (rhs o)));;
    o ← get;
    ph ← at_ (phi o) lev;
    let ph := MultiFab_Copy ph v 0 0 AMREX_SPACEDIM 1 in
    geom ← at_ (Geom (amrcore o)) lev;
    let ph := FillBoundary ph (periodicity geom) in
    modify (set_phi (<[lev := ph]> (phi o)));;
    matrix_call (EvSetLevelBC lev ph) (LinOp_setLevelBC lev ph)).

(** Lines 243-249: the solver.  It writes through the pointers it is
    given: the layout of [phi] stays, the data of its patches change. *)
Definition run_solver : M unit :=
  o ← get;
  let solver := MLMG_ctor (matrix o) in
  let solver := setSolverSettings o solver in
  let solver := setFinalFillBC true solver in
  emit (EvMLMGSolve (matrix o) solver (phi o) (rhs o) (mg_rtol o) (mg_atol o));;
  match MLMG_solve (matrix o) solver (phi o) (rhs o) (mg_rtol o) (mg_atol o) with
  | Some sol => modify (set_phi (store_solution (phi o) sol))
  | None => amrex_Abort
  end.

(** Lines 251-255: back into the caller's velocity. *)
Definition copy_back (vel_in : list MultiFab) : M (list MultiFab) :=
  o ← get;
  for_acc (levels_upto (finestLevel (amrcore o))) (fun lev vel =>
    o ← get;
    ph ← at_ (phi o) lev;
    geom ← at_ (Geom (amrcore o)) lev;
    let ph := FillBoundary ph (periodicity geom) in
    modify (set_phi (<[lev := ph]> (phi o)));;
    v ← at_ vel lev;
    ret (<[lev := MultiFab_Copy v ph 0 0 AMREX_SPACEDIM 1]> vel)) vel_in.

(** [solve(vel_in, ro_in, eta_in, dt)]; the result is [vel_in] on
    return. *)
Definition solve (vel_in ro_in eta_in : list MultiFab) (dt : Real)
    : M (list MultiFab) :=
  refresh_coefficients ro_in eta_in dt;;
  o ← get;
  when (0 <? verbose o)
       (amrex_Print "Diffusing velocity components all together...");;
  build_rhs vel_in ro_in;;
  run_solver;;
  vel ← copy_back vel_in;
  o ← get;
  when (0 <? verbose o) (amrex_Print " done!");;
  ret vel.

End Methods.

(** * Reasoning about methods *)

(** [triple m w Q Qa Qu]: the outcome of [m] on [w] satisfies [Q] when it
    returns, [Qa] when it aborts; [Qu] says whether undefined behaviour is
    tolerated. *)
Definition triple {A : Type} (m : M A) (w : World)
    (Q : A -> World -> Prop) (Qa : World -> Prop) (Qu : Prop) : Prop :=
  match m w with
  | Normal a w' => Q a w'
  | Aborted w' => Qa w'
  | Undefined => Qu
  end.

Lemma triple_ret {A} (a : A) w Q Qa Qu : Q a w -> triple (mret a) w Q Qa Qu.
Proof. exact id. Qed.

Lemma triple_bind {A B} (m : M A) (k : A -> M B) w Q Qa Qu :
  triple m w (fun a w' => triple (k a) w' Q Qa Qu) Qa Qu ->
  triple (m ≫= k) w Q Qa Qu.
Proof.
  unfold triple, mbind, M_bind, bind. destruct (m w); auto.
Qed.

Lemma triple_conseq {A} (m : M A) w (Q Q' : A -> World -> Prop)
    (Qa Qa' : World -> Prop) Qu :
  triple m w Q Qa Qu ->
  (forall a w', Q a w' -> Q' a w') -> (forall w', Qa w' -> Qa' w') ->
  triple m w Q' Qa' Qu.
Proof.
  unfold triple. destruct (m w); auto.
Qed.

Lemma triple_get w Q Qa Qu : Q (self w) w -> triple get w Q Qa Qu.
Proof. exact id. Qed.

Lemma triple_modify f w Q Qa Qu :
  Q tt (MkWorld (f (self w)) (out w)) -> triple (modify f) w Q Qa Qu.
Proof. exact id. Qed.

Lemma triple_emit e w Q Qa Qu :
  Q tt (MkWorld (self w) (out w ++ [e])) -> triple (emit e) w Q Qa Qu.
Proof. exact id. Qed.

Lemma triple_matrix_call e f w Q Qa Qu :
  Q tt (MkWorld (set_matrix (f (matrix (self w))) (self w)) (out w ++ [e])) ->
  triple (matrix_call e f) w Q Qa Qu.
Proof. exact id. Qed.

Lemma triple_at {A} (v : list A) i x w Q Qa Qu :
  v !! i = Some x -> Q x w -> triple (at_ v i) w Q Qa Qu.
Proof. unfold triple, at_. intros ->. exact id. Qed.

Lemma triple_when c m w Q Qa Qu :
  (c = true -> triple m w Q Qa Qu) -> (c = false -> Q tt w) ->
  triple (when c m) w Q Qa Qu.
Proof. destruct c; simpl; intros H1 H2; [apply H1 | apply H2]; reflexivity. Qed.

(** A loop over any list, with an invariant on what has been visited. *)
Lemma triple_for_acc {I A} (idx : list I) (body : I -> A -> M A)
    (Inv : list I -> A -> World -> Prop) Qa Qu :
  forall done a w,
    Inv done a w ->
    (forall pre i a w, (exists post, done ++ idx = pre ++ i :: post) ->
       length done <= length pre ->
       Inv pre a w -> triple (body i a) w (Inv (pre ++ [i])) Qa Qu)%nat ->
    triple (for_acc idx body a) w (Inv (done ++ idx)) Qa Qu.
Proof.
  induction idx as [|i rest IH]; intros done a w Hinv Hbody.
  - rewrite app_nil_r. exact Hinv.
  - simpl. apply triple_bind.
    eapply triple_conseq; [apply (Hbody done i a w); eauto | | auto].
    intros a' w' Hinv'. simpl.
    replace (done ++ i :: rest) with ((done ++ [i]) ++ rest)
      by (rewrite <- app_assoc; reflexivity).
    apply IH; [exact Hinv'|].
    intros pre j a0 w0 [post Hpost] Hlen Hpre.
    apply Hbody; [|rewrite length_app in Hlen; simpl in Hlen; lia|exact Hpre].
    exists post. rewrite <- Hpost, <- app_assoc. reflexivity.
Qed.

(** A loop over the levels [0 .. n-1], with an invariant on the number of
    levels done. *)
Lemma triple_for_levels {A} (n : nat) (body : nat -> A -> M A)
    (Inv : nat -> A -> World -> Prop) Qa Qu a w :
  Inv 0%nat a w ->
  (forall i a w, (i < n)%nat -> Inv i a w ->
     triple (body i a) w (Inv (S i)) Qa Qu) ->
  triple (for_acc (seq 0 n) body a) w (Inv n) Qa Qu.
Proof.
  intros H0 Hbody.
  pose (Inv' := fun (pre : list nat) a w => Inv (length pre) a w).
  pose proof (triple_for_acc (seq 0 n) body Inv' Qa Qu [] a w) as H.
  eapply triple_conseq; [apply H; [exact H0|] | | auto].
  2:{ intros a' w'. unfold Inv'. simpl. rewrite length_seq. auto. }
  clear H.
  intros pre i a0 w0 [post Hpost] _ Hpre.
  assert (Hi : i = length pre /\ (i < n)%nat).
  { assert (Hl : seq 0 n !! length pre = Some i).
    { simpl in Hpost. rewrite Hpost. rewrite lookup_app_r by lia.
      replace (length pre - length pre)%nat with 0%nat by lia. reflexivity. }
    apply lookup_seq in Hl. lia. }
  destruct Hi as [-> Hlt].
  unfold Inv'. rewrite length_app. simpl.
  replace (length pre + 1)%nat with (S (length pre)) by lia.
  apply Hbody; assumption.
Qed.

(** * updateInternals *)

(** C7. Every call of [updateInternals] prints the diagnostic and aborts
    the process: the outcome is never a normal return, the object it
    aborts with is the object it was called on, and the one thing added to
    the output is the diagnostic. *)
Theorem updateInternals_prints_and_aborts
    (amrcore_in : AmrCore) (ebfactory_in : list EBFArrayBoxFactory) (w : World) :
  exists w' : World,
    updateInternals amrcore_in ebfactory_in w = Aborted w' /\
    self w' = self w /\
    out w' =
      out w ++ [EvPrint "ERROR: DiffusionEquation::updateInternals() not yet implemented"] /\
    forall (a : unit) (w'' : World),
      updateInternals amrcore_in ebfactory_in w <> Normal a w''.
Proof.
  unfold updateInternals, amrex_Print, amrex_Abort, emit, mbind, M_bind, bind.
  cbn [self out]. eexists. split; [reflexivity|].
  split; [reflexivity|]. split; [reflexivity|].
  intros a w''. discriminate.
Qed.

(** * setSolverSettings *)

Lemma setSolverSettings_controls (o : DiffusionEquation) (solver : MLMG) :
  let s := setSolverSettings o solver in
  max_iters s = mg_max_iter o /\ max_fmg_iters s = mg_max_fmg_iter o /\
  cg_maxiter s = mg_cg_maxiter o /\ mlmg_verbose s = mg_verbose o /\
  cg_verbose s = mg_cg_verbose o /\ final_fill_bc s = true.
Proof. unfold setSolverSettings. simpl. tauto. Qed.

Lemma setSolverSettings_bottom (o : DiffusionEquation) (solver : MLMG) :
  bottom_solver (setSolverSettings o solver) =
  if String.eqb (bottom_solver_type o) "smoother" then bs_smoother
  else if String.eqb (bottom_solver_type o) "hypre" then bs_hypre
  else bottom_solver solver.
Proof.
  unfold setSolverSettings.
  destruct (String.eqb (bottom_solver_type o) "smoother");
    [reflexivity | destruct (String.eqb (bottom_solver_type o) "hypre"); reflexivity].
Qed.

(** C8. [setSolverSettings] selects the smoother for "smoother" and hypre
    for "hypre"; for any other string the solver keeps the bottom solver it
    had (the function is total: nothing is rejected); in every case the
    iteration caps, the verbosities and the final halo fill are set. *)
Theorem setSolverSettings_spec (o : DiffusionEquation) (solver : MLMG) :
  let s := setSolverSettings o solver in
  (bottom_solver_type o = "smoother"%string -> bottom_solver s = bs_smoother) /\
  (bottom_solver_type o = "hypre"%string -> bottom_solver s = bs_hypre) /\
  (bottom_solver_type o <> "smoother"%string ->
   bottom_solver_type o <> "hypre"%string ->
   bottom_solver s = bottom_solver solver) /\
  max_iters s = mg_max_iter o /\ max_fmg_iters s = mg_max_fmg_iter o /\
  cg_maxiter s = mg_cg_maxiter o /\ mlmg_verbose s = mg_verbose o /\
  cg_verbose s = mg_cg_verbose o /\ final_fill_bc s = true.
Proof.
  intros s. subst s.
  pose proof (setSolverSettings_controls o solver) as Hc. simpl in Hc.
  pose proof (setSolverSettings_bottom o solver) as Hb.
  repeat split; try tauto.
  - intros E. rewrite Hb, E. reflexivity.
  - intros E. rewrite Hb, E. reflexivity.
  - intros E1 E2. rewrite Hb.
    apply String.eqb_neq in E1, E2. rewrite E1, E2. reflexivity.
Qed.

(** * Boxes and arrays *)

Lemma contains_spec (bx : Box) (p : IntVect) :
  contains bx p = true <->
  (smallEnd bx).1.1 <= p.1.1 <= (bigEnd bx).1.1 /\
  (smallEnd bx).1.2 <= p.1.2 <= (bigEnd bx).1.2 /\
  (smallEnd bx).2 <= p.2 <= (bigEnd bx).2.
Proof.
  destruct bx as [[[li lj] lk] [[hi hj] hk]], p as [[i j] k]. unfold contains. simpl.
  rewrite !andb_true_iff, !Z.leb_le. lia.
Qed.

Lemma elem_of_box_cells (bx : Box) (p : IntVect) :
  p ∈ box_cells bx <-> contains bx p = true.
Proof.
  rewrite contains_spec.
  destruct bx as [[[li lj] lk] [[hi hj] hk]], p as [[i j] k]. unfold box_cells. simpl.
  rewrite list_elem_of_bind. split.
  - intros (i' & Hi & Hini). apply list_elem_of_bind in Hi as (j' & Hj & Hinj).
    apply list_elem_of_bind in Hj as (k' & Hk & Hink).
    apply list_elem_of_singleton in Hk. inversion Hk; subst.
    apply elem_of_seqZ in Hini, Hinj, Hink. lia.
  - intros (Hi & Hj & Hk). exists i. split; [|apply elem_of_seqZ; lia].
    apply list_elem_of_bind. exists j. split; [|apply elem_of_seqZ; lia].
    apply list_elem_of_bind. exists k. split; [|apply elem_of_seqZ; lia].
    apply list_elem_of_singleton. reflexivity.
Qed.

Lemma contains_grow (bx : Box) (n : Z) (p : IntVect) :
  0 <= n -> contains bx p = true -> contains (grow bx n) p = true.
Proof.
  rewrite !contains_spec.
  destruct bx as [[[li lj] lk] [[hi hj] hk]], p as [[i j] k]. simpl. lia.
Qed.

Lemma grow_0 (bx : Box) (p : IntVect) : contains (grow bx 0) p = contains bx p.
Proof.
  apply eq_true_iff_eq. rewrite !contains_spec.
  destruct bx as [[[li lj] lk] [[hi hj] hk]], p as [[i j] k]. simpl. lia.
Qed.

Lemma iv_eqb_eq (p q : IntVect) : iv_eqb p q = true <-> p = q.
Proof.
  destruct p as [[i j] k], q as [[a b0] c]. unfold iv_eqb.
  rewrite !andb_true_iff, !Z.eqb_eq. split.
  - intros [[-> ->] ->]. reflexivity.
  - intros E. inversion E. auto.
Qed.

Lemma iv_eqb_refl (p : IntVect) : iv_eqb p p = true.
Proof. apply iv_eqb_eq. reflexivity. Qed.

Lemma iv_eqb_neq (p q : IntVect) : p <> q -> iv_eqb p q = false.
Proof.
  intros H. destruct (iv_eqb p q) eqn:E; [|reflexivity].
  apply iv_eqb_eq in E. contradiction.
Qed.

(** Two boxes that share a cell. *)
Definition intersects (b1 b2 : Box) : bool :=
  let '(l1i, l1j, l1k) := smallEnd b1 in let '(h1i, h1j, h1k) := bigEnd b1 in
  let '(l2i, l2j, l2k) := smallEnd b2 in let '(h2i, h2j, h2k) := bigEnd b2 in
  (Z.max l1i l2i <=? Z.min h1i h2i) && (Z.max l1j l2j <=? Z.min h1j h2j) &&
  (Z.max l1k l2k <=? Z.min h1k h2k).

Lemma intersects_contains (b1 b2 : Box) (p : IntVect) :
  contains b1 p = true -> contains b2 p = true -> intersects b1 b2 = true.
Proof.
  rewrite !contains_spec.
  destruct b1 as [[[l1i l1j] l1k] [[h1i h1j] h1k]].
  destruct b2 as [[[l2i l2j] l2k] [[h2i h2j] h2k]].
  destruct p as [[i j] k]. unfold intersects. simpl.
  rewrite !andb_true_iff, !Z.leb_le. lia.
Qed.

(** * The embedded-surface velocity fill *)

Section Fill.

Variables (sin cos : Real -> Real) (atan2 : Real -> Real -> Real).

(** What lines 113-115 store in components 0 and 1 of a cell whose
    boundary normal is [(nx, ny)]. *)
Definition rotation_velocity (speed nx ny : Real) : Real * Real :=
  let theta := atan2 (PrimFloat.opp ny) (PrimFloat.opp nx) in
  (PrimFloat.mul speed (sin theta), PrimFloat.mul (PrimFloat.opp speed) (cos theta)).

Lemma fill_cells_spec (speed : Real) (nrm : Array4) (cells : list IntVect)
    (arr : Array4) (p : IntVect) (n : nat) :
  foldl (fun arr p =>
           let theta :=
             atan2 (PrimFloat.opp (nrm p 1%nat)) (PrimFloat.opp (nrm p 0%nat)) in
           let arr := assign arr p 0 (PrimFloat.mul speed (sin theta)) in
           assign arr p 1 (PrimFloat.mul (PrimFloat.opp speed) (cos theta)))
        arr cells p n =
  if decide (p ∈ cells) then
    match n with
    | O => (rotation_velocity speed (nrm p 0%nat) (nrm p 1%nat)).1
    | S O => (rotation_velocity speed (nrm p 0%nat) (nrm p 1%nat)).2
    | _ => arr p n
    end
  else arr p n.
Proof.
  match goal with |- foldl ?f _ _ _ _ = _ => set (step := f) end.
  induction cells as [|x l IH] using rev_ind.
  - simpl. destruct (decide (p ∈ [])) as [H|H]; [inversion H | reflexivity].
  - rewrite foldl_app. cbn [foldl].
    set (prev := foldl step arr l) in *.
    unfold step, assign.
    destruct (decide (p = x)) as [->|Hne].
    + rewrite iv_eqb_refl. cbn [andb].
      destruct (decide (x ∈ l ++ [x])) as [_|Hn];
        [|exfalso; apply Hn; apply elem_of_app; right; apply list_elem_of_singleton; reflexivity].
      destruct n as [|[|n]]; cbn [Nat.eqb]; try reflexivity.
      rewrite IH. destruct (decide (x ∈ l)); reflexivity.
    + rewrite (iv_eqb_neq p x Hne). cbn [andb]. rewrite IH.
      destruct (decide (p ∈ l)) as [Hin|Hnin];
        destruct (decide (p ∈ l ++ [x])) as [Hin'|Hnin']; try reflexivity.
      * exfalso. apply Hnin'. apply elem_of_app. left. exact Hin.
      * exfalso. apply elem_of_app in Hin' as [H|H]; [contradiction|].
        apply list_elem_of_singleton in H. contradiction.
Qed.

(** The cut-cell branch: inside the tile, components 0 and 1 hold the
    rotation velocity and every other component is left as it was;
    outside the tile nothing changes. *)
Lemma fill_cut_cells_spec (speed : Real) (nrm : Array4) (bx : Box)
    (arr : Array4) (p : IntVect) (n : nat) :
  fill_cut_cells sin cos atan2 speed nrm bx arr p n =
  if contains bx p then
    match n with
    | O => (rotation_velocity speed (nrm p 0%nat) (nrm p 1%nat)).1
    | S O => (rotation_velocity speed (nrm p 0%nat) (nrm p 1%nat)).2
    | _ => arr p n
    end
  else arr p n.
Proof.
  unfold fill_cut_cells. rewrite fill_cells_spec.
  destruct (decide (p ∈ box_cells bx)) as [H|H].
  - apply elem_of_box_cells in H. rewrite H. reflexivity.
  - destruct (contains bx p) eqn:E; [|reflexivity].
    exfalso. apply H. apply elem_of_box_cells. exact E.
Qed.

End Fill.

Lemma getType_regular (flags : EBCellFlagFab) (bx : Box) (p : IntVect) :
  getType flags bx = regular -> contains bx p = true -> flags p = cell_regular.
Proof.
  unfold getType. intros H Hp.
  destruct (forallb (fun p => isRegular (flags p)) (box_cells bx)) eqn:E.
  - rewrite forallb_forall in E.
    specialize (E p). rewrite <- list_elem_of_In in E.
    specialize (E (proj2 (elem_of_box_cells bx p) Hp)).
    destruct (flags p); simpl in E; congruence.
  - destruct (forallb (fun p => isCovered (flags p)) (box_cells bx)); [discriminate|].
    destruct (existsb (fun p => isMultiValued (flags p)) (box_cells bx)); discriminate.
Qed.

Lemma getType_covered (flags : EBCellFlagFab) (bx : Box) (p : IntVect) :
  getType flags bx = covered -> contains bx p = true -> flags p = cell_covered.
Proof.
  unfold getType. intros H Hp.
  destruct (forallb (fun p => isRegular (flags p)) (box_cells bx)); [discriminate|].
  destruct (forallb (fun p => isCovered (flags p)) (box_cells bx)) eqn:E.
  - rewrite forallb_forall in E.
    specialize (E p). rewrite <- list_elem_of_In in E.
    specialize (E (proj2 (elem_of_box_cells bx p) Hp)).
    destruct (flags p); simpl in E; congruence.
  - destruct (existsb (fun p => isMultiValued (flags p)) (box_cells bx)); discriminate.
Qed.

(** The checks of the tile loop: the patch exists, and so do its flags and,
    for a tile that is neither regular nor covered, its normals. *)
Definition tile_ok (fact : EBFArrayBoxFactory) (npatches : nat) (tile : nat * Box) : bool :=
  let '(i, bx) := tile in
  (i <? npatches)%nat &&
  match getMultiEBCellFlagFab fact !! i with
  | Some flags =>
      is_covered_or_regular (getType flags bx) ||
      (i <? length (getBndryNormal fact))%nat
  | None => false
  end.

(** No two tiles of one patch share a cell. *)
Fixpoint tiles_disjoint (ts : list (nat * Box)) : bool :=
  match ts with
  | [] => true
  | t :: rest =>
      forallb (fun t' => negb ((t.1 =? t'.1)%nat && intersects t.2 t'.2)) rest &&
      tiles_disjoint rest
  end.

Lemma tiles_disjoint_app (pre : list (nat * Box)) (t : nat * Box) (post : list (nat * Box)) :
  tiles_disjoint (pre ++ t :: post) = true ->
  forall t' p, t' ∈ pre -> t'.1 = t.1 ->
    contains t'.2 p = true -> contains t.2 p = false.
Proof.
  induction pre as [|a pre IH]; intros H t' p Hin Hidx Hp.
  - inversion Hin.
  - simpl in H. apply andb_true_iff in H as [Ha Hrest].
    apply elem_of_cons in Hin as [->|Hin].
    + rewrite forallb_forall in Ha.
      specialize (Ha t). rewrite <- list_elem_of_In in Ha.
      assert (Hmem : t ∈ pre ++ t :: post).
      { apply elem_of_app. right. apply elem_of_cons. left. reflexivity. }
      specialize (Ha Hmem). rewrite Hidx, Nat.eqb_refl in Ha. simpl in Ha.
      destruct (contains t.2 p) eqn:E; [|reflexivity].
      rewrite (intersects_contains _ _ p Hp E) in Ha. discriminate.
    + eapply IH; eauto.
Qed.

Section FillSpec.

Variables (sin cos : Real -> Real) (atan2 : Real -> Real -> Real).

(** What the fill leaves in a tile. *)
Definition tile_filled (speed : Real) (fact : EBFArrayBoxFactory)
    (mf : MultiFab) (tile : nat * Box) : Prop :=
  exists (arr : Array4) (flags : EBCellFlagFab),
    fabs mf !! tile.1 = Some arr /\
    getMultiEBCellFlagFab fact !! tile.1 = Some flags /\
    if is_covered_or_regular (getType flags tile.2)
    then forall p, contains tile.2 p = true -> arr p 0%nat = 0%float
    else exists nrm : Array4,
        getBndryNormal fact !! tile.1 = Some nrm /\
        forall p, contains tile.2 p = true ->
          (arr p 0%nat, arr p 1%nat) =
          rotation_velocity sin cos atan2 speed (nrm p 0%nat) (nrm p 1%nat).

(** The effect of one pass of the tile loop on the array of its patch. *)
Definition tile_effect (speed : Real) (fact : EBFArrayBoxFactory)
    (tile : nat * Box) (arr : Array4) : Array4 :=
  match getMultiEBCellFlagFab fact !! tile.1 with
  | Some flags =>
      if is_covered_or_regular (getType flags tile.2)
      then setVal 0%float tile.2 0 arr
      else match getBndryNormal fact !! tile.1 with
           | Some nrm => fill_cut_cells sin cos atan2 speed nrm tile.2 arr
           | None => arr
           end
  | None => arr
  end.

Lemma tile_effect_outside speed fact tile arr p n :
  contains tile.2 p = false -> tile_effect speed fact tile arr p n = arr p n.
Proof.
  intros Hp. unfold tile_effect.
  destruct (getMultiEBCellFlagFab fact !! tile.1) as [flags|]; [|reflexivity].
  destruct (is_covered_or_regular (getType flags tile.2)).
  - unfold setVal. rewrite Hp. reflexivity.
  - destruct (getBndryNormal fact !! tile.1) as [nrm|]; [|reflexivity].
    rewrite fill_cut_cells_spec, Hp. reflexivity.
Qed.

Lemma tile_effect_high_comps speed fact tile arr p n :
  (2 <= n)%nat -> tile_effect speed fact tile arr p n = arr p n.
Proof.
  intros Hn. unfold tile_effect.
  destruct (getMultiEBCellFlagFab fact !! tile.1) as [flags|]; [|reflexivity].
  destruct (is_covered_or_regular (getType flags tile.2)).
  - unfold setVal. destruct n as [|n]; [lia|]. simpl. rewrite andb_false_r. reflexivity.
  - destruct (getBndryNormal fact !! tile.1) as [nrm|]; [|reflexivity].
    rewrite fill_cut_cells_spec. destruct n as [|[|n]]; try lia.
    destruct (contains tile.2 p); reflexivity.
Qed.

Lemma tile_effect_filled speed fact tile mf arr :
  tile_ok fact (length (fabs mf)) tile = true ->
  fabs mf !! tile.1 = Some arr ->
  tile_filled speed fact
    (with_fabs mf (<[tile.1 := tile_effect speed fact tile arr]> (fabs mf))) tile.
Proof.
  destruct tile as [i bx]. unfold tile_ok, tile_filled, tile_effect. simpl.
  intros Hok Harr. apply andb_true_iff in Hok as [Hi Hfl].
  apply Nat.ltb_lt in Hi.
  destruct (getMultiEBCellFlagFab fact !! i) as [flags|]; [|discriminate].
  eexists _, flags. split; [apply list_lookup_insert_eq; exact Hi|]. split; [reflexivity|].
  destruct (is_covered_or_regular (getType flags bx)) eqn:E.
  - intros p Hp. unfold setVal. rewrite Hp. reflexivity.
  - simpl in Hfl. apply Nat.ltb_lt in Hfl.
    destruct (lookup_lt_is_Some_2 _ _ Hfl) as [nrm Hnrm].
    exists nrm. split; [exact Hnrm|]. intros p Hp. rewrite Hnrm.
    rewrite !fill_cut_cells_spec, Hp. reflexivity.
Qed.

End FillSpec.

Lemma world_eta (w : World) : MkWorld (self w) (out w) = w.
Proof. destruct w; reflexivity. Qed.

Lemma set_vel_eb_id (o : DiffusionEquation) : set_vel_eb (vel_eb o) o = o.
Proof. destruct o; reflexivity. Qed.

Lemma set_b_id (o : DiffusionEquation) : set_b (b o) o = o.
Proof. destruct o; reflexivity. Qed.

Lemma set_phi_id (o : DiffusionEquation) : set_phi (phi o) o = o.
Proof. destruct o; reflexivity. Qed.

Lemma set_rhs_id (o : DiffusionEquation) : set_rhs (rhs o) o = o.
Proof. destruct o; reflexivity. Qed.

Lemma set_matrix_id (o : DiffusionEquation) : set_matrix (matrix o) o = o.
Proof. destruct o; reflexivity. Qed.

Lemma with_fabs_id (mf : MultiFab) : with_fabs mf (fabs mf) = mf.
Proof. destruct mf; reflexivity. Qed.

Lemma tiles_disjoint_snoc (pre : list (nat * Box)) (t : nat * Box) :
  tiles_disjoint (pre ++ [t]) = true -> tiles_disjoint pre = true.
Proof.
  induction pre as [|a pre IH]; simpl; [reflexivity|].
  rewrite !andb_true_iff. intros [Ha Hrest]. split; [|auto].
  rewrite forallb_app in Ha. apply andb_true_iff in Ha as [Ha _]. exact Ha.
Qed.

Section FillRun.

Variables (sin cos : Real -> Real) (atan2 : Real -> Real -> Real).

(** One pass of the tile loop, and the whole loop, on a MultiFab. *)
Definition tile_step (speed : Real) (fact : EBFArrayBoxFactory) (mf : MultiFab)
    (tile : nat * Box) : MultiFab :=
  match fabs mf !! tile.1 with
  | Some arr =>
      with_fabs mf (<[tile.1 := tile_effect sin cos atan2 speed fact tile arr]> (fabs mf))
  | None => mf
  end.

Definition tiles_effect (speed : Real) (fact : EBFArrayBoxFactory)
    (ts : list (nat * Box)) (mf : MultiFab) : MultiFab :=
  foldl (tile_step speed fact) mf ts.

Lemma tile_step_layout speed fact mf tile :
  boxArray (tile_step speed fact mf tile) = boxArray mf /\
  nComp (tile_step speed fact mf tile) = nComp mf /\
  nGrow (tile_step speed fact mf tile) = nGrow mf /\
  length (fabs (tile_step speed fact mf tile)) = length (fabs mf).
Proof.
  unfold tile_step. destruct (fabs mf !! tile.1); simpl; [|tauto].
  rewrite length_insert. tauto.
Qed.

Lemma tiles_effect_layout speed fact ts mf :
  boxArray (tiles_effect speed fact ts mf) = boxArray mf /\
  nComp (tiles_effect speed fact ts mf) = nComp mf /\
  nGrow (tiles_effect speed fact ts mf) = nGrow mf /\
  length (fabs (tiles_effect speed fact ts mf)) = length (fabs mf).
Proof.
  unfold tiles_effect. revert mf.
  induction ts as [|t ts IH]; intros mf; simpl; [tauto|].
  destruct (IH (tile_step speed fact mf t)) as (H1 & H2 & H3 & H4).
  destruct (tile_step_layout speed fact mf t) as (G1 & G2 & G3 & G4).
  rewrite H1, H2, H3, H4. tauto.
Qed.

(** Lines 94-117 as a function of the world. *)
Lemma fill_tile_run (lev : nat) (fact : EBFArrayBoxFactory) (tile : nat * Box)
    (w : World) (mf : MultiFab) :
  vel_eb (self w) !! lev = Some mf ->
  tile_ok fact (length (fabs mf)) tile = true ->
  fill_tile sin cos atan2 lev fact tile w =
  Normal tt (MkWorld
               (set_vel_eb (<[lev := tile_step (cyl_speed (self w)) fact mf tile]>
                              (vel_eb (self w))) (self w))
               (out w)).
Proof.
  destruct tile as [i bx]. intros Hmf Hok.
  unfold tile_ok in Hok. apply andb_true_iff in Hok as [Hi Hfl].
  apply Nat.ltb_lt in Hi.
  destruct (lookup_lt_is_Some_2 _ _ Hi) as [arr Harr].
  unfold fill_tile, tile_step, tile_effect, mbind, M_bind, bind, get, at_, modify.
  simpl. rewrite Hmf. simpl. rewrite Harr. simpl.
  destruct (getMultiEBCellFlagFab fact !! i) as [flags|]; [|discriminate]. simpl.
  destruct (is_covered_or_regular (getType flags bx)) eqn:E; [reflexivity|].
  simpl in Hfl. apply Nat.ltb_lt in Hfl.
  destruct (lookup_lt_is_Some_2 _ _ Hfl) as [nrm Hnrm]. rewrite Hnrm. reflexivity.
Qed.

Lemma fill_tiles_run (lev : nat) (fact : EBFArrayBoxFactory) (ts : list (nat * Box)) :
  forall (w : World) (mf : MultiFab),
    vel_eb (self w) !! lev = Some mf ->
    forallb (tile_ok fact (length (fabs mf))) ts = true ->
    for_ ts (fill_tile sin cos atan2 lev fact) w =
    Normal tt (MkWorld
                 (set_vel_eb (<[lev := tiles_effect (cyl_speed (self w)) fact ts mf]>
                                (vel_eb (self w))) (self w))
                 (out w)).
Proof.
  unfold for_. induction ts as [|t ts IH]; intros w mf Hmf Hok.
  - simpl. unfold ret. rewrite list_insert_id by exact Hmf.
    rewrite set_vel_eb_id, world_eta. reflexivity.
  - simpl in Hok. apply andb_true_iff in Hok as [Ht Hts].
    cbn [for_acc]. unfold mbind, M_bind, bind.
    rewrite (fill_tile_run lev fact t w mf Hmf Ht).
    assert (Hlev : (lev < length (vel_eb (self w)))%nat)
      by (apply lookup_lt_is_Some; eauto).
    fold (@bind unit unit). unfold bind in IH. unfold mbind, M_bind, bind in IH.
    erewrite IH.
    + simpl. rewrite list_insert_insert_eq. reflexivity.
    + simpl. apply list_lookup_insert_eq. exact Hlev.
    + destruct (tile_step_layout (cyl_speed (self w)) fact mf t) as (_ & _ & _ & ->).
      exact Hts.
Qed.

End FillRun.

Section FillProps.

Variables (sin cos : Real -> Real) (atan2 : Real -> Real -> Real).
Variables (speed : Real) (fact : EBFArrayBoxFactory).

Local Abbreviation tstep := (tile_step sin cos atan2 speed fact).
Local Abbreviation teffects := (tiles_effect sin cos atan2 speed fact).
Local Abbreviation tfilled := (tile_filled sin cos atan2 speed fact).
Local Abbreviation teffect := (tile_effect sin cos atan2 speed fact).

Lemma tiles_effect_snoc pre t mf :
  teffects (pre ++ [t]) mf = tstep (teffects pre mf) t.
Proof. unfold tiles_effect. rewrite foldl_app. reflexivity. Qed.

(** A later tile of another patch, or of the same patch but disjoint,
    leaves what an earlier tile stored. *)
Lemma tile_step_keeps_filled mf t t' :
  tfilled mf t' ->
  (t'.1 = t.1 -> forall p, contains t'.2 p = true -> contains t.2 p = false) ->
  tfilled (tstep mf t) t'.
Proof.
  intros (arr & flags & Harr & Hflags & Hval) Hdisj.
  unfold tile_step.
  destruct (fabs mf !! t.1) as [arr_t|] eqn:Ht; [|exists arr, flags; auto].
  destruct (decide (t'.1 = t.1)) as [E|NE].
  - rewrite E in Harr. rewrite Ht in Harr. inversion Harr; subst arr_t.
    exists (teffect t arr), flags. simpl. split.
    { rewrite E. apply list_lookup_insert_eq. apply lookup_lt_is_Some. eauto. }
    split; [exact Hflags|].
    destruct (is_covered_or_regular (getType flags t'.2)).
    + intros p Hp. rewrite tile_effect_outside by (apply Hdisj; auto). auto.
    + destruct Hval as (nrm & Hnrm & Hval). exists nrm. split; [exact Hnrm|].
      intros p Hp. rewrite !tile_effect_outside by (apply Hdisj; auto). auto.
  - exists arr, flags. simpl. split; [|auto].
    rewrite list_lookup_insert_ne by congruence. exact Harr.
Qed.

Lemma tiles_effect_filled ts mf :
  forallb (tile_ok fact (length (fabs mf))) ts = true ->
  tiles_disjoint ts = true ->
  forall t, t ∈ ts -> tfilled (teffects ts mf) t.
Proof.
  induction ts as [|t ts IH] using rev_ind; intros Hok Hdisj t' Hin.
  - inversion Hin.
  - rewrite forallb_app in Hok. apply andb_true_iff in Hok as [Hok Hokt].
    simpl in Hokt. rewrite andb_true_r in Hokt.
    rewrite tiles_effect_snoc.
    destruct (tiles_effect_layout sin cos atan2 speed fact ts mf) as (_ & _ & _ & Hlen).
    apply elem_of_app in Hin as [Hin|Hin].
    + apply tile_step_keeps_filled.
      * apply IH; auto. eapply tiles_disjoint_snoc; eauto.
      * intros E p Hp. eapply (tiles_disjoint_app ts t []); eauto.
    + apply list_elem_of_singleton in Hin. subst t'.
      unfold tile_step.
      assert (Hi : (t.1 < length (fabs (teffects ts mf)))%nat).
      { rewrite Hlen. unfold tile_ok in Hokt. destruct t as [i bx].
        apply andb_true_iff in Hokt as [Hi _]. apply Nat.ltb_lt in Hi. exact Hi. }
      destruct (lookup_lt_is_Some_2 _ _ Hi) as [arr Harr]. rewrite Harr.
      apply tile_effect_filled; [rewrite Hlen; exact Hokt | exact Harr].
Qed.

(** No tile writes a component beyond 0 and 1. *)
Lemma tiles_effect_high_comps ts mf i arr0 arr p n :
  fabs mf !! i = Some arr0 ->
  fabs (teffects ts mf) !! i = Some arr ->
  (2 <= n)%nat -> arr p n = arr0 p n.
Proof.
  revert arr.
  induction ts as [|t ts IH] using rev_ind; intros arr H0 H Hn.
  - unfold tiles_effect in H. simpl in H. congruence.
  - rewrite tiles_effect_snoc in H. unfold tile_step in H.
    destruct (fabs (teffects ts mf) !! t.1) as [arr_t|] eqn:Ht; [|eauto].
    simpl in H. destruct (decide (i = t.1)) as [->|NE].
    + rewrite list_lookup_insert_eq in H by (apply lookup_lt_is_Some; eauto).
      inversion H; subst. rewrite tile_effect_high_comps by exact Hn. eauto.
    + rewrite list_lookup_insert_ne in H by congruence. eauto.
Qed.

End FillProps.

Section FillLevels.

Variables (sin cos : Real -> Real) (atan2 : Real -> Real -> Real).
Variable tiling : MultiFab -> list (nat * Box).

(** What the level loop of the fill needs on entry: for every level up
    to [max_level] a factory and a buffer, and tiles that name patches
    that exist. *)
Definition fill_ready (max_level : Z) (o : DiffusionEquation) : Prop :=
  forall lev : nat, Z.of_nat lev <= max_level ->
    exists fact mf0,
      ebfactory o !! lev = Some fact /\ vel_eb o !! lev = Some mf0 /\
      forallb (tile_ok fact (length (fabs mf0))) (tiling mf0) = true.

Definition fill_post (max_level : Z) (w : World) (w' : World) : Prop :=
  out w' = out w /\
  exists V : list MultiFab,
    self w' = set_vel_eb V (self w) /\
    length V = length (vel_eb (self w)) /\
    (forall lev : nat, max_level < Z.of_nat lev -> V !! lev = vel_eb (self w) !! lev) /\
    (forall (lev : nat) fact mf0,
       Z.of_nat lev <= max_level ->
       ebfactory (self w) !! lev = Some fact ->
       vel_eb (self w) !! lev = Some mf0 ->
       V !! lev =
       Some (tiles_effect sin cos atan2 (cyl_speed (self w)) fact (tiling mf0) mf0)).

Lemma fill_vel_eb_run (max_level : Z) (w : World) :
  fill_ready max_level (self w) ->
  triple (fill_vel_eb sin cos atan2 tiling max_level) w
         (fun _ w' => fill_post max_level w w') (fun _ => False) False.
Proof.
  intros Hready. unfold fill_vel_eb, levels_upto. unfold for_ at 1.
  set (N := Z.to_nat (max_level + 1)).
  pose (Inv := fun (k : nat) (_ : unit) (w' : World) =>
    out w' = out w /\
    exists V : list MultiFab,
      self w' = set_vel_eb V (self w) /\
      length V = length (vel_eb (self w)) /\
      (forall lev : nat, (k <= lev)%nat -> V !! lev = vel_eb (self w) !! lev) /\
      (forall (lev : nat) fact mf0,
         (lev < k)%nat ->
         ebfactory (self w) !! lev = Some fact ->
         vel_eb (self w) !! lev = Some mf0 ->
         V !! lev =
         Some (tiles_effect sin cos atan2 (cyl_speed (self w)) fact (tiling mf0) mf0))).
  eapply triple_conseq;
    [apply (triple_for_levels N _ Inv (fun _ => False) False) | | auto].
  - split; [reflexivity|]. exists (vel_eb (self w)).
    rewrite set_vel_eb_id. repeat split; auto. intros; lia.
  - intros i [] w1 Hi (Hout & V & Hself & Hlen & Hrest & Hdone).
    destruct (Hready i) as (fact & mf0 & Hfact & Hmf0 & Hok); [unfold N in Hi; lia|].
    destruct w1 as [o1 out1]. simpl in Hout, Hself. subst o1 out1.
    assert (HV : V !! i = Some mf0) by (rewrite Hrest by lia; exact Hmf0).
    unfold triple, mbind, M_bind, bind, get, at_. simpl.
    rewrite Hfact. simpl. rewrite HV. simpl.
    rewrite (fill_tiles_run sin cos atan2 i fact (tiling mf0) _ mf0); [|exact HV|exact Hok].
    simpl. split; [reflexivity|].
    exists (<[i := tiles_effect sin cos atan2 (cyl_speed (self w)) fact (tiling mf0) mf0]> V).
    split; [reflexivity|]. split; [rewrite length_insert; exact Hlen|]. split.
    + intros lev Hlev. rewrite list_lookup_insert_ne by lia. apply Hrest. lia.
    + intros lev fact' mf0' Hlev Hf' Hm'.
      destruct (decide (lev = i)) as [->|NE].
      * rewrite list_lookup_insert_eq by (apply lookup_lt_is_Some; eauto).
        congruence.
      * rewrite list_lookup_insert_ne by congruence. apply Hdone; auto. lia.
  - intros [] w' (Hout & V & Hself & Hlen & Hrest & Hdone).
    split; [exact Hout|]. exists V. repeat split; auto.
    + intros lev Hlev. apply Hrest. unfold N. lia.
    + intros lev fact mf0 Hlev. apply Hdone. unfold N. lia.
Qed.

End FillLevels.

(** * The constructor *)

Ltac tstep :=
  lazymatch goal with
  | |- triple (_ ≫= _) _ _ _ _ => apply triple_bind
  | |- triple get _ _ _ _ => apply triple_get
  | |- triple (modify _) _ _ _ _ => apply triple_modify
  | |- triple (emit _) _ _ _ _ => apply triple_emit
  | |- triple (amrex_Print _) _ _ _ _ => apply triple_emit
  | |- triple (matrix_call _ _) _ _ _ _ => apply triple_matrix_call
  | |- triple (mret _) _ _ _ _ => apply triple_ret
  | |- triple (ret _) _ _ _ _ => apply triple_ret
  | |- triple (at_ _ _) _ _ _ _ => eapply triple_at; [eassumption|]
  | |- triple (when _ _) _ _ _ _ => apply triple_when; intros _
  end;
  cbv beta.

(** Projections of an updated object. *)
Ltac onorm :=
  cbn [self out amrcore ebfactory nghost cyl_speed bc_lo bc_hi b phi rhs vel_eb
       matrix verbose mg_verbose mg_cg_verbose mg_max_iter mg_cg_maxiter
       mg_max_fmg_iter mg_max_coarsening_level mg_rtol mg_atol bottom_solver_type
       set_b set_phi set_rhs set_vel_eb set_matrix] in *.

Section Ctor.

Variables (sin cos : Real -> Real) (atan2 : Real -> Real -> Real).
Variable tiling : MultiFab -> list (nat * Box).
Variable fresh : nat -> nat -> nat -> Array4.
Variable set_diff_bc :
  Box -> Z -> IArrayBox -> IArrayBox -> IArrayBox -> IArrayBox -> IArrayBox ->
  IArrayBox -> Array3 Z * Array3 Z.

Definition allocated (grids_ : list (list Box)) (max_level : Z)
    (o o' : DiffusionEquation) : Prop :=
  exists (B : list (Array3 MultiFab)) (P R V : list MultiFab),
    o' = set_b B (set_phi P (set_rhs R (set_vel_eb V o))) /\
    length B = Z.to_nat (max_level + 1) /\ length P = Z.to_nat (max_level + 1) /\
    length R = Z.to_nat (max_level + 1) /\ length V = Z.to_nat (max_level + 1) /\
    forall (lev : nat) (ba : list Box),
      Z.of_nat lev <= max_level -> grids_ !! lev = Some ba ->
      B !! lev =
        Some (MultiFab_new fresh (map (fun bx => surroundingNodes bx 0) ba) 1 (nghost o) 0 lev,
              MultiFab_new fresh (map (fun bx => surroundingNodes bx 1) ba) 1 (nghost o) 1 lev,
              MultiFab_new fresh (map (fun bx => surroundingNodes bx 2) ba) 1 (nghost o) 2 lev) /\
      P !! lev = Some (MultiFab_new fresh ba 3 1 3 lev) /\
      R !! lev = Some (MultiFab_new fresh ba 3 0 4 lev) /\
      V !! lev = Some (MultiFab_new fresh ba 3 (nghost o) 5 lev).

Lemma allocate_run (grids_ : list (list Box)) (max_level : Z) (w : World) :
  (forall lev : nat, Z.of_nat lev <= max_level ->
     is_Some (grids_ !! lev) /\ is_Some (ebfactory (self w) !! lev)) ->
  triple (allocate fresh grids_ max_level) w
         (fun _ w' => out w' = out w /\ allocated grids_ max_level (self w) (self w'))
         (fun _ => False) False.
Proof.
  intros Hready. unfold allocate, levels_upto, for_.
  cbv zeta. remember (Z.to_nat (max_level + 1)) as N eqn:HN.
  tstep. tstep.
  pose (Inv := fun (k : nat) (_ : unit) (w' : World) =>
    out w' = out w /\
    exists (B : list (Array3 MultiFab)) (P R V : list MultiFab),
      self w' = set_b B (set_phi P (set_rhs R (set_vel_eb V (self w)))) /\
      length B = N /\ length P = N /\ length R = N /\ length V = N /\
      forall (lev : nat) (ba : list Box),
        (lev < k)%nat -> grids_ !! lev = Some ba ->
        B !! lev =
          Some (MultiFab_new fresh (map (fun bx => surroundingNodes bx 0) ba) 1
                  (nghost (self w)) 0 lev,
                MultiFab_new fresh (map (fun bx => surroundingNodes bx 1) ba) 1
                  (nghost (self w)) 1 lev,
                MultiFab_new fresh (map (fun bx => surroundingNodes bx 2) ba) 1
                  (nghost (self w)) 2 lev) /\
        P !! lev = Some (MultiFab_new fresh ba 3 1 3 lev) /\
        R !! lev = Some (MultiFab_new fresh ba 3 0 4 lev) /\
        V !! lev = Some (MultiFab_new fresh ba 3 (nghost (self w)) 5 lev)).
  eapply triple_conseq;
    [apply (triple_for_levels N _ Inv (fun _ => False) False) | | auto].
  - split; [reflexivity|].
    exists (replicate N (MultiFab_null, MultiFab_null, MultiFab_null)),
      (replicate N MultiFab_null), (replicate N MultiFab_null),
      (replicate N MultiFab_null).
    rewrite !length_replicate. repeat split; try reflexivity. all: lia.
  - intros i [] w1 Hi (Hout & B & P & R & V & Hself & HlB & HlP & HlR & HlV & Hdone).
    destruct (Hready i) as [[ba Hba] [fact Hfact]]; [lia|].
    destruct w1 as [o1 out1]. cbn [self out] in Hout, Hself. subst o1 out1.
    repeat tstep.
    split; [reflexivity|].
    exists (<[i := (MultiFab_new fresh (map (fun bx => surroundingNodes bx 0) ba) 1
                      (nghost (self w)) 0 i,
                    MultiFab_new fresh (map (fun bx => surroundingNodes bx 1) ba) 1
                      (nghost (self w)) 1 i,
                    MultiFab_new fresh (map (fun bx => surroundingNodes bx 2) ba) 1
                      (nghost (self w)) 2 i)]> B),
      (<[i := MultiFab_new fresh ba 3 1 3 i]> P),
      (<[i := MultiFab_new fresh ba 3 0 4 i]> R),
      (<[i := MultiFab_new fresh ba 3 (nghost (self w)) 5 i]> V).
    split; [reflexivity|].
    rewrite !length_insert. do 4 (split; [assumption|]).
    intros lev ba0 Hlev Hba0.
    destruct (decide (lev = i)) as [->|NE].
    + do 4 (rewrite list_lookup_insert_eq by lia).
      assert (ba0 = ba) by congruence. subst ba0. repeat split; reflexivity.
    + do 4 (rewrite list_lookup_insert_ne by congruence). apply Hdone; [lia|assumption].
  - intros [] w' (Hout & B & P & R & V & Hself & HlB & HlP & HlR & HlV & Hdone).
    split; [exact Hout|]. exists B, P, R, V. rewrite <- HN.
    do 5 (split; [assumption|]).
    intros lev ba Hlev Hba. apply Hdone; [lia | assumption].
Qed.

(** What the constructor needs of its arguments: a level-0 geometry and
    boundary markers, and for every level up to [maxLevel] a grid, a
    factory, and tiles that name patches of the grid. *)
Definition ctor_ready (_amrcore : AmrCore) (_ebfactory : list EBFArrayBoxFactory)
    (bc_ilo bc_ihi bc_jlo bc_jhi bc_klo bc_khi : list IArrayBox) (_nghost : Z) : Prop :=
  is_Some (Geom _amrcore !! 0%nat) /\
  is_Some (bc_ilo !! 0%nat) /\ is_Some (bc_ihi !! 0%nat) /\
  is_Some (bc_jlo !! 0%nat) /\ is_Some (bc_jhi !! 0%nat) /\
  is_Some (bc_klo !! 0%nat) /\ is_Some (bc_khi !! 0%nat) /\
  forall lev : nat, Z.of_nat lev <= maxLevel _amrcore ->
    exists ba fact,
      grids _amrcore !! lev = Some ba /\ _ebfactory !! lev = Some fact /\
      forallb (tile_ok fact (length ba))
              (tiling (MultiFab_new fresh ba 3 _nghost 5 lev)) = true.

Definition ctor_post (_amrcore : AmrCore) (_ebfactory : list EBFArrayBoxFactory)
    (_nghost : Z) (_cyl_speed : Real) (o' : DiffusionEquation) : Prop :=
  amrcore o' = _amrcore /\ ebfactory o' = _ebfactory /\ nghost o' = _nghost /\
  cyl_speed o' = _cyl_speed /\
  forall (lev : nat) (ba : list Box) (fact : EBFArrayBoxFactory),
    Z.of_nat lev <= maxLevel _amrcore ->
    grids _amrcore !! lev = Some ba -> _ebfactory !! lev = Some fact ->
    phi o' !! lev = Some (MultiFab_new fresh ba 3 1 3 lev) /\
    rhs o' !! lev = Some (MultiFab_new fresh ba 3 0 4 lev) /\
    vel_eb o' !! lev =
      Some (tiles_effect sin cos atan2 _cyl_speed fact
              (tiling (MultiFab_new fresh ba 3 _nghost 5 lev))
              (MultiFab_new fresh ba 3 _nghost 5 lev)).

Lemma length_MultiFab_new ba ncomp ngrow site lev :
  length (fabs (MultiFab_new fresh ba ncomp ngrow site lev)) = length ba.
Proof. unfold MultiFab_new. simpl. rewrite length_map, length_seq. reflexivity. Qed.

(** The constructor returns, with the buffers allocated and the
    embedded-surface velocity filled. *)
Lemma ctor_run (pp : ParmParse) (_amrcore : AmrCore)
    (_ebfactory : list EBFArrayBoxFactory)
    (bc_ilo bc_ihi bc_jlo bc_jhi bc_klo bc_khi : list IArrayBox)
    (_nghost : Z) (_cyl_speed : Real) (w : World) :
  ctor_ready _amrcore _ebfactory bc_ilo bc_ihi bc_jlo bc_jhi bc_klo bc_khi _nghost ->
  triple (ctor sin cos atan2 tiling fresh set_diff_bc pp _amrcore _ebfactory
               bc_ilo bc_ihi bc_jlo bc_jhi bc_klo bc_khi _nghost _cyl_speed) w
         (fun _ w' => ctor_post _amrcore _ebfactory _nghost _cyl_speed (self w'))
         (fun _ => False) False.
Proof.
  intros ([g0 Hg0] & [ilo Hilo] & [ihi Hihi] & [jlo Hjlo] & [jhi Hjhi] &
          [klo Hklo] & [khi Hkhi] & Hlev).
  unfold ctor, readParameters. cbv zeta.
  repeat tstep.
  all: cbn [self out].
  all: (eapply triple_conseq; [apply allocate_run | | auto]);
    [ intros lev Hl; destruct (Hlev lev Hl) as (ba & fact & Hba & Hfact & _);
      cbn [self ebfactory]; rewrite Hba, Hfact; split; eauto | ].
  all: intros [] w1 (Hout1 & B & P & R & V & Hself1 & HlB & HlP & HlR & HlV & Halloc).
  all: onorm.
  all: tstep.
  all: (eapply triple_conseq; [apply fill_vel_eb_run | | auto]);
    [ intros lev Hl; destruct (Hlev lev Hl) as (ba & fact & Hba & Hfact & Hok);
      destruct (Halloc lev ba Hl Hba) as (_ & _ & _ & HV);
      rewrite Hself1; onorm;
      exists fact, (MultiFab_new fresh ba 3 _nghost 5 lev);
      rewrite length_MultiFab_new; auto | ].
  all: intros [] w2 (Hout2 & V' & Hself2 & HlV' & _ & Hfilled).
  all: rewrite Hself1 in Hself2, Hfilled; onorm.
  all: tstep; onorm.
  all: rewrite Hself2; onorm.
  all: do 4 (split; [reflexivity|]).
  all: intros lev ba fact Hl Hba Hfact.
  all: destruct (Halloc lev ba Hl Hba) as (_ & HP & HR & HV).
  all: (split; [exact HP|]); (split; [exact HR|]).
  all: apply Hfilled; [exact Hl | exact Hfact | exact HV].
Qed.

End Ctor.

(** * A small mesh

    One level, one patch of four cells in a row, visited as two tiles.
    Cell 0 is cut by the embedded surface, cells 1 to 3 are regular: the
    first tile holds a cut cell and a regular one, the second is all
    regular.  Fresh memory holds 7 everywhere. *)

Definition ex_box : Box := MkBox (0, 0, 0) (3, 0, 0).
Definition ex_tile1 : Box := MkBox (0, 0, 0) (1, 0, 0).
Definition ex_tile2 : Box := MkBox (2, 0, 0) (3, 0, 0).

Definition ex_amrcore : AmrCore :=
  MkAmrCore 0 0 [MkGeometry ex_box (false, false, false)] [[ex_box]].

Definition ex_flags : EBCellFlagFab :=
  fun p => if iv_eqb p (0, 0, 0) then cell_single_valued else cell_regular.

(** The normal of the cut cell points along -x; regular cells carry a zero
    normal. *)
Definition ex_normal : Array4 :=
  fun p n =>
    if iv_eqb p (0, 0, 0) && (n =? 0)%nat then (-1)%float else 0%float.

Definition ex_ebfactory : list EBFArrayBoxFactory :=
  [MkEBFactory [ex_flags] [ex_normal]].

Definition ex_tiling : MultiFab -> list (nat * Box) :=
  fun _ => [(0%nat, ex_tile1); (0%nat, ex_tile2)].

Definition ex_fresh : nat -> nat -> nat -> Array4 := fun _ _ _ _ _ => 7%float.

Definition ex_set_diff_bc :
  Box -> Z -> IArrayBox -> IArrayBox -> IArrayBox -> IArrayBox -> IArrayBox ->
  IArrayBox -> Array3 Z * Array3 Z :=
  fun _ _ _ _ _ _ _ _ => ((101, 101, 101), (101, 101, 101)).

Definition ex_bc : list IArrayBox := [fun _ _ => 0].

Definition ex_pp : ParmParse := MkParmParse (fun _ => None) (fun _ => None) (fun _ => None).

(** The object before the constructor body runs. *)
Definition ex_blank : DiffusionEquation :=
  MkDiffusionEquation (MkAmrCore 0 0 [] []) [] 0 0%float (0, 0, 0) (0, 0, 0)
    [] [] [] [] LinOp_blank 0 0 0 100 100 0 100 0x1p-36%float 0x1p-46%float "bicgstab".

Definition ex_speed : Real := 2%float.

Definition ex_ctor (sin cos : Real -> Real) (atan2 : Real -> Real -> Real)
    : Result unit :=
  ctor sin cos atan2 ex_tiling ex_fresh ex_set_diff_bc ex_pp ex_amrcore ex_ebfactory
       ex_bc ex_bc ex_bc ex_bc ex_bc ex_bc 1 ex_speed (MkWorld ex_blank []).

(** The embedded-surface velocity a run leaves at level [lev], patch [i],
    cell [p], component [n]. *)
Definition stored_vel_eb {A : Type} (r : Result A) (lev i : nat) (p : IntVect) (n : nat)
    : option Real :=
  match r with
  | Normal _ w =>
      mf ← vel_eb (self w) !! lev;
      arr ← fabs mf !! i;
      Some (arr p n)
  | _ => None
  end.

Lemma float_7_ne_0 : 7%float <> 0%float.
Proof.
  intros H. apply (f_equal (fun x => PrimFloat.eqb x 0%float)) in H.
  vm_compute in H. discriminate.
Qed.

(** * The embedded-surface velocity after construction *)

(** C2, as the code has it.  The constructor returns, and it has filled
    the embedded-surface velocity tile by tile: in every cell of a tile
    whose cells are all regular or all covered, component 0 is zero; in
    every cell of any other tile, cut or not, components 0 and 1 hold the
    rotation velocity computed from the normal stored for that cell. *)
Theorem ctor_fills_vel_eb_by_tile
    (sin cos : Real -> Real) (atan2 : Real -> Real -> Real)
    (tiling : MultiFab -> list (nat * Box)) (fresh : nat -> nat -> nat -> Array4)
    (set_diff_bc : Box -> Z -> IArrayBox -> IArrayBox -> IArrayBox -> IArrayBox ->
                   IArrayBox -> IArrayBox -> Array3 Z * Array3 Z)
    (pp : ParmParse) (_amrcore : AmrCore) (_ebfactory : list EBFArrayBoxFactory)
    (bc_ilo bc_ihi bc_jlo bc_jhi bc_klo bc_khi : list IArrayBox)
    (_nghost : Z) (_cyl_speed : Real) (w : World) :
  ctor_ready tiling fresh _amrcore _ebfactory
             bc_ilo bc_ihi bc_jlo bc_jhi bc_klo bc_khi _nghost ->
  (forall (lev : nat) (ba : list Box),
     Z.of_nat lev <= maxLevel _amrcore -> grids _amrcore !! lev = Some ba ->
     tiles_disjoint (tiling (MultiFab_new fresh ba 3 _nghost 5 lev)) = true) ->
  exists w',
    ctor sin cos atan2 tiling fresh set_diff_bc pp _amrcore _ebfactory
         bc_ilo bc_ihi bc_jlo bc_jhi bc_klo bc_khi _nghost _cyl_speed w
    = Normal tt w' /\
    forall (lev : nat) (ba : list Box) (fact : EBFArrayBoxFactory) (i : nat) (bx : Box),
      Z.of_nat lev <= maxLevel _amrcore ->
      grids _amrcore !! lev = Some ba -> _ebfactory !! lev = Some fact ->
      (i, bx) ∈ tiling (MultiFab_new fresh ba 3 _nghost 5 lev) ->
      exists (mf : MultiFab) (arr : Array4) (flags : EBCellFlagFab),
        vel_eb (self w') !! lev = Some mf /\ fabs mf !! i = Some arr /\
        getMultiEBCellFlagFab fact !! i = Some flags /\
        (is_covered_or_regular (getType flags bx) = true ->
         forall p, contains bx p = true -> arr p 0%nat = 0%float) /\
        (is_covered_or_regular (getType flags bx) = false ->
         exists nrm : Array4,
           getBndryNormal fact !! i = Some nrm /\
           forall p, contains bx p = true ->
             let theta :=
               atan2 (PrimFloat.opp (nrm p 1%nat)) (PrimFloat.opp (nrm p 0%nat)) in
             arr p 0%nat = PrimFloat.mul _cyl_speed (sin theta) /\
             arr p 1%nat = PrimFloat.mul (PrimFloat.opp _cyl_speed) (cos theta)).
Proof.
  intros Hready Hdisj.
  pose proof (ctor_run sin cos atan2 tiling fresh set_diff_bc pp _amrcore _ebfactory
                bc_ilo bc_ihi bc_jlo bc_jhi bc_klo bc_khi _nghost _cyl_speed w Hready)
    as Hrun.
  unfold triple in Hrun.
  destruct (ctor sin cos atan2 tiling fresh set_diff_bc pp _amrcore _ebfactory
              bc_ilo bc_ihi bc_jlo bc_jhi bc_klo bc_khi _nghost _cyl_speed w)
    as [[] w'| |]; try contradiction.
  exists w'. split; [reflexivity|].
  destruct Hrun as (_ & _ & _ & _ & Hpost).
  intros lev ba fact i bx Hl Hba Hfact Hin.
  destruct (Hpost lev ba fact Hl Hba Hfact) as (_ & _ & HV).
  destruct Hready as (_ & _ & _ & _ & _ & _ & _ & Hlev).
  destruct (Hlev lev Hl) as (ba' & fact' & Hba' & Hfact' & Hok).
  assert (ba' = ba) by congruence. assert (fact' = fact) by congruence. subst ba' fact'.
  rewrite <- (length_MultiFab_new fresh ba 3 _nghost 5 lev) in Hok.
  pose proof (tiles_effect_filled sin cos atan2 _cyl_speed fact _ _ Hok
                (Hdisj lev ba Hl Hba) (i, bx) Hin) as (arr & flags & Harr & Hflags & Hval).
  simpl in Harr, Hflags, Hval.
  eexists _, arr, flags. split; [exact HV|]. split; [exact Harr|]. split; [exact Hflags|].
  destruct (is_covered_or_regular (getType flags bx)).
  - split; [intros _; exact Hval | discriminate].
  - split; [discriminate|]. intros _.
    destruct Hval as (nrm & Hnrm & Hval). exists nrm. split; [exact Hnrm|].
    intros p Hp theta. specialize (Hval p Hp). unfold rotation_velocity in Hval.
    inversion Hval as [[H0 H1]]. subst theta. split; [exact H0 | exact H1].
Qed.

Lemma ex_ctor_ready :
  ctor_ready ex_tiling ex_fresh ex_amrcore ex_ebfactory
             ex_bc ex_bc ex_bc ex_bc ex_bc ex_bc 1.
Proof.
  unfold ctor_ready. repeat (split; [eexists; reflexivity|]).
  intros lev Hl. simpl in Hl. assert (lev = 0%nat) by lia. subst lev.
  eexists _, _. repeat split; reflexivity.
Defined.

Lemma ex_tiles_disjoint (lev : nat) (ba : list Box) :
  Z.of_nat lev <= maxLevel ex_amrcore -> grids ex_amrcore !! lev = Some ba ->
  tiles_disjoint (ex_tiling (MultiFab_new ex_fresh ba 3 1 5 lev)) = true.
Proof. intros _ _. reflexivity. Defined.

(** The theorem on the small mesh (with stand-ins for the math library,
    which the hypotheses do not mention: [sin] and [cos] the identity,
    [atan2 y x = y]): the all-regular second tile holds zero in component
    0, and both cells of the first tile, the cut cell and the regular one,
    hold the rotation formula applied to their normal. *)
Lemma ctor_fills_vel_eb_by_tile_witness :
  exists w',
    ex_ctor (fun x => x) (fun x => x) (fun y _ => y) = Normal tt w' /\
    exists (mf : MultiFab) (arr : Array4),
      vel_eb (self w') !! 0%nat = Some mf /\ fabs mf !! 0%nat = Some arr /\
      (forall p, contains ex_tile2 p = true -> arr p 0%nat = 0%float) /\
      (forall p, contains ex_tile1 p = true ->
         arr p 0%nat = PrimFloat.mul ex_speed (PrimFloat.opp (ex_normal p 1%nat)) /\
         arr p 1%nat =
           PrimFloat.mul (PrimFloat.opp ex_speed) (PrimFloat.opp (ex_normal p 1%nat))).
Proof.
  destruct (ctor_fills_vel_eb_by_tile (fun x => x) (fun x => x) (fun y _ => y)
              ex_tiling ex_fresh ex_set_diff_bc ex_pp ex_amrcore ex_ebfactory
              ex_bc ex_bc ex_bc ex_bc ex_bc ex_bc 1 ex_speed (MkWorld ex_blank [])
              ex_ctor_ready ex_tiles_disjoint) as (w' & Hrun & Hall).
  exists w'. split; [exact Hrun|].
  destruct (Hall 0%nat [ex_box] (MkEBFactory [ex_flags] [ex_normal]) 0%nat ex_tile2)
    as (mf & arr & flags & Hmf & Harr & Hflags & Hreg & _).
  - simpl. lia.
  - reflexivity.
  - reflexivity.
  - apply elem_of_cons. right. apply elem_of_cons. left. reflexivity.
  - destruct (Hall 0%nat [ex_box] (MkEBFactory [ex_flags] [ex_normal]) 0%nat ex_tile1)
      as (mf1 & arr1 & flags1 & Hmf1 & Harr1 & Hflags1 & _ & Hcut).
    + simpl. lia.
    + reflexivity.
    + reflexivity.
    + apply elem_of_cons. left. reflexivity.
    + exists mf, arr. split; [exact Hmf|]. split; [exact Harr|].
      split.
      * apply Hreg. simpl in Hflags. inversion Hflags. reflexivity.
      * assert (mf1 = mf) by congruence. subst mf1.
        assert (arr1 = arr) by congruence. subst arr1.
        destruct Hcut as (nrm & Hnrm & Hval).
        { simpl in Hflags1. inversion Hflags1. reflexivity. }
        simpl in Hnrm. inversion Hnrm. subst nrm.
        intros p Hp. exact (Hval p Hp).
Defined.

(** What the small mesh holds in the regular cell (1,0,0), which shares a
    tile with the cut cell: the rotation formula applied to the cell's
    (zero) normal in components 0 and 1, and the content of the fresh
    memory in component 2. *)
Lemma regular_cell_in_cut_tile_value
    (sin cos : Real -> Real) (atan2 : Real -> Real -> Real) :
  stored_vel_eb (ex_ctor sin cos atan2) 0 0 (1, 0, 0) 0 =
    Some (PrimFloat.mul 2 (sin (atan2 (-0)%float (-0)%float))) /\
  stored_vel_eb (ex_ctor sin cos atan2) 0 0 (1, 0, 0) 1 =
    Some (PrimFloat.mul (-2) (cos (atan2 (-0)%float (-0)%float))) /\
  stored_vel_eb (ex_ctor sin cos atan2) 0 0 (1, 0, 0) 2 = Some 7%float.
Proof. repeat split; vm_compute; reflexivity. Qed.

(** On the small mesh, the all-regular second tile: component 0 of cell
    (2,0,0) is zero; components 1 and 2 hold what the fresh memory held. *)
Lemma regular_tile_value (sin cos : Real -> Real) (atan2 : Real -> Real -> Real) :
  stored_vel_eb (ex_ctor sin cos atan2) 0 0 (2, 0, 0) 0 = Some 0%float /\
  stored_vel_eb (ex_ctor sin cos atan2) 0 0 (2, 0, 0) 1 = Some 7%float /\
  stored_vel_eb (ex_ctor sin cos atan2) 0 0 (2, 0, 0) 2 = Some 7%float.
Proof. repeat split; vm_compute; reflexivity. Qed.

Lemma float_2_ne_0 : 2%float <> 0%float.
Proof.
  intros H. apply (f_equal (fun x => PrimFloat.eqb x 0%float)) in H.
  vm_compute in H. discriminate.
Qed.

(** C2, as stated, fails on the small mesh, in the first two components
    already.  Cell (1,0,0) is regular and shares a tile with the cut cell
    (0,0,0): its normal is zero, so the angle is [atan2(-0, -0)], which the
    C library gives as -pi, where [cos] is -1; with any math library that
    has this value, component 1 of the cell is [-speed * -1 = 2], not 0
    (so it is, for one, with a stand-in whose [cos] is -1 throughout).
    And cell (2,0,0), in the all-regular second tile, has component 0
    zeroed and component 1 as allocated (7), whatever the math library. *)
Lemma regular_cell_in_cut_tile_not_zero :
  ex_flags (1, 0, 0) = cell_regular /\ ex_flags (2, 0, 0) = cell_regular /\
  stored_vel_eb (ex_ctor (fun x => x) (fun _ => (-1)%float) (fun y _ => y))
                0 0 (1, 0, 0) 1 = Some 2%float /\
  (~ exists (sin cos : Real -> Real) (atan2 : Real -> Real -> Real),
       cos (atan2 (-0)%float (-0)%float) = (-1)%float /\
       forall n : nat, (n < 2)%nat ->
         stored_vel_eb (ex_ctor sin cos atan2) 0 0 (1, 0, 0) n = Some 0%float) /\
  (~ exists (sin cos : Real -> Real) (atan2 : Real -> Real -> Real),
       forall n : nat, (n < 2)%nat ->
         stored_vel_eb (ex_ctor sin cos atan2) 0 0 (2, 0, 0) n = Some 0%float).
Proof.
  split; [reflexivity|]. split; [reflexivity|].
  split; [vm_compute; reflexivity|]. split.
  - intros (sin & cos & atan2 & Hcos & H).
    specialize (H 1%nat ltac:(lia)).
    destruct (regular_cell_in_cut_tile_value sin cos atan2) as (_ & H1 & _).
    rewrite H1, Hcos in H.
    apply float_2_ne_0. apply (f_equal (fun o => default 0%float o)) in H.
    vm_compute in H. exact H.
  - intros (sin & cos & atan2 & H).
    specialize (H 1%nat ltac:(lia)).
    destruct (regular_tile_value sin cos atan2) as (_ & H1 & _).
    rewrite H1 in H. apply float_7_ne_0. congruence.
Qed.

(** C3 on the small mesh.  In the cut cell (0,0,0), whose normal is
    (-1, 0), components 0 and 1 are [speed * sin theta] and
    [-speed * cos theta] with [theta = atan2(-ny, -nx)]; component 2 is
    not assigned: it still holds what the fresh memory held (7), not 0. *)
Theorem cut_cell_third_component_not_set
    (sin cos : Real -> Real) (atan2 : Real -> Real -> Real) :
  ex_flags (0, 0, 0) = cell_single_valued /\
  stored_vel_eb (ex_ctor sin cos atan2) 0 0 (0, 0, 0) 0 =
    Some (PrimFloat.mul ex_speed (sin (atan2 (PrimFloat.opp 0) (PrimFloat.opp (-1))))) /\
  stored_vel_eb (ex_ctor sin cos atan2) 0 0 (0, 0, 0) 1 =
    Some (PrimFloat.mul (PrimFloat.opp ex_speed)
            (cos (atan2 (PrimFloat.opp 0) (PrimFloat.opp (-1))))) /\
  stored_vel_eb (ex_ctor sin cos atan2) 0 0 (0, 0, 0) 2 = Some 7%float /\
  stored_vel_eb (ex_ctor sin cos atan2) 0 0 (0, 0, 0) 2 <> Some 0%float.
Proof.
  split; [reflexivity|]. split; [vm_compute; reflexivity|].
  split; [vm_compute; reflexivity|]. split; [vm_compute; reflexivity|].
  vm_compute. intros H. apply float_7_ne_0. congruence.
Qed.

(** * The coefficients of the operator *)

(** The face coefficients lines 193-195 compute for one level. *)
Definition refreshed_b (geom : Geometry) (eta : MultiFab) (blev : Array3 MultiFab)
    : Array3 MultiFab :=
  for_dirs (fun dir m => FillBoundary m (periodicity geom))
           (average_cellcenter_to_face blev eta geom).

Definition is_coeff_event (e : Event) : Prop :=
  match e with
  | EvSetACoeffs _ _ | EvSetShearViscosity _ _ | EvSetEBShearViscosity _ _ => True
  | _ => False
  end.

(** The parts of the operator that [solve] never sets. *)
Definition op_base_kept (M M0 : LinOp) : Prop :=
  op_defined M = op_defined M0 /\
  op_max_coarsening_level M = op_max_coarsening_level M0 /\
  op_max_order M = op_max_order M0 /\ op_domain_bc M = op_domain_bc M0.

(** These, and the condition on the embedded surface. *)
Definition op_setup_kept (M M0 : LinOp) : Prop :=
  op_defined M = op_defined M0 /\
  op_max_coarsening_level M = op_max_coarsening_level M0 /\
  op_max_order M = op_max_order M0 /\ op_domain_bc M = op_domain_bc M0 /\
  op_eb_dirichlet M = op_eb_dirichlet M0.

Lemma upd_eq {A : Type} (f : nat -> option A) (lev : nat) (x : A) :
  upd f lev x lev = Some x.
Proof. unfold upd. rewrite Nat.eqb_refl. reflexivity. Qed.

Lemma upd_ne {A : Type} (f : nat -> option A) (lev l : nat) (x : A) :
  l <> lev -> upd f lev x l = f l.
Proof. intros H. unfold upd. apply Nat.eqb_neq in H. rewrite H. reflexivity. Qed.

(** The levels [solve] visits have what the loops index. *)
Definition solve_ready (vel_in ro_in eta_in : list MultiFab) (o : DiffusionEquation)
    : Prop :=
  forall lev : nat, Z.of_nat lev <= finestLevel (amrcore o) ->
    is_Some (b o !! lev) /\ is_Some (phi o !! lev) /\ is_Some (rhs o !! lev) /\
    is_Some (Geom (amrcore o) !! lev) /\
    is_Some (vel_in !! lev) /\ is_Some (ro_in !! lev) /\ is_Some (eta_in !! lev).

(** What the coefficient loop indexes. *)
Definition refresh_ready (ro_in eta_in : list MultiFab) (o : DiffusionEquation) : Prop :=
  forall lev : nat, Z.of_nat lev <= finestLevel (amrcore o) ->
    is_Some (b o !! lev) /\ is_Some (Geom (amrcore o) !! lev) /\
    is_Some (ro_in !! lev) /\ is_Some (eta_in !! lev).

Lemma solve_ready_refresh (vel_in ro_in eta_in : list MultiFab) (o : DiffusionEquation) :
  solve_ready vel_in ro_in eta_in o -> refresh_ready ro_in eta_in o.
Proof.
  intros H lev Hlev. destruct (H lev Hlev) as (H1 & _ & _ & H4 & _ & H6 & H7). auto.
Qed.

Definition refresh_post (ro_in eta_in : list MultiFab) (dt : Real) (w w' : World)
    : Prop :=
  exists (B : list (Array3 MultiFab)) (M : LinOp) (evs : list Event),
    self w' = set_b B (set_matrix M (self w)) /\
    out w' = out w ++ EvSetScalars 1%float dt :: evs /\
    Forall is_coeff_event evs /\
    length B = length (b (self w)) /\
    op_scalars M = Some (1%float, dt) /\
    op_base_kept M (matrix (self w)) /\
    op_level_bc M = op_level_bc (matrix (self w)) /\
    (forall lev : nat, finestLevel (amrcore (self w)) < Z.of_nat lev ->
       B !! lev = b (self w) !! lev /\
       op_acoeffs M lev = op_acoeffs (matrix (self w)) lev /\
       op_shear_viscosity M lev = op_shear_viscosity (matrix (self w)) lev /\
       op_eb_shear_viscosity M lev = op_eb_shear_viscosity (matrix (self w)) lev /\
       op_eb_dirichlet M lev = op_eb_dirichlet (matrix (self w)) lev) /\
    (forall (lev : nat) blev eta geom ro,
       Z.of_nat lev <= finestLevel (amrcore (self w)) ->
       b (self w) !! lev = Some blev -> eta_in !! lev = Some eta ->
       Geom (amrcore (self w)) !! lev = Some geom -> ro_in !! lev = Some ro ->
       B !! lev = Some (refreshed_b geom eta blev) /\
       op_acoeffs M lev = Some ro /\
       op_shear_viscosity M lev = Some (refreshed_b geom eta blev) /\
       op_eb_shear_viscosity M lev = Some eta /\
       op_eb_dirichlet M lev = Some (None, eta)).

Lemma refresh_coefficients_run (ro_in eta_in : list MultiFab) (dt : Real)
    (w : World) :
  refresh_ready ro_in eta_in (self w) ->
  triple (refresh_coefficients ro_in eta_in dt) w
         (fun _ w' => refresh_post ro_in eta_in dt w w') (fun _ => False) False.
Proof.
  intros Hready. unfold refresh_coefficients, levels_upto, for_.
  do 4 tstep. onorm.
  remember (Z.to_nat (finestLevel (amrcore (self w)) + 1)) as N eqn:HN.
  pose (Inv := fun (k : nat) (_ : unit) (w' : World) =>
    exists (B : list (Array3 MultiFab)) (M : LinOp) (evs : list Event),
      self w' = set_b B (set_matrix M (self w)) /\
      out w' = out w ++ EvSetScalars 1%float dt :: evs /\
      Forall is_coeff_event evs /\
      length B = length (b (self w)) /\
      op_scalars M = Some (1%float, dt) /\
      op_base_kept M (matrix (self w)) /\
      op_level_bc M = op_level_bc (matrix (self w)) /\
      (forall lev : nat, (k <= lev)%nat ->
         B !! lev = b (self w) !! lev /\
         op_acoeffs M lev = op_acoeffs (matrix (self w)) lev /\
         op_shear_viscosity M lev = op_shear_viscosity (matrix (self w)) lev /\
         op_eb_shear_viscosity M lev = op_eb_shear_viscosity (matrix (self w)) lev /\
         op_eb_dirichlet M lev = op_eb_dirichlet (matrix (self w)) lev) /\
      (forall (lev : nat) blev eta geom ro,
         (lev < k)%nat ->
         b (self w) !! lev = Some blev -> eta_in !! lev = Some eta ->
         Geom (amrcore (self w)) !! lev = Some geom -> ro_in !! lev = Some ro ->
         B !! lev = Some (refreshed_b geom eta blev) /\
         op_acoeffs M lev = Some ro /\
         op_shear_viscosity M lev = Some (refreshed_b geom eta blev) /\
         op_eb_shear_viscosity M lev = Some eta /\
         op_eb_dirichlet M lev = Some (None, eta))).
  eapply triple_conseq;
    [apply (triple_for_levels N _ Inv (fun _ => False) False) | | auto].
  - exists (b (self w)), (LinOp_setScalars 1%float dt (matrix (self w))), [].
    split; [symmetry; apply (set_b_id (set_matrix _ (self w)))|].
    split; [reflexivity|]. split; [constructor|]. split; [reflexivity|].
    split; [reflexivity|]. split; [repeat split|]. split; [reflexivity|].
    split; [intros; repeat split | intros; lia].
  - intros i [] w1 Hi (B & M & evs & Hself & Hout & Hevs & HlB & Hsc & Hkept & Hbc
                        & Hrest & Hdone).
    destruct (Hready i) as ([blev Hb] & [geom Hgeom] & [ro Hro] & [eta Heta]); [lia|].
    destruct w1 as [o1 out1]. cbn [self out] in Hself, Hout. subst o1 out1.
    assert (HB : B !! i = Some blev)
      by (destruct (Hrest i) as (-> & _); [lia | exact Hb]).
    cbv zeta. repeat tstep. onorm.
    exists (<[i := refreshed_b geom eta blev]> B),
      (LinOp_setEBShearViscosity i eta
         (LinOp_setShearViscosity i (refreshed_b geom eta blev)
            (LinOp_setACoeffs i ro M))),
      (evs ++ [EvSetACoeffs i ro; EvSetShearViscosity i (refreshed_b geom eta blev);
               EvSetEBShearViscosity i eta]).
    split; [reflexivity|].
    split; [rewrite <- !app_assoc; reflexivity|].
    split; [apply Forall_app; split; [exact Hevs | repeat constructor]|].
    split; [rewrite length_insert; exact HlB|].
    split; [exact Hsc|]. split; [exact Hkept|]. split; [exact Hbc|].
    split.
    + intros lev Hlev. destruct (Hrest lev) as (H1 & H2 & H3 & H4 & H5); [lia|].
      rewrite list_lookup_insert_ne by lia. cbn.
      rewrite !upd_ne by lia. repeat split; assumption.
    + intros lev blev' eta' geom' ro' Hlev Hb' Heta' Hgeom' Hro'.
      destruct (decide (lev = i)) as [->|NE].
      * assert (blev' = blev) by congruence. assert (eta' = eta) by congruence.
        assert (geom' = geom) by congruence. assert (ro' = ro) by congruence.
        subst. rewrite list_lookup_insert_eq by (rewrite HlB; apply lookup_lt_is_Some; eauto).
        cbn. rewrite !upd_eq. repeat split; reflexivity.
      * rewrite list_lookup_insert_ne by congruence. cbn. rewrite !upd_ne by congruence.
        apply Hdone; auto. lia.
  - intros [] w' (B & M & evs & Hself & Hout & Hevs & HlB & Hsc & Hkept & Hbc
                    & Hrest & Hdone).
    exists B, M, evs. do 7 (split; [assumption|]). split.
    + intros lev Hlev. apply Hrest. lia.
    + intros lev blev eta geom ro Hlev. apply Hdone. lia.
Qed.

(** * Right-hand side, initial guess and level boundary data *)

(** Lines 211-219 for one level. *)
Definition rhs_of (r v ro : MultiFab) : MultiFab :=
  foldl (fun r i => MultiFab_Multiply r ro 0 i 1 (nGrow r))
        (MultiFab_Copy r v 0 0 AMREX_SPACEDIM 0) (seq 0 3).

(** Lines 222-223 for one level. *)
Definition guess_of (geom : Geometry) (ph v : MultiFab) : MultiFab :=
  FillBoundary (MultiFab_Copy ph v 0 0 AMREX_SPACEDIM 1) (periodicity geom).

Definition is_levelbc_event (e : Event) : Prop :=
  match e with EvSetLevelBC _ _ => True | _ => False end.

Definition build_post (vel_in ro_in : list MultiFab) (w w' : World) : Prop :=
  exists (R P : list MultiFab) (M : LinOp) (evs : list Event),
    self w' = set_rhs R (set_phi P (set_matrix M (self w))) /\
    out w' = out w ++ evs /\
    Forall is_levelbc_event evs /\
    length R = length (rhs (self w)) /\ length P = length (phi (self w)) /\
    op_scalars M = op_scalars (matrix (self w)) /\
    op_setup_kept M (matrix (self w)) /\
    op_acoeffs M = op_acoeffs (matrix (self w)) /\
    op_shear_viscosity M = op_shear_viscosity (matrix (self w)) /\
    op_eb_shear_viscosity M = op_eb_shear_viscosity (matrix (self w)) /\
    (forall lev : nat, finestLevel (amrcore (self w)) < Z.of_nat lev ->
       R !! lev = rhs (self w) !! lev /\ P !! lev = phi (self w) !! lev /\
       op_level_bc M lev = op_level_bc (matrix (self w)) lev) /\
    (forall (lev : nat) r v ro ph geom,
       Z.of_nat lev <= finestLevel (amrcore (self w)) ->
       rhs (self w) !! lev = Some r -> vel_in !! lev = Some v ->
       ro_in !! lev = Some ro -> phi (self w) !! lev = Some ph ->
       Geom (amrcore (self w)) !! lev = Some geom ->
       R !! lev = Some (rhs_of r v ro) /\
       P !! lev = Some (guess_of geom ph v) /\
       op_level_bc M lev = Some (guess_of geom ph v)).

Lemma build_rhs_run (vel_in ro_in eta_in : list MultiFab) (w : World) :
  solve_ready vel_in ro_in eta_in (self w) ->
  triple (build_rhs vel_in ro_in) w
         (fun _ w' => build_post vel_in ro_in w w') (fun _ => False) False.
Proof.
  intros Hready. unfold build_rhs, levels_upto, for_.
  do 2 tstep.
  remember (Z.to_nat (finestLevel (amrcore (self w)) + 1)) as N eqn:HN.
  pose (Inv := fun (k : nat) (_ : unit) (w' : World) =>
    exists (R P : list MultiFab) (M : LinOp) (evs : list Event),
      self w' = set_rhs R (set_phi P (set_matrix M (self w))) /\
      out w' = out w ++ evs /\
      Forall is_levelbc_event evs /\
      length R = length (rhs (self w)) /\ length P = length (phi (self w)) /\
      op_scalars M = op_scalars (matrix (self w)) /\
      op_setup_kept M (matrix (self w)) /\
      op_acoeffs M = op_acoeffs (matrix (self w)) /\
      op_shear_viscosity M = op_shear_viscosity (matrix (self w)) /\
      op_eb_shear_viscosity M = op_eb_shear_viscosity (matrix (self w)) /\
      (forall lev : nat, (k <= lev)%nat ->
         R !! lev = rhs (self w) !! lev /\ P !! lev = phi (self w) !! lev /\
         op_level_bc M lev = op_level_bc (matrix (self w)) lev) /\
      (forall (lev : nat) r v ro ph geom,
         (lev < k)%nat ->
         rhs (self w) !! lev = Some r -> vel_in !! lev = Some v ->
         ro_in !! lev = Some ro -> phi (self w) !! lev = Some ph ->
         Geom (amrcore (self w)) !! lev = Some geom ->
         R !! lev = Some (rhs_of r v ro) /\
         P !! lev = Some (guess_of geom ph v) /\
         op_level_bc M lev = Some (guess_of geom ph v))).
  eapply triple_conseq;
    [apply (triple_for_levels N _ Inv (fun _ => False) False) | | auto].
  - exists (rhs (self w)), (phi (self w)), (matrix (self w)), [].
    split; [rewrite set_matrix_id, set_phi_id, set_rhs_id; reflexivity|].
    split; [rewrite app_nil_r; reflexivity|]. split; [constructor|].
    do 2 (split; [reflexivity|]). split; [reflexivity|]. split; [repeat split|].
    do 3 (split; [reflexivity|]).
    split; [intros; repeat split | intros; lia].
  - intros i [] w1 Hi (R & P & M & evs & Hself & Hout & Hevs & HlR & HlP & Hsc & Hkept
                        & Ha & Hs & He & Hrest & Hdone).
    destruct (Hready i) as (_ & [ph Hph] & [r Hr] & [geom Hgeom] & [v Hv] & [ro Hro] & _);
      [lia|].
    destruct w1 as [o1 out1]. cbn [self out] in Hself, Hout. subst o1 out1.
    destruct (Hrest i) as (HRi & HPi & _); [lia|].
    rewrite Hr in HRi. rewrite Hph in HPi.
    cbv zeta. repeat tstep. onorm.
    exists (<[i := rhs_of r v ro]> R), (<[i := guess_of geom ph v]> P),
      (LinOp_setLevelBC i (guess_of geom ph v) M),
      (evs ++ [EvSetLevelBC i (guess_of geom ph v)]).
    split; [reflexivity|].
    split; [rewrite <- !app_assoc; reflexivity|].
    split; [apply Forall_app; split; [exact Hevs | repeat constructor]|].
    split; [rewrite length_insert; exact HlR|].
    split; [rewrite length_insert; exact HlP|].
    split; [exact Hsc|]. split; [exact Hkept|].
    split; [exact Ha|]. split; [exact Hs|]. split; [exact He|].
    split.
    + intros lev Hlev. destruct (Hrest lev) as (H1 & H2 & H3); [lia|].
      rewrite !list_lookup_insert_ne by lia. cbn. rewrite upd_ne by lia. auto.
    + intros lev r' v' ro' ph' geom' Hlev Hr' Hv' Hro' Hph' Hgeom'.
      destruct (decide (lev = i)) as [->|NE].
      * assert (r' = r) by congruence. assert (v' = v) by congruence.
        assert (ro' = ro) by congruence. assert (ph' = ph) by congruence.
        assert (geom' = geom) by congruence. subst.
        rewrite list_lookup_insert_eq by (apply lookup_lt_is_Some; eauto).
        rewrite list_lookup_insert_eq by (apply lookup_lt_is_Some; eauto).
        cbn. rewrite upd_eq. auto.
      * rewrite !list_lookup_insert_ne by congruence. cbn. rewrite upd_ne by congruence.
        apply (Hdone lev r' v' ro' ph' geom'); auto. lia.
  - intros [] w' (R & P & M & evs & Hself & Hout & Hevs & HlR & HlP & Hsc & Hkept
                    & Ha & Hs & He & Hrest & Hdone).
    exists R, P, M, evs. do 10 (split; [assumption|]). split.
    + intros lev Hlev. apply Hrest. lia.
    + intros lev r v ro ph geom Hlev. apply Hdone. lia.
Qed.

(** * Back into the caller's velocity *)

Definition copy_post (vel_in : list MultiFab) (w : World) (vel' : list MultiFab)
    (w' : World) : Prop :=
  exists P : list MultiFab,
    self w' = set_phi P (self w) /\ out w' = out w /\
    length P = length (phi (self w)) /\ length vel' = length vel_in /\
    (forall lev : nat, finestLevel (amrcore (self w)) < Z.of_nat lev ->
       P !! lev = phi (self w) !! lev /\ vel' !! lev = vel_in !! lev) /\
    (forall (lev : nat) ph geom v,
       Z.of_nat lev <= finestLevel (amrcore (self w)) ->
       phi (self w) !! lev = Some ph -> Geom (amrcore (self w)) !! lev = Some geom ->
       vel_in !! lev = Some v ->
       P !! lev = Some (FillBoundary ph (periodicity geom)) /\
       vel' !! lev =
         Some (MultiFab_Copy v (FillBoundary ph (periodicity geom)) 0 0 AMREX_SPACEDIM 1)).

Lemma copy_back_run (vel_in : list MultiFab) (w : World) :
  (forall lev : nat, Z.of_nat lev <= finestLevel (amrcore (self w)) ->
     is_Some (phi (self w) !! lev) /\ is_Some (Geom (amrcore (self w)) !! lev) /\
     is_Some (vel_in !! lev)) ->
  triple (copy_back vel_in) w (copy_post vel_in w) (fun _ => False) False.
Proof.
  intros Hready. unfold copy_back, levels_upto.
  do 2 tstep.
  remember (Z.to_nat (finestLevel (amrcore (self w)) + 1)) as N eqn:HN.
  pose (Inv := fun (k : nat) (vel' : list MultiFab) (w' : World) =>
    exists P : list MultiFab,
      self w' = set_phi P (self w) /\ out w' = out w /\
      length P = length (phi (self w)) /\ length vel' = length vel_in /\
      (forall lev : nat, (k <= lev)%nat ->
         P !! lev = phi (self w) !! lev /\ vel' !! lev = vel_in !! lev) /\
      (forall (lev : nat) ph geom v,
         (lev < k)%nat ->
         phi (self w) !! lev = Some ph -> Geom (amrcore (self w)) !! lev = Some geom ->
         vel_in !! lev = Some v ->
         P !! lev = Some (FillBoundary ph (periodicity geom)) /\
         vel' !! lev =
           Some (MultiFab_Copy v (FillBoundary ph (periodicity geom)) 0 0
                   AMREX_SPACEDIM 1))).
  eapply triple_conseq;
    [apply (triple_for_levels N _ Inv (fun _ => False) False) | | auto].
  - exists (phi (self w)). rewrite set_phi_id.
    do 4 (split; [reflexivity|]). split; [intros; split; reflexivity | intros; lia].
  - intros i vel w1 Hi (P & Hself & Hout & HlP & Hlv & Hrest & Hdone).
    destruct (Hready i) as ([ph Hph] & [geom Hgeom] & [v Hv]); [lia|].
    destruct w1 as [o1 out1]. cbn [self out] in Hself, Hout. subst o1 out1.
    destruct (Hrest i) as (HPi & Hvi); [lia|].
    rewrite Hph in HPi. rewrite Hv in Hvi.
    cbv zeta. repeat tstep. onorm.
    exists (<[i := FillBoundary ph (periodicity geom)]> P).
    split; [reflexivity|]. split; [reflexivity|].
    split; [rewrite length_insert; exact HlP|].
    split; [rewrite length_insert; exact Hlv|].
    split.
    + intros lev Hlev. destruct (Hrest lev) as (H1 & H2); [lia|].
      rewrite !list_lookup_insert_ne by lia. auto.
    + intros lev ph' geom' v' Hlev Hph' Hgeom' Hv'.
      destruct (decide (lev = i)) as [->|NE].
      * assert (ph' = ph) by congruence. assert (geom' = geom) by congruence.
        assert (v' = v) by congruence. subst.
        rewrite list_lookup_insert_eq by (apply lookup_lt_is_Some; eauto).
        rewrite list_lookup_insert_eq by (apply lookup_lt_is_Some; eauto).
        auto.
      * rewrite !list_lookup_insert_ne by congruence.
        apply (Hdone lev ph' geom' v'); auto. lia.
  - intros vel' w' (P & Hself & Hout & HlP & Hlv & Hrest & Hdone).
    exists P. do 4 (split; [assumption|]). split.
    + intros lev Hlev. apply Hrest. lia.
    + intros lev ph geom v Hlev. apply Hdone. lia.
Qed.

(** * solve, end to end *)

Lemma triple_when_print (c : bool) (msg : string) w Q Qa Qu :
  Q tt (MkWorld (self w) (out w ++ (if c then [EvPrint msg] else []))) ->
  triple (when c (amrex_Print msg)) w Q Qa Qu.
Proof.
  destruct c; simpl; [exact id|].
  rewrite app_nil_r, world_eta. exact id.
Qed.

Lemma solve_ready_frame (vel_in ro_in eta_in : list MultiFab)
    (o o' : DiffusionEquation) :
  solve_ready vel_in ro_in eta_in o ->
  amrcore o' = amrcore o -> length (b o') = length (b o) ->
  length (phi o') = length (phi o) -> length (rhs o') = length (rhs o) ->
  solve_ready vel_in ro_in eta_in o'.
Proof.
  intros H Ha Hb Hp Hr lev Hlev. rewrite Ha in *.
  destruct (H lev Hlev) as (H1 & H2 & H3 & H4 & H5 & H6 & H7).
  repeat split; try assumption.
  - apply lookup_lt_is_Some. rewrite Hb. apply lookup_lt_is_Some. exact H1.
  - apply lookup_lt_is_Some. rewrite Hp. apply lookup_lt_is_Some. exact H2.
  - apply lookup_lt_is_Some. rewrite Hr. apply lookup_lt_is_Some. exact H3.
Qed.

Lemma length_store_solution (phi_ : list MultiFab) (sol : list (list Array4)) :
  length (store_solution phi_ sol) = length phi_.
Proof. unfold store_solution. apply length_imap. Qed.

Section Solve.

Variable MLMG_ctor : LinOp -> MLMG.
Variable MLMG_solve :
  LinOp -> MLMG -> list MultiFab -> list MultiFab -> Real -> Real ->
  option (list (list Array4)).

(** The solver [solve] builds on an object, the call it makes and what the
    call returns (lines 243-249). *)
Definition solver_of (o : DiffusionEquation) : MLMG :=
  setFinalFillBC true (setSolverSettings o (MLMG_ctor (matrix o))).

Definition solver_call (o : DiffusionEquation) : Event :=
  EvMLMGSolve (matrix o) (solver_of o) (phi o) (rhs o) (mg_rtol o) (mg_atol o).

Definition solver_result (o : DiffusionEquation) : option (list (list Array4)) :=
  MLMG_solve (matrix o) (solver_of o) (phi o) (rhs o) (mg_rtol o) (mg_atol o).

Definition print_if (c : bool) (msg : string) : list Event :=
  if c then [EvPrint msg] else [].

(** [w2] is the world in which [solve], called on [w], calls the solver. *)
Definition prepared (vel_in ro_in eta_in : list MultiFab) (dt : Real) (w w2 : World)
    : Prop :=
  exists w1 : World,
    refresh_post ro_in eta_in dt w w1 /\
    build_post vel_in ro_in
      (MkWorld (self w1)
         (out w1 ++ print_if (0 <? verbose (self w1))
                             "Diffusing velocity components all together..."))
      w2.

(** [w3] is the world after the solver has left [sol] in [phi]. *)
Definition solved (w2 : World) (sol : list (list Array4)) : World :=
  MkWorld (set_phi (store_solution (phi (self w2)) sol) (self w2))
          (out w2 ++ [solver_call (self w2)]).

Definition solve_returns (vel_in ro_in eta_in : list MultiFab) (dt : Real)
    (w : World) (vel' : list MultiFab) (w' : World) : Prop :=
  exists (w2 : World) (sol : list (list Array4)) (w3 : World),
    prepared vel_in ro_in eta_in dt w w2 /\
    solver_result (self w2) = Some sol /\
    copy_post vel_in (solved w2 sol) vel' w3 /\
    self w' = self w3 /\
    out w' = out w3 ++ print_if (0 <? verbose (self w3)) " done!".

Definition solve_aborts (vel_in ro_in eta_in : list MultiFab) (dt : Real)
    (w : World) (w' : World) : Prop :=
  exists w2 : World,
    prepared vel_in ro_in eta_in dt w w2 /\
    solver_result (self w2) = None /\
    w' = MkWorld (self w2) (out w2 ++ [solver_call (self w2)]).

Lemma prepared_frame vel_in ro_in eta_in dt w w2 :
  prepared vel_in ro_in eta_in dt w w2 ->
  amrcore (self w2) = amrcore (self w) /\
  length (phi (self w2)) = length (phi (self w)) /\
  verbose (self w2) = verbose (self w).
Proof.
  intros (w1 & (B & M & evs & Hs1 & _) & (R & P & M' & evs' & Hs2 & _ & _ & _ & HlP & _)).
  cbn [self] in Hs2, HlP. rewrite Hs2, Hs1. rewrite Hs1 in HlP. onorm. auto.
Qed.

(** [solve] never has undefined behaviour on a ready object: it returns
    after the solver returned, or aborts when the solver gave up. *)
Lemma solve_run (vel_in ro_in eta_in : list MultiFab) (dt : Real) (w : World) :
  solve_ready vel_in ro_in eta_in (self w) ->
  triple (solve MLMG_ctor MLMG_solve vel_in ro_in eta_in dt) w
         (solve_returns vel_in ro_in eta_in dt w)
         (solve_aborts vel_in ro_in eta_in dt w) False.
Proof.
  intros Hready. unfold solve.
  tstep. eapply triple_conseq;
    [apply (refresh_coefficients_run ro_in eta_in dt w
              (solve_ready_refresh _ _ _ _ Hready)) | | intros ? []].
  intros [] w1 Hpost1. cbv beta.
  assert (Hready1 : solve_ready vel_in ro_in eta_in (self w1)).
  { destruct Hpost1 as (B & M & evs & Hs1 & _ & _ & HlB & _).
    eapply solve_ready_frame; [exact Hready | rewrite Hs1; reflexivity
                              | rewrite Hs1; exact HlB | rewrite Hs1; reflexivity
                              | rewrite Hs1; reflexivity]. }
  do 3 tstep. apply triple_when_print.
  tstep. eapply triple_conseq;
    [apply (build_rhs_run vel_in ro_in eta_in (MkWorld (self w1) _) Hready1)
    | | intros ? []].
  intros [] w2 Hpost2. cbv beta.
  assert (Hprep : prepared vel_in ro_in eta_in dt w w2) by (exists w1; auto).
  destruct (prepared_frame _ _ _ _ _ _ Hprep) as (Ham & Hlp & Hverb).
  tstep. unfold run_solver. do 4 tstep. cbn [self out].
  fold (solver_of (self w2)). fold (solver_result (self w2)).
  fold (solver_call (self w2)).
  destruct (solver_result (self w2)) as [sol|] eqn:Hsol.
  - tstep. cbn [self out]. fold (solved w2 sol). tstep.
    eapply triple_conseq; [apply (copy_back_run vel_in (solved w2 sol)) | | intros ? []].
    + intros lev Hlev. unfold solved in *. onorm. rewrite Ham in *.
      destruct (Hready lev Hlev) as (_ & Hphi & _ & Hgeom & Hvel & _).
      repeat split; try assumption.
      apply lookup_lt_is_Some. rewrite length_store_solution, Hlp.
      apply lookup_lt_is_Some. exact Hphi.
    + intros vel' w3 Hpost3. cbv beta. do 3 tstep. apply triple_when_print. tstep.
      exists w2, sol, w3. repeat split; auto.
  - unfold triple, amrex_Abort. exists w2. repeat split; auto.
Qed.

End Solve.

(** * Patch-wise facts about the AMReX operations *)

Lemma fabs_on_patches (k : Box -> Array4 -> Array4 -> Array4) (dst src : MultiFab)
    (nghost : Z) (i : nat) :
  fabs (on_patches k dst src nghost) !! i =
  (fun d => match boxArray dst !! i, fabs src !! i with
            | Some bx, Some s => k (grow bx nghost) s d
            | _, _ => d
            end) <$> fabs dst !! i.
Proof. unfold on_patches. simpl. apply list_lookup_imap. Qed.

Lemma MultiFab_Copy_layout dst src sc dc nc ng :
  boxArray (MultiFab_Copy dst src sc dc nc ng) = boxArray dst /\
  nGrow (MultiFab_Copy dst src sc dc nc ng) = nGrow dst /\
  length (fabs (MultiFab_Copy dst src sc dc nc ng)) = length (fabs dst).
Proof.
  unfold MultiFab_Copy, on_patches. simpl. rewrite length_imap. auto.
Qed.

Lemma MultiFab_Multiply_layout dst src sc dc nc ng :
  boxArray (MultiFab_Multiply dst src sc dc nc ng) = boxArray dst /\
  nGrow (MultiFab_Multiply dst src sc dc nc ng) = nGrow dst /\
  length (fabs (MultiFab_Multiply dst src sc dc nc ng)) = length (fabs dst).
Proof.
  unfold MultiFab_Multiply, on_patches. simpl. rewrite length_imap. auto.
Qed.

Lemma FillBoundary_layout mf per :
  boxArray (FillBoundary mf per) = boxArray mf /\
  nGrow (FillBoundary mf per) = nGrow mf /\
  length (fabs (FillBoundary mf per)) = length (fabs mf).
Proof. unfold FillBoundary. simpl. rewrite length_imap. auto. Qed.

(** [MultiFab::Copy], patch by patch. *)
Lemma MultiFab_Copy_patch dst src sc dc nc ng i bx (d s : Array4) :
  boxArray dst !! i = Some bx -> fabs dst !! i = Some d -> fabs src !! i = Some s ->
  fabs (MultiFab_Copy dst src sc dc nc ng) !! i =
  Some (fab_copy (grow bx ng) s sc dc nc d).
Proof.
  intros Hbx Hd Hs. unfold MultiFab_Copy. rewrite fabs_on_patches, Hd, Hbx, Hs.
  reflexivity.
Qed.

Lemma MultiFab_Multiply_patch dst src sc dc nc ng i bx (d s : Array4) :
  boxArray dst !! i = Some bx -> fabs dst !! i = Some d -> fabs src !! i = Some s ->
  fabs (MultiFab_Multiply dst src sc dc nc ng) !! i =
  Some (fab_mult (grow bx ng) s sc dc nc d).
Proof.
  intros Hbx Hd Hs. unfold MultiFab_Multiply. rewrite fabs_on_patches, Hd, Hbx, Hs.
  reflexivity.
Qed.

(** The right-hand side of one level, patch by patch: on the valid box,
    each of the three components is the velocity times the density. *)
Lemma rhs_of_patch (r v ro : MultiFab) (i : nat) (bx : Box) (rarr varr roarr : Array4) :
  0 <= nGrow r ->
  boxArray r !! i = Some bx -> fabs r !! i = Some rarr ->
  fabs v !! i = Some varr -> fabs ro !! i = Some roarr ->
  exists arr : Array4,
    fabs (rhs_of r v ro) !! i = Some arr /\
    forall (p : IntVect) (c : nat), contains bx p = true -> (c < 3)%nat ->
      arr p c = PrimFloat.mul (varr p c) (roarr p 0%nat).
Proof.
  intros Hg Hbx Hr Hv Hro. unfold rhs_of. cbn [foldl seq].
  set (r0 := MultiFab_Copy r v 0 0 AMREX_SPACEDIM 0).
  destruct (MultiFab_Copy_layout r v 0 0 AMREX_SPACEDIM 0) as (Hb0 & Hg0 & _).
  fold r0 in Hb0, Hg0.
  pose proof (MultiFab_Copy_patch r v 0 0 AMREX_SPACEDIM 0 i bx rarr varr Hbx Hr Hv) as H0.
  fold r0 in H0.
  set (r1 := MultiFab_Multiply r0 ro 0 0 1 (nGrow r0)).
  destruct (MultiFab_Multiply_layout r0 ro 0 0 1 (nGrow r0)) as (Hb1 & Hg1 & _).
  fold r1 in Hb1, Hg1.
  pose proof (MultiFab_Multiply_patch r0 ro 0 0 1 (nGrow r0) i bx _ roarr
                ltac:(rewrite Hb0; exact Hbx) H0 Hro) as H1.
  fold r1 in H1.
  set (r2 := MultiFab_Multiply r1 ro 0 1 1 (nGrow r1)).
  destruct (MultiFab_Multiply_layout r1 ro 0 1 1 (nGrow r1)) as (Hb2 & Hg2 & _).
  fold r2 in Hb2, Hg2.
  pose proof (MultiFab_Multiply_patch r1 ro 0 1 1 (nGrow r1) i bx _ roarr
                ltac:(rewrite Hb1, Hb0; exact Hbx) H1 Hro) as H2.
  fold r2 in H2.
  pose proof (MultiFab_Multiply_patch r2 ro 0 2 1 (nGrow r2) i bx _ roarr
                ltac:(rewrite Hb2, Hb1, Hb0; exact Hbx) H2 Hro) as H3.
  eexists. split; [exact H3|].
  intros p c Hp Hc.
  assert (Hin : contains (grow bx (nGrow r)) p = true) by (apply contains_grow; auto).
  rewrite Hg2, Hg1, Hg0. unfold fab_mult, fab_copy, in_comps, AMREX_SPACEDIM.
  rewrite Hin, grow_0, Hp.
  destruct c as [|[|[|c]]]; [reflexivity | reflexivity | reflexivity | lia].
Qed.

(** * What [solve] hands to the solver *)

Definition is_set_scalars (e : Event) : bool :=
  match e with EvSetScalars _ _ => true | _ => false end.

Definition is_eb_dirichlet (e : Event) : bool :=
  match e with
  | EvSetEBDirichlet _ _ _ | EvSetEBHomogDirichlet _ _ => true
  | _ => false
  end.

Definition is_solver_call (e : Event) : bool :=
  match e with EvMLMGSolve _ _ _ _ _ _ => true | _ => false end.

(** Events that are none of the three kinds above. *)
Definition plain (evs : list Event) : Prop :=
  List.filter is_set_scalars evs = [] /\ List.filter is_eb_dirichlet evs = [] /\
  List.filter is_solver_call evs = [].

Lemma plain_app (l1 l2 : list Event) : plain l1 -> plain l2 -> plain (l1 ++ l2).
Proof.
  unfold plain. intros (A1 & A2 & A3) (B1 & B2 & B3).
  rewrite !List.filter_app, A1, A2, A3, B1, B2, B3. auto.
Qed.

Lemma plain_coeff (evs : list Event) : Forall is_coeff_event evs -> plain evs.
Proof.
  induction 1 as [|e evs He _ IH]; [repeat split|].
  change (e :: evs) with ([e] ++ evs). apply plain_app; [|exact IH].
  destruct e; try contradiction; repeat split.
Qed.

Lemma plain_levelbc (evs : list Event) : Forall is_levelbc_event evs -> plain evs.
Proof.
  induction 1 as [|e evs He _ IH]; [repeat split|].
  change (e :: evs) with ([e] ++ evs). apply plain_app; [|exact IH].
  destruct e; try contradiction; repeat split.
Qed.

Lemma plain_print (c : bool) (msg : string) : plain (print_if c msg).
Proof. destruct c; repeat split. Qed.

Section Prepared.

Variables (vel_in ro_in eta_in : list MultiFab) (dt : Real) (w w2 : World).
Hypothesis Hprep : prepared vel_in ro_in eta_in dt w w2.

Lemma prepared_log :
  exists evs : list Event,
    out w2 = out w ++ EvSetScalars 1%float dt :: evs /\ plain evs.
Proof.
  destruct Hprep as (w1 & (B & M & evs & Hs1 & Ho1 & Hev1 & _)
                       & (R & P & M' & evs' & Hs2 & Ho2 & Hev2 & _)).
  cbn [self out] in Ho2.
  exists (evs ++ print_if (0 <? verbose (self w1))
                          "Diffusing velocity components all together..." ++ evs').
  split.
  - rewrite Ho2, Ho1. rewrite <- !app_assoc. reflexivity.
  - apply plain_app; [apply plain_coeff; exact Hev1|].
    apply plain_app; [apply plain_print | apply plain_levelbc; exact Hev2].
Qed.

Lemma prepared_operator :
  op_scalars (matrix (self w2)) = Some (1%float, dt) /\
  op_base_kept (matrix (self w2)) (matrix (self w)) /\
  forall (lev : nat) blev eta geom ro,
    Z.of_nat lev <= finestLevel (amrcore (self w)) ->
    b (self w) !! lev = Some blev -> eta_in !! lev = Some eta ->
    Geom (amrcore (self w)) !! lev = Some geom -> ro_in !! lev = Some ro ->
    op_acoeffs (matrix (self w2)) lev = Some ro /\
    op_shear_viscosity (matrix (self w2)) lev = Some (refreshed_b geom eta blev) /\
    op_eb_shear_viscosity (matrix (self w2)) lev = Some eta.
Proof.
  destruct Hprep as (w1 & (B & M & evs & Hs1 & _ & _ & _ & Hsc & Hk1 & _ & _ & Hco)
                       & (R & P & M' & evs' & Hs2 & _ & _ & _ & _ & Hsc' & Hk2
                          & Ha & Hs & He & _)).
  cbn [self out] in Hs2, Hsc', Hk2, Ha, Hs, He.
  rewrite Hs1 in Hsc', Hk2, Ha, Hs, He. rewrite Hs2. onorm.
  split; [congruence|]. split.
  - destruct Hk1 as (A1 & A2 & A3 & A4), Hk2 as (B1 & B2 & B3 & B4 & B5).
    repeat split; congruence.
  - intros lev blev eta geom ro Hlev Hb Heta Hgeom Hro.
    destruct (Hco lev blev eta geom ro Hlev Hb Heta Hgeom Hro) as (_ & C1 & C2 & C3 & _).
    rewrite Ha, Hs, He. auto.
Qed.

(** The condition on the embedded surface when the solver is called:
    homogeneous, with the level's viscosity as coefficient, on every level
    up to [finestLevel]; what it was on the levels beyond. *)
Lemma prepared_eb_dirichlet :
  (forall (lev : nat) (eta : MultiFab),
     Z.of_nat lev <= finestLevel (amrcore (self w)) ->
     is_Some (b (self w) !! lev) -> is_Some (Geom (amrcore (self w)) !! lev) ->
     is_Some (ro_in !! lev) -> eta_in !! lev = Some eta ->
     op_eb_dirichlet (matrix (self w2)) lev = Some (None, eta)) /\
  (forall lev : nat, finestLevel (amrcore (self w)) < Z.of_nat lev ->
     op_eb_dirichlet (matrix (self w2)) lev = op_eb_dirichlet (matrix (self w)) lev).
Proof.
  destruct Hprep as (w1 & (B & M & evs & Hs1 & _ & _ & _ & _ & _ & _ & Hrest & Hco)
                       & (R & P & M' & evs' & Hs2 & _ & _ & _ & _ & _ & Hk2 & _)).
  cbn [self out] in Hs2, Hk2. rewrite Hs1 in Hk2. onorm.
  destruct Hk2 as (_ & _ & _ & _ & Hd).
  rewrite Hs2. onorm. rewrite Hd. split.
  - intros lev eta Hlev [blev Hb] [geom Hgeom] [ro Hro] Heta.
    destruct (Hco lev blev eta geom ro Hlev Hb Heta Hgeom Hro) as (_ & _ & _ & _ & C5).
    exact C5.
  - intros lev Hlev. destruct (Hrest lev Hlev) as (_ & _ & _ & _ & R5). exact R5.
Qed.

Lemma prepared_buffers :
  forall (lev : nat) r v ro ph geom,
    Z.of_nat lev <= finestLevel (amrcore (self w)) ->
    rhs (self w) !! lev = Some r -> vel_in !! lev = Some v ->
    ro_in !! lev = Some ro -> phi (self w) !! lev = Some ph ->
    Geom (amrcore (self w)) !! lev = Some geom ->
    rhs (self w2) !! lev = Some (rhs_of r v ro) /\
    phi (self w2) !! lev = Some (guess_of geom ph v).
Proof.
  destruct Hprep as (w1 & (B & M & evs & Hs1 & _)
                       & (R & P & M' & evs' & Hs2 & _ & _ & _ & _ & _ & _
                          & _ & _ & _ & _ & Hdone)).
  cbn [self out] in Hs2, Hdone. rewrite Hs1 in Hdone. onorm.
  intros lev r v ro ph geom Hlev Hr Hv Hro Hph Hgeom.
  destruct (Hdone lev r v ro ph geom Hlev Hr Hv Hro Hph Hgeom) as (D1 & D2 & _).
  rewrite Hs2. onorm. auto.
Qed.

End Prepared.

Section SolveFacts.

Variable MLMG_ctor : LinOp -> MLMG.
Variable MLMG_solve :
  LinOp -> MLMG -> list MultiFab -> list MultiFab -> Real -> Real ->
  option (list (list Array4)).

(** On a ready object [solve] reaches the solver call; it then returns or,
    if the solver gives up, aborts; after the call it only prints. *)
Lemma solve_outcome (vel_in ro_in eta_in : list MultiFab) (dt : Real) (w : World) :
  solve_ready vel_in ro_in eta_in (self w) ->
  exists (w2 w' : World) (post : list Event),
    prepared vel_in ro_in eta_in dt w w2 /\
    ((exists vel', solve MLMG_ctor MLMG_solve vel_in ro_in eta_in dt w = Normal vel' w') \/
     solve MLMG_ctor MLMG_solve vel_in ro_in eta_in dt w = Aborted w') /\
    out w' = out w2 ++ solver_call MLMG_ctor (self w2) :: post /\ plain post.
Proof.
  intros Hready.
  pose proof (solve_run MLMG_ctor MLMG_solve vel_in ro_in eta_in dt w Hready) as H.
  unfold triple in H.
  destruct (solve MLMG_ctor MLMG_solve vel_in ro_in eta_in dt w) as [vel' w'|w'|];
    [| |contradiction].
  - destruct H as (w2 & sol & w3 & Hprep & Hsol & (P & Hs3 & Ho3 & _) & Hs' & Ho').
    exists w2, w', (print_if (0 <? verbose (self w3)) " done!").
    split; [exact Hprep|]. split; [left; eauto|]. split; [|apply plain_print].
    rewrite Ho', Ho3. unfold solved. cbn [out]. rewrite <- app_assoc. reflexivity.
  - destruct H as (w2 & Hprep & Hsol & ->).
    exists w2, (MkWorld (self w2) (out w2 ++ [solver_call MLMG_ctor (self w2)])), [].
    split; [exact Hprep|]. split; [right; reflexivity|]. split; [reflexivity|].
    repeat split.
Qed.

End SolveFacts.

(** C4. Every call of [solve] on an object whose vectors cover the levels
    up to [finestLevel] makes exactly one solver call; before it, it has
    set the scalars exactly once, to alpha = 1 and beta = dt, and after it
    never again; the operator handed to the solver has these scalars and,
    for every level up to [finestLevel], the level's density as a
    coefficient, the face average of the level's viscosity (after the halo
    exchange) as b coefficient, and the level's cell-centred viscosity as
    embedded-boundary coefficient. *)
Theorem solve_configures_operator
    (MLMG_ctor : LinOp -> MLMG)
    (MLMG_solve : LinOp -> MLMG -> list MultiFab -> list MultiFab -> Real -> Real ->
                  option (list (list Array4)))
    (vel_in ro_in eta_in : list MultiFab) (dt : Real) (w : World) :
  solve_ready vel_in ro_in eta_in (self w) ->
  exists (w' : World) (before after : list Event) (op : LinOp) (mlmg : MLMG)
         (sol rhs_ : list MultiFab) (rtol atol : Real),
    ((exists vel', solve MLMG_ctor MLMG_solve vel_in ro_in eta_in dt w = Normal vel' w') \/
     solve MLMG_ctor MLMG_solve vel_in ro_in eta_in dt w = Aborted w') /\
    out w' = out w ++ before ++ EvMLMGSolve op mlmg sol rhs_ rtol atol :: after /\
    List.filter is_set_scalars before = [EvSetScalars 1%float dt] /\
    List.filter is_solver_call before = [] /\
    List.filter is_set_scalars after = [] /\
    List.filter is_solver_call after = [] /\
    op_scalars op = Some (1%float, dt) /\
    forall (lev : nat) (blev : Array3 MultiFab) (eta : MultiFab) (geom : Geometry)
           (ro : MultiFab),
      Z.of_nat lev <= finestLevel (amrcore (self w)) ->
      b (self w) !! lev = Some blev -> eta_in !! lev = Some eta ->
      Geom (amrcore (self w)) !! lev = Some geom -> ro_in !! lev = Some ro ->
      op_acoeffs op lev = Some ro /\
      op_shear_viscosity op lev =
        Some (for_dirs (fun dir m => FillBoundary m (periodicity geom))
                       (average_cellcenter_to_face blev eta geom)) /\
      op_eb_shear_viscosity op lev = Some eta.
Proof.
  intros Hready.
  destruct (solve_outcome MLMG_ctor MLMG_solve vel_in ro_in eta_in dt w Hready)
    as (w2 & w' & post & Hprep & Hres & Hout & Hpost).
  destruct (prepared_log _ _ _ _ _ _ Hprep) as (evs & Hout2 & Hevs).
  destruct (prepared_operator _ _ _ _ _ _ Hprep) as (Hsc & _ & Hco).
  exists w', (EvSetScalars 1%float dt :: evs), post,
    (matrix (self w2)), (solver_of MLMG_ctor (self w2)), (phi (self w2)), (rhs (self w2)),
    (mg_rtol (self w2)), (mg_atol (self w2)).
  split; [exact Hres|].
  split; [rewrite Hout, Hout2, <- app_assoc; reflexivity|].
  destruct Hevs as (E1 & _ & E3), Hpost as (P1 & _ & P3).
  split; [cbn [List.filter is_set_scalars]; rewrite E1; reflexivity|].
  split; [cbn [List.filter is_solver_call]; exact E3|].
  split; [exact P1|]. split; [exact P3|].
  split; [exact Hsc|].
  exact Hco.
Qed.

(** C5. The right-hand side [solve] hands to the solver holds, for every
    level up to [finestLevel], every patch and each of the three
    components, the product of the input velocity component and the
    density (component 0) in every valid cell. *)
Theorem solve_rhs_is_momentum
    (MLMG_ctor : LinOp -> MLMG)
    (MLMG_solve : LinOp -> MLMG -> list MultiFab -> list MultiFab -> Real -> Real ->
                  option (list (list Array4)))
    (vel_in ro_in eta_in : list MultiFab) (dt : Real) (w : World) :
  solve_ready vel_in ro_in eta_in (self w) ->
  exists (w' : World) (evs : list Event) (op : LinOp) (mlmg : MLMG)
         (sol rhs_ : list MultiFab) (rtol atol : Real),
    ((exists vel', solve MLMG_ctor MLMG_solve vel_in ro_in eta_in dt w = Normal vel' w') \/
     solve MLMG_ctor MLMG_solve vel_in ro_in eta_in dt w = Aborted w') /\
    out w' = out w ++ evs /\
    List.filter is_solver_call evs = [EvMLMGSolve op mlmg sol rhs_ rtol atol] /\
    forall (lev : nat) (r v ro : MultiFab) (i : nat) (bx : Box)
           (rarr varr roarr : Array4),
      Z.of_nat lev <= finestLevel (amrcore (self w)) ->
      rhs (self w) !! lev = Some r -> vel_in !! lev = Some v -> ro_in !! lev = Some ro ->
      0 <= nGrow r ->
      boxArray r !! i = Some bx -> fabs r !! i = Some rarr ->
      fabs v !! i = Some varr -> fabs ro !! i = Some roarr ->
      exists (r' : MultiFab) (arr : Array4),
        rhs_ !! lev = Some r' /\ fabs r' !! i = Some arr /\
        forall (p : IntVect) (c : nat), contains bx p = true -> (c < 3)%nat ->
          arr p c = PrimFloat.mul (varr p c) (roarr p 0%nat).
Proof.
  intros Hready.
  destruct (solve_outcome MLMG_ctor MLMG_solve vel_in ro_in eta_in dt w Hready)
    as (w2 & w' & post & Hprep & Hres & Hout & Hpost).
  destruct (prepared_log _ _ _ _ _ _ Hprep) as (evs & Hout2 & Hevs).
  exists w', (EvSetScalars 1%float dt :: evs ++ solver_call MLMG_ctor (self w2) :: post),
    (matrix (self w2)), (solver_of MLMG_ctor (self w2)), (phi (self w2)), (rhs (self w2)),
    (mg_rtol (self w2)), (mg_atol (self w2)).
  split; [exact Hres|].
  split; [rewrite Hout, Hout2, <- app_assoc; reflexivity|].
  destruct Hevs as (_ & _ & E3), Hpost as (_ & _ & P3).
  split; [cbn [List.filter is_solver_call]; rewrite List.filter_app, E3;
          cbn [List.filter is_solver_call solver_call app]; rewrite P3; reflexivity|].
  intros lev r v ro i bx rarr varr roarr Hlev Hr Hv Hro Hg Hbx Hrarr Hvarr Hroarr.
  destruct (Hready lev Hlev) as (_ & [ph Hph] & _ & [geom Hgeom] & _).
  destruct (prepared_buffers _ _ _ _ _ _ Hprep lev r v ro ph geom Hlev Hr Hv Hro Hph Hgeom)
    as (HR & _).
  destruct (rhs_of_patch r v ro i bx rarr varr roarr Hg Hbx Hrarr Hvarr Hroarr)
    as (arr & Harr & Hval).
  exists (rhs_of r v ro), arr. auto.
Qed.

(** * The solution, back in the caller's velocity *)

(** [FillBoundary], patch by patch. *)
Lemma FillBoundary_patch (mf : MultiFab) (per : Periodicity) (i : nat) (bx : Box)
    (d : Array4) :
  boxArray mf !! i = Some bx -> fabs mf !! i = Some d ->
  fabs (FillBoundary mf per) !! i =
  Some (fun p n =>
          if is_ghost bx (nGrow mf) p then
            match fb_source (boxArray mf) (shiftIntVect per) p with
            | Some (j, q) =>
                match fabs mf !! j with
                | Some s => s q n
                | None => d p n
                end
            | None => d p n
            end
          else d p n).
Proof.
  intros Hbx Hd. unfold FillBoundary. cbn [fabs with_fabs].
  rewrite list_lookup_imap, Hd. cbn [fmap option_fmap option_map]. rewrite Hbx.
  reflexivity.
Qed.

Lemma is_ghost_valid (bx : Box) (ng : Z) (p : IntVect) :
  contains bx p = true -> is_ghost bx ng p = false.
Proof. intros H. unfold is_ghost. rewrite H. apply andb_false_r. Qed.

Lemma lookup_store_solution (phi_ : list MultiFab) (sol : list (list Array4))
    (lev : nat) (g : MultiFab) (fs : list Array4) :
  phi_ !! lev = Some g -> sol !! lev = Some fs ->
  store_solution phi_ sol !! lev = Some (with_fabs g fs).
Proof.
  intros Hg Hfs. unfold store_solution. rewrite list_lookup_imap, Hg. simpl.
  rewrite Hfs. reflexivity.
Qed.

Lemma guess_of_layout (geom : Geometry) (ph v : MultiFab) :
  boxArray (guess_of geom ph v) = boxArray ph /\ nGrow (guess_of geom ph v) = nGrow ph.
Proof.
  unfold guess_of.
  destruct (FillBoundary_layout (MultiFab_Copy ph v 0 0 AMREX_SPACEDIM 1) (periodicity geom))
    as (-> & -> & _).
  destruct (MultiFab_Copy_layout ph v 0 0 AMREX_SPACEDIM 1) as (-> & -> & _). auto.
Qed.

Section SolveReturns.

Variable MLMG_ctor : LinOp -> MLMG.
Variable MLMG_solve :
  LinOp -> MLMG -> list MultiFab -> list MultiFab -> Real -> Real ->
  option (list (list Array4)).

(** What a returning [solve] leaves, level by level: the solution buffer
    [sb] (the layout of [phi], the data the solver wrote), its halo
    exchanged, and that copied into the velocity. *)
Lemma solve_returns_levels (vel_in ro_in eta_in : list MultiFab) (dt : Real)
    (w : World) (vel' : list MultiFab) (w' : World) :
  solve_ready vel_in ro_in eta_in (self w) ->
  solve_returns MLMG_ctor MLMG_solve vel_in ro_in eta_in dt w vel' w' ->
  exists (w2 : World) (sol : list (list Array4)),
    prepared vel_in ro_in eta_in dt w w2 /\
    solver_result MLMG_ctor MLMG_solve (self w2) = Some sol /\
    length vel' = length vel_in /\
    (forall lev : nat, finestLevel (amrcore (self w)) < Z.of_nat lev ->
       vel' !! lev = vel_in !! lev) /\
    (forall (lev : nat) (v ph : MultiFab) (geom : Geometry) (fs : list Array4),
       Z.of_nat lev <= finestLevel (amrcore (self w)) ->
       vel_in !! lev = Some v -> phi (self w) !! lev = Some ph ->
       Geom (amrcore (self w)) !! lev = Some geom -> sol !! lev = Some fs ->
       exists sb : MultiFab,
         boxArray sb = boxArray ph /\ nGrow sb = nGrow ph /\ fabs sb = fs /\
         phi (self w') !! lev = Some (FillBoundary sb (periodicity geom)) /\
         vel' !! lev =
           Some (MultiFab_Copy v (FillBoundary sb (periodicity geom)) 0 0
                   AMREX_SPACEDIM 1)).
Proof.
  intros Hready (w2 & sol & w3 & Hprep & Hsol & (P & Hs3 & Ho3 & HlP & Hlv & Hrest & Hdone)
                 & Hs' & Ho').
  destruct (prepared_frame _ _ _ _ _ _ Hprep) as (Ham & Hlp & Hverb).
  unfold solved in *. onorm. rewrite Ham in *.
  exists w2, sol. split; [exact Hprep|]. split; [exact Hsol|]. split; [exact Hlv|].
  split; [intros lev Hlev; apply Hrest; exact Hlev|].
  intros lev v ph geom fs Hlev Hv Hph Hgeom Hfs.
  destruct (Hready lev Hlev) as (_ & _ & [r Hr] & _ & _ & [ro Hro] & _).
  destruct (prepared_buffers _ _ _ _ _ _ Hprep lev r v ro ph geom Hlev Hr Hv Hro Hph Hgeom)
    as (_ & HP2).
  pose proof (lookup_store_solution _ _ _ _ _ HP2 Hfs) as Hst.
  destruct (Hdone lev _ geom v Hlev Hst Hgeom Hv) as (HP & Hvel).
  destruct (guess_of_layout geom ph v) as (Hb & Hg).
  exists (with_fabs (guess_of geom ph v) fs). cbn [with_fabs boxArray nGrow fabs].
  split; [exact Hb|]. split; [exact Hg|]. split; [reflexivity|].
  split; [rewrite Hs', Hs3; exact HP | exact Hvel].
Qed.

End SolveReturns.

Lemma contains_grow_mono (bx : Box) (n m : Z) (p : IntVect) :
  n <= m -> contains (grow bx n) p = true -> contains (grow bx m) p = true.
Proof.
  rewrite !contains_spec.
  destruct bx as [[[li lj] lk] [[hi hj] hk]], p as [[i j] k]. simpl. lia.
Qed.

(** The copy of lines 253-254 on one patch: on the valid box grown by one
    cell, the three components are those of the exchanged solution;
    everything else of the velocity stays. *)
Lemma copy_back_patch (v sb : MultiFab) (per : Periodicity) (i : nat) (bx : Box)
    (varr parr : Array4) :
  boxArray v !! i = Some bx -> fabs v !! i = Some varr ->
  fabs (FillBoundary sb per) !! i = Some parr ->
  exists arr : Array4,
    fabs (MultiFab_Copy v (FillBoundary sb per) 0 0 AMREX_SPACEDIM 1) !! i = Some arr /\
    (forall p c, contains (grow bx 1) p = true -> (c < 3)%nat -> arr p c = parr p c) /\
    (forall p c, contains (grow bx 1) p = false \/ (3 <= c)%nat -> arr p c = varr p c).
Proof.
  intros Hbx Hv Hp.
  rewrite (MultiFab_Copy_patch v _ 0 0 AMREX_SPACEDIM 1 i bx varr parr Hbx Hv Hp).
  eexists. split; [reflexivity|].
  unfold fab_copy, in_comps, AMREX_SPACEDIM. split.
  - intros p c Hin Hc. rewrite Hin. cbn [andb Nat.leb].
    destruct (Nat.ltb_spec c (0 + 3)); [|lia].
    rewrite Nat.sub_0_r, Nat.add_0_r. reflexivity.
  - intros p c [Hout|Hc].
    + rewrite Hout. reflexivity.
    + destruct (Nat.ltb_spec c (0 + 3)); [lia|]. rewrite andb_false_r. reflexivity.
Qed.

(** C6. On a ready object [solve] returns unless the solver gives up.
    When it returns, the velocity of every level beyond [finestLevel] is
    what it was, and on every level up to [finestLevel] the three
    components hold, in every valid cell of every patch, what the solver
    left in the solution. *)
Theorem solve_overwrites_velocity
    (MLMG_ctor : LinOp -> MLMG)
    (MLMG_solve : LinOp -> MLMG -> list MultiFab -> list MultiFab -> Real -> Real ->
                  option (list (list Array4)))
    (vel_in ro_in eta_in : list MultiFab) (dt : Real) (w : World) :
  solve_ready vel_in ro_in eta_in (self w) ->
  match solve MLMG_ctor MLMG_solve vel_in ro_in eta_in dt w with
  | Normal vel' w' =>
      exists (w2 : World) (sol : list (list Array4)),
        prepared vel_in ro_in eta_in dt w w2 /\
        solver_result MLMG_ctor MLMG_solve (self w2) = Some sol /\
        length vel' = length vel_in /\
        (forall lev : nat, finestLevel (amrcore (self w)) < Z.of_nat lev ->
           vel' !! lev = vel_in !! lev) /\
        (forall (lev : nat) (v ph : MultiFab) (fs : list Array4) (i : nat) (bx : Box)
                (varr farr : Array4),
           Z.of_nat lev <= finestLevel (amrcore (self w)) ->
           vel_in !! lev = Some v -> phi (self w) !! lev = Some ph ->
           sol !! lev = Some fs ->
           boxArray v !! i = Some bx -> boxArray ph !! i = Some bx ->
           fabs v !! i = Some varr -> fs !! i = Some farr ->
           exists (v' : MultiFab) (arr : Array4),
             vel' !! lev = Some v' /\ fabs v' !! i = Some arr /\
             forall (p : IntVect) (c : nat), contains bx p = true -> (c < 3)%nat ->
               arr p c = farr p c)
  | Aborted w' =>
      exists w2 : World,
        prepared vel_in ro_in eta_in dt w w2 /\
        solver_result MLMG_ctor MLMG_solve (self w2) = None
  | Undefined => False
  end.
Proof.
  intros Hready.
  pose proof (solve_run MLMG_ctor MLMG_solve vel_in ro_in eta_in dt w Hready) as H.
  unfold triple in H.
  destruct (solve MLMG_ctor MLMG_solve vel_in ro_in eta_in dt w) as [vel' w'|w'|];
    [| |contradiction].
  - destruct (solve_returns_levels _ _ _ _ _ _ _ _ _ Hready H)
      as (w2 & sol & Hprep & Hsol & Hlen & Hrest & Hlevels).
    exists w2, sol. do 4 (split; [assumption|]).
    intros lev v ph fs i bx varr farr Hlev Hv Hph Hfs Hbxv Hbxp Hvarr Hfarr.
    destruct (Hready lev Hlev) as (_ & _ & _ & [geom Hgeom] & _).
    destruct (Hlevels lev v ph geom fs Hlev Hv Hph Hgeom Hfs)
      as (sb & Hb & Hg & Hf & _ & Hvel).
    assert (Hpatch := FillBoundary_patch sb (periodicity geom) i bx farr
                        ltac:(rewrite Hb; exact Hbxp) ltac:(rewrite Hf; exact Hfarr)).
    destruct (copy_back_patch v sb (periodicity geom) i bx varr _ Hbxv Hvarr Hpatch)
      as (arr & Harr & Hin & _).
    eexists _, arr. split; [exact Hvel|]. split; [exact Harr|].
    intros p c Hp Hc. rewrite (Hin p c) by (try apply contains_grow; auto; lia).
    rewrite (is_ghost_valid bx _ p Hp). reflexivity.
  - destruct H as (w2 & Hprep & Hsol & _). eauto.
Qed.

(** C10, as the code has it.  When [solve] returns, on every level up to
    [finestLevel] the halo of the solution buffer has been exchanged and
    the three components have been copied into the velocity on the valid
    cells and the first ghost layer of every patch (the solution buffer
    has a one-cell halo, and the copy is made with one ghost cell); a cell
    of that layer that the exchange fills holds the solver's value of the
    valid cell it is a copy of.  Outside the valid box grown by one cell,
    and in components from 3 on, the velocity holds what the caller
    passed. *)
Theorem solve_copies_back_with_halo
    (MLMG_ctor : LinOp -> MLMG)
    (MLMG_solve : LinOp -> MLMG -> list MultiFab -> list MultiFab -> Real -> Real ->
                  option (list (list Array4)))
    (vel_in ro_in eta_in : list MultiFab) (dt : Real) (w : World) :
  solve_ready vel_in ro_in eta_in (self w) ->
  match solve MLMG_ctor MLMG_solve vel_in ro_in eta_in dt w with
  | Normal vel' w' =>
      exists (w2 : World) (sol : list (list Array4)),
        prepared vel_in ro_in eta_in dt w w2 /\
        solver_result MLMG_ctor MLMG_solve (self w2) = Some sol /\
        forall (lev : nat) (v ph : MultiFab) (geom : Geometry) (fs : list Array4),
          Z.of_nat lev <= finestLevel (amrcore (self w)) ->
          vel_in !! lev = Some v -> phi (self w) !! lev = Some ph ->
          Geom (amrcore (self w)) !! lev = Some geom -> sol !! lev = Some fs ->
          exists (sb v' : MultiFab),
            boxArray sb = boxArray ph /\ nGrow sb = nGrow ph /\ fabs sb = fs /\
            phi (self w') !! lev = Some (FillBoundary sb (periodicity geom)) /\
            vel' !! lev = Some v' /\
            forall (i : nat) (bx : Box) (varr farr : Array4),
              boxArray v !! i = Some bx -> boxArray ph !! i = Some bx ->
              fabs v !! i = Some varr -> fs !! i = Some farr ->
              exists arr parr : Array4,
                fabs v' !! i = Some arr /\
                fabs (FillBoundary sb (periodicity geom)) !! i = Some parr /\
                (forall (p : IntVect) (c : nat),
                   contains (grow bx 1) p = true -> (c < 3)%nat ->
                   arr p c = parr p c) /\
                (forall (p : IntVect) (c j : nat) (q : IntVect) (fj : Array4),
                   contains (grow bx 1) p = true -> contains bx p = false ->
                   1 <= nGrow ph -> (c < 3)%nat ->
                   fb_source (boxArray ph) (shiftIntVect (periodicity geom)) p
                   = Some (j, q) ->
                   fs !! j = Some fj ->
                   arr p c = fj q c) /\
                (forall (p : IntVect) (c : nat),
                   contains (grow bx 1) p = false \/ (3 <= c)%nat ->
                   arr p c = varr p c)
  | Aborted w' =>
      exists w2 : World,
        prepared vel_in ro_in eta_in dt w w2 /\
        solver_result MLMG_ctor MLMG_solve (self w2) = None
  | Undefined => False
  end.
Proof.
  intros Hready.
  pose proof (solve_run MLMG_ctor MLMG_solve vel_in ro_in eta_in dt w Hready) as H.
  unfold triple in H.
  destruct (solve MLMG_ctor MLMG_solve vel_in ro_in eta_in dt w) as [vel' w'|w'|];
    [| |contradiction].
  - destruct (solve_returns_levels _ _ _ _ _ _ _ _ _ Hready H)
      as (w2 & sol & Hprep & Hsol & Hlen & Hrest & Hlevels).
    exists w2, sol. do 2 (split; [assumption|]).
    intros lev v ph geom fs Hlev Hv Hph Hgeom Hfs.
    destruct (Hlevels lev v ph geom fs Hlev Hv Hph Hgeom Hfs)
      as (sb & Hb & Hg & Hf & Hphi & Hvel).
    exists sb, (MultiFab_Copy v (FillBoundary sb (periodicity geom)) 0 0 AMREX_SPACEDIM 1).
    do 5 (split; [assumption|]).
    intros i bx varr farr Hbxv Hbxp Hvarr Hfarr.
    assert (Hpatch := FillBoundary_patch sb (periodicity geom) i bx farr
                        ltac:(rewrite Hb; exact Hbxp) ltac:(rewrite Hf; exact Hfarr)).
    destruct (copy_back_patch v sb (periodicity geom) i bx varr _ Hbxv Hvarr Hpatch)
      as (arr & Harr & Hin & Hbeyond).
    eexists arr, _. split; [exact Harr|]. split; [exact Hpatch|].
    split; [exact Hin|]. split; [|exact Hbeyond].
    intros p c j q fj Hp Hnv Hng Hc Hsrc Hfj.
    rewrite (Hin p c Hp Hc).
    assert (Hgh : is_ghost bx (nGrow sb) p = true).
    { unfold is_ghost. rewrite Hnv, Hg.
      rewrite (contains_grow_mono bx 1 (nGrow ph) p Hng Hp). reflexivity. }
    rewrite Hgh, Hb, Hsrc, Hf, Hfj. reflexivity.
  - destruct H as (w2 & Hprep & Hsol & _). eauto.
Qed.

(** * The coefficient refresh, twice *)

Lemma find_box_Some (ba : list Box) (q : IntVect) (j : nat) :
  find_box ba q = Some j -> exists bx, ba !! j = Some bx /\ contains bx q = true.
Proof.
  unfold find_box. intros H.
  destruct (list_find (fun bx => contains bx q = true) ba) as [[j' bx]|] eqn:E;
    [|discriminate].
  simpl in H. inversion H; subst j'.
  apply list_find_Some in E as (Hbx & Hin & _). eauto.
Qed.

(** The source of a ghost point is a valid point of the source patch. *)
Lemma fb_source_valid (ba : list Box) (shifts : list IntVect) (p : IntVect)
    (j : nat) (q : IntVect) :
  fb_source ba shifts p = Some (j, q) ->
  exists bx, ba !! j = Some bx /\ contains bx q = true.
Proof.
  induction shifts as [|s rest IH]; simpl; [discriminate|].
  destruct (find_box ba (iv_add p s)) as [j'|] eqn:E; [|exact IH].
  intros H. inversion H; subst. eapply find_box_Some; eauto.
Qed.

Lemma MultiFab_ext (m1 m2 : MultiFab) :
  boxArray m1 = boxArray m2 -> nComp m1 = nComp m2 -> nGrow m1 = nGrow m2 ->
  (forall i, fabs m1 !! i = fabs m2 !! i) -> m1 = m2.
Proof.
  destruct m1, m2. simpl. intros -> -> -> H. f_equal. apply list_eq. exact H.
Qed.

Section RefreshTwice.

Variables (dir : nat) (cc : MultiFab) (per : Periodicity).

(** Lines 193 and 195 for one direction. *)
Definition refresh_dir (fc : MultiFab) : MultiFab :=
  FillBoundary (average_dir dir fc cc) per.

(** The kernels of the two steps on patch [i]. *)
Definition avg_kernel (i : nat) (d : Array4) : Array4 :=
  match boxArray cc !! i, fabs cc !! i with
  | Some bx, Some c =>
      fun p n =>
        if contains (surroundingNodes bx dir) p && (n =? 0)%nat
        then face_average dir c p
        else d p n
  | _, _ => d
  end.

Lemma fabs_average_dir (fc : MultiFab) (i : nat) :
  fabs (average_dir dir fc cc) !! i = avg_kernel i <$> fabs fc !! i.
Proof. unfold average_dir. cbn [fabs with_fabs]. apply list_lookup_imap. Qed.

(** Averaging again does not change a value that the first averaging
    produced. *)
Lemma avg_kernel_absorb (i : nat) (d g : Array4) (p : IntVect) (n : nat) :
  g p n = avg_kernel i d p n -> avg_kernel i g p n = avg_kernel i d p n.
Proof.
  unfold avg_kernel.
  destruct (boxArray cc !! i) as [bx|]; [|auto].
  destruct (fabs cc !! i) as [c|]; [|auto].
  destruct (contains (surroundingNodes bx dir) p && (n =? 0)%nat); auto.
Qed.

(** The halo exchange leaves the valid points of a patch. *)
Lemma FillBoundary_valid (mf : MultiFab) (j : nat) (bx : Box) (d : Array4)
    (q : IntVect) (n : nat) :
  boxArray mf !! j = Some bx -> fabs mf !! j = Some d -> contains bx q = true ->
  exists d', fabs (FillBoundary mf per) !! j = Some d' /\ d' q n = d q n.
Proof.
  intros Hbx Hd Hq. rewrite (FillBoundary_patch mf per j bx d Hbx Hd).
  eexists. split; [reflexivity|]. cbv beta. rewrite (is_ghost_valid bx _ q Hq).
  reflexivity.
Qed.

Lemma refresh_dir_patch (fc : MultiFab) (i : nat) (d0 : Array4) :
  fabs fc !! i = Some d0 ->
  exists x : Array4,
    fabs (refresh_dir fc) !! i = Some x /\
    fabs (refresh_dir (refresh_dir fc)) !! i = Some x.
Proof.
  intros Hd0. unfold refresh_dir.
  set (Y := average_dir dir fc cc).
  set (X := FillBoundary Y per).
  set (Z := average_dir dir X cc).
  assert (HY : forall k, fabs Y !! k = avg_kernel k <$> fabs fc !! k)
    by (intros k; apply fabs_average_dir).
  assert (HZ : forall k, fabs Z !! k = avg_kernel k <$> fabs X !! k)
    by (intros k; apply fabs_average_dir).
  assert (HbY : boxArray Y = boxArray fc) by reflexivity.
  assert (HbZ : boxArray Z = boxArray fc) by reflexivity.
  assert (HgY : nGrow Y = nGrow fc) by reflexivity.
  assert (HgZ : nGrow Z = nGrow fc) by reflexivity.
  assert (HYi : fabs Y !! i = Some (avg_kernel i d0)) by (rewrite HY, Hd0; reflexivity).
  destruct (boxArray fc !! i) as [bx|] eqn:Hbx.
  - pose proof (FillBoundary_patch Y per i bx _ ltac:(rewrite HbY; exact Hbx) HYi) as HXi.
    fold X in HXi.
    assert (HZi := HZ i). rewrite HXi in HZi. cbn [fmap option_fmap option_map] in HZi.
    pose proof (FillBoundary_patch Z per i bx _ ltac:(rewrite HbZ; exact Hbx) HZi) as HWi.
    eexists. split; [exact HXi|]. rewrite HWi. f_equal.
    apply functional_extensionality. intros p. apply functional_extensionality. intros n.
    rewrite HbZ, HbY, HgZ, HgY.
    destruct (is_ghost bx (nGrow fc) p) eqn:Hgh.
    + destruct (fb_source (boxArray fc) (shiftIntVect per) p) as [[j q]|] eqn:Hsrc.
      * destruct (fb_source_valid _ _ _ _ _ Hsrc) as (bxj & Hbxj & Hq).
        destruct (fabs fc !! j) as [dj|] eqn:Hdj.
        -- assert (HYj : fabs Y !! j = Some (avg_kernel j dj))
             by (rewrite HY, Hdj; reflexivity).
           destruct (FillBoundary_valid Y j bxj _ q n ltac:(rewrite HbY; exact Hbxj) HYj Hq)
             as (xj & HXj & Hxj).
           fold X in HXj.
           assert (HZj := HZ j). rewrite HXj in HZj.
           cbn [fmap option_fmap option_map] in HZj.
           rewrite HZj, HYj. apply avg_kernel_absorb. exact Hxj.
        -- assert (HYj : fabs Y !! j = None) by (rewrite HY, Hdj; reflexivity).
           assert (HXj : fabs X !! j = None).
           { apply lookup_ge_None. unfold X.
             destruct (FillBoundary_layout Y per) as (_ & _ & ->).
             apply lookup_ge_None. exact HYj. }
           assert (HZj := HZ j). rewrite HXj in HZj.
           cbn [fmap option_fmap option_map] in HZj.
           rewrite HZj, HYj. apply avg_kernel_absorb.
           rewrite Hgh, Hsrc, HYj. reflexivity.
      * apply avg_kernel_absorb. rewrite Hgh, Hsrc. reflexivity.
    + apply avg_kernel_absorb. rewrite Hgh. reflexivity.
  - assert (HXi : fabs X !! i = Some (avg_kernel i d0)).
    { unfold X, FillBoundary. cbn [fabs with_fabs].
      rewrite list_lookup_imap, HYi. cbn [fmap option_fmap option_map].
      rewrite HbY, Hbx. reflexivity. }
    assert (HZi := HZ i). rewrite HXi in HZi. cbn [fmap option_fmap option_map] in HZi.
    eexists. split; [exact HXi|].
    unfold FillBoundary. cbn [fabs with_fabs].
    rewrite list_lookup_imap, HZi. cbn [fmap option_fmap option_map].
    rewrite HbZ, Hbx. f_equal.
    apply functional_extensionality. intros p. apply functional_extensionality. intros n.
    apply avg_kernel_absorb. reflexivity.
Qed.

(** Averaging and exchanging a second time changes nothing. *)
Lemma refresh_dir_idem (fc : MultiFab) :
  refresh_dir (refresh_dir fc) = refresh_dir fc.
Proof.
  apply MultiFab_ext; try reflexivity.
  intros i. destruct (fabs fc !! i) as [d0|] eqn:Hd0.
  - destruct (refresh_dir_patch fc i d0 Hd0) as (x & H1 & H2). congruence.
  - assert (H1 : fabs (refresh_dir fc) !! i = None).
    { apply lookup_ge_None. unfold refresh_dir.
      destruct (FillBoundary_layout (average_dir dir fc cc) per) as (_ & _ & ->).
      unfold average_dir. cbn [fabs with_fabs]. rewrite length_imap.
      apply lookup_ge_None. exact Hd0. }
    rewrite H1. apply lookup_ge_None. unfold refresh_dir at 1.
    destruct (FillBoundary_layout (average_dir dir (refresh_dir fc) cc) per) as (_ & _ & ->).
    unfold average_dir. cbn [fabs with_fabs]. rewrite length_imap.
    apply lookup_ge_None. exact H1.
Qed.

End RefreshTwice.

Lemma refreshed_b_idem (geom : Geometry) (eta : MultiFab) (blev : Array3 MultiFab) :
  refreshed_b geom eta (refreshed_b geom eta blev) = refreshed_b geom eta blev.
Proof.
  destruct blev as [[fx fy] fz]. unfold refreshed_b, average_cellcenter_to_face, for_dirs.
  pose proof (refresh_dir_idem 0 eta (periodicity geom) fx) as Hx.
  pose proof (refresh_dir_idem 1 eta (periodicity geom) fy) as Hy.
  pose proof (refresh_dir_idem 2 eta (periodicity geom) fz) as Hz.
  unfold refresh_dir in Hx, Hy, Hz. rewrite Hx, Hy, Hz. reflexivity.
Qed.

Lemma LinOp_ext (M M' : LinOp) :
  op_base_kept M' M -> op_scalars M' = op_scalars M ->
  op_acoeffs M' = op_acoeffs M -> op_shear_viscosity M' = op_shear_viscosity M ->
  op_eb_shear_viscosity M' = op_eb_shear_viscosity M -> op_level_bc M' = op_level_bc M ->
  op_eb_dirichlet M' = op_eb_dirichlet M ->
  M' = M.
Proof.
  destruct M, M'. unfold op_base_kept. simpl.
  intros (-> & -> & -> & ->) -> -> -> -> -> ->. reflexivity.
Qed.

(** C9. Running the coefficient refresh a second time, with the same
    density, viscosity and [dt], leaves the object (the operator and the
    [b] buffers included) exactly as the first run left it. *)
Theorem refresh_coefficients_idempotent
    (ro_in eta_in : list MultiFab) (dt : Real) (w : World) :
  refresh_ready ro_in eta_in (self w) ->
  exists w1 w2 : World,
    refresh_coefficients ro_in eta_in dt w = Normal tt w1 /\
    refresh_coefficients ro_in eta_in dt w1 = Normal tt w2 /\
    self w2 = self w1.
Proof.
  intros Hready.
  pose proof (refresh_coefficients_run ro_in eta_in dt w Hready) as H1.
  unfold triple in H1.
  destruct (refresh_coefficients ro_in eta_in dt w) as [[] w1| |] eqn:Erun1;
    try contradiction.
  destruct H1 as (B & M & evs & Hs1 & _ & _ & HlB & Hsc & Hk & Hbc & Hrest & Hdone).
  assert (Hready1 : refresh_ready ro_in eta_in (self w1)).
  { intros lev Hlev. rewrite Hs1 in *. onorm.
    destruct (Hready lev Hlev) as (Hb & ? & ? & ?). repeat split; try assumption.
    apply lookup_lt_is_Some. rewrite HlB. apply lookup_lt_is_Some. exact Hb. }
  pose proof (refresh_coefficients_run ro_in eta_in dt w1 Hready1) as H2.
  unfold triple in H2.
  destruct (refresh_coefficients ro_in eta_in dt w1) as [[] w2| |] eqn:Erun2;
    try contradiction.
  exists w1, w2. split; [reflexivity|]. split; [exact Erun2|].
  destruct H2 as (B' & M' & evs' & Hs2 & _ & _ & HlB' & Hsc' & Hk' & Hbc' & Hrest' & Hdone').
  rewrite Hs1 in Hs2, HlB', Hk', Hbc', Hrest', Hdone'. onorm.
  assert (Hlevel : forall lev : nat,
            B' !! lev = B !! lev /\ op_acoeffs M' lev = op_acoeffs M lev /\
            op_shear_viscosity M' lev = op_shear_viscosity M lev /\
            op_eb_shear_viscosity M' lev = op_eb_shear_viscosity M lev /\
            op_eb_dirichlet M' lev = op_eb_dirichlet M lev).
  { intros lev.
    destruct (Z_le_gt_dec (Z.of_nat lev) (finestLevel (amrcore (self w)))) as [Hle|Hgt].
    - destruct (Hready lev Hle) as ([blev Hb] & [geom Hgeom] & [ro Hro] & [eta Heta]).
      destruct (Hdone lev blev eta geom ro Hle Hb Heta Hgeom Hro)
        as (D1 & D2 & D3 & D4 & D5).
      destruct (Hdone' lev _ eta geom ro Hle D1 Heta Hgeom Hro)
        as (E1 & E2 & E3 & E4 & E5).
      rewrite refreshed_b_idem in E1, E3. repeat split; congruence.
    - apply Hrest'. lia. }
  assert (HB : B' = B) by (apply list_eq; intros lev; apply Hlevel).
  assert (HM : M' = M).
  { apply LinOp_ext; try congruence.
    - apply functional_extensionality. intros lev. apply Hlevel.
    - apply functional_extensionality. intros lev. apply Hlevel.
    - apply functional_extensionality. intros lev. apply Hlevel.
    - apply functional_extensionality. intros lev. apply Hlevel. }
  rewrite Hs2, Hs1, HB, HM. reflexivity.
Qed.

(** * [solve] and the embedded boundary *)

(** ** No direct embedded-boundary Dirichlet call *)

(** From [w0] to [w]: the calls made since contain no [setEBDirichlet] and
    no [setEBHomogDirichlet]. *)
Definition quiet (w0 w : World) : Prop :=
  exists evs : list Event,
    out w = out w0 ++ evs /\ List.filter is_eb_dirichlet evs = [].

Definition preserves {A : Type} (m : M A) : Prop :=
  forall w0 w : World,
    quiet w0 w -> triple m w (fun _ w' => quiet w0 w') (quiet w0) True.

Lemma quiet_refl (w : World) : quiet w w.
Proof. exists []. rewrite app_nil_r. auto. Qed.

Lemma preserves_ret {A} (a : A) : preserves (ret a).
Proof. intros w0 w H. exact H. Qed.

Lemma preserves_bind {A B} (m : M A) (k : A -> M B) :
  preserves m -> (forall a, preserves (k a)) -> preserves (m ≫= k).
Proof.
  intros Hm Hk w0 w H. apply triple_bind.
  eapply triple_conseq; [apply Hm; exact H | | auto].
  intros a w' H'. apply Hk. exact H'.
Qed.

Lemma preserves_get : preserves get.
Proof. intros w0 w H. exact H. Qed.

Lemma preserves_at {A} (v : list A) (i : nat) : preserves (at_ v i).
Proof. intros w0 w H. unfold triple, at_. destruct (v !! i); auto. Qed.

Lemma preserves_abort {A} : preserves (@amrex_Abort A).
Proof. intros w0 w H. exact H. Qed.

Lemma preserves_modify (f : DiffusionEquation -> DiffusionEquation) :
  preserves (modify f).
Proof. intros w0 w (evs & Hout & Hev). exists evs. cbn [self out]. auto. Qed.

Lemma preserves_emit (e : Event) : is_eb_dirichlet e = false -> preserves (emit e).
Proof.
  intros He w0 w (evs & Hout & Hev). exists (evs ++ [e]). cbn [self out].
  rewrite Hout, List.filter_app, Hev. cbn [List.filter]. rewrite He.
  rewrite <- app_assoc. auto.
Qed.

Lemma preserves_matrix_call (e : Event) (f : LinOp -> LinOp) :
  is_eb_dirichlet e = false -> preserves (matrix_call e f).
Proof.
  intros He. unfold matrix_call. apply preserves_bind.
  - apply preserves_modify.
  - intros _. apply preserves_emit. exact He.
Qed.

Lemma preserves_when (c : bool) (m : M unit) : preserves m -> preserves (when c m).
Proof. destruct c; [auto | intros _; apply preserves_ret]. Qed.

Lemma preserves_for_acc {I A} (idx : list I) (body : I -> A -> M A) (a : A) :
  (forall i a, preserves (body i a)) -> preserves (for_acc idx body a).
Proof.
  intros Hbody. revert a. induction idx as [|i rest IH]; intros a.
  - apply preserves_ret.
  - cbn [for_acc]. apply preserves_bind; [apply Hbody | exact IH].
Qed.

Ltac pstep :=
  lazymatch goal with
  | |- preserves (_ ≫= _) => apply preserves_bind; [|intros ?]
  | |- preserves get => apply preserves_get
  | |- preserves (at_ _ _) => apply preserves_at
  | |- preserves (ret _) => apply preserves_ret
  | |- preserves (mret _) => apply preserves_ret
  | |- preserves amrex_Abort => apply preserves_abort
  | |- preserves (when _ _) => apply preserves_when
  | |- preserves (amrex_Print _) => apply preserves_emit; reflexivity
  | |- preserves (emit _) => apply preserves_emit; reflexivity
  | |- preserves (modify _) => apply preserves_modify
  | |- preserves (matrix_call _ _) => apply preserves_matrix_call; reflexivity
  | |- preserves (for_ _ _) => unfold for_; apply preserves_for_acc; intros ? ?
  | |- preserves (for_acc _ _ _) => apply preserves_for_acc; intros ? ?
  end.

(** Whatever the world, ready or not: no call of [solve] is a
    [setEBDirichlet] or a [setEBHomogDirichlet]. *)
Lemma solve_preserves
    (MLMG_ctor : LinOp -> MLMG)
    (MLMG_solve : LinOp -> MLMG -> list MultiFab -> list MultiFab -> Real -> Real ->
                  option (list (list Array4)))
    (vel_in ro_in eta_in : list MultiFab) (dt : Real) :
  preserves (solve MLMG_ctor MLMG_solve vel_in ro_in eta_in dt).
Proof.
  unfold solve, refresh_coefficients, build_rhs, run_solver, copy_back.
  cbv zeta. repeat pstep.
  destruct (MLMG_solve _ _ _ _ _ _); pstep.
Qed.

(** ** The surface velocity and the rotation speed are not read *)

Definition set_cyl_speed (x : Real) (o : DiffusionEquation) : DiffusionEquation :=
  MkDiffusionEquation (amrcore o) (ebfactory o) (nghost o) x (bc_lo o)
    (bc_hi o) (b o) (phi o) (rhs o) (vel_eb o) (matrix o) (verbose o) (mg_verbose o)
    (mg_cg_verbose o) (mg_max_iter o) (mg_cg_maxiter o) (mg_max_fmg_iter o)
    (mg_max_coarsening_level o) (mg_rtol o) (mg_atol o) (bottom_solver_type o).

(** The same world with another surface velocity and rotation speed. *)
Definition with_eb (veb : list MultiFab) (speed : Real) (w : World) : World :=
  MkWorld (set_cyl_speed speed (set_vel_eb veb (self w))) (out w).

Definition rmap {A : Type} (f : World -> World) (r : Result A) : Result A :=
  match r with
  | Normal a w => Normal a (f w)
  | Aborted w => Aborted (f w)
  | Undefined => Undefined
  end.

Section NotRead.

Variables (veb : list MultiFab) (speed : Real).

(** [m] does on the changed world what it does on the original one. *)
Definition blind {A : Type} (m : M A) : Prop :=
  forall w : World, m (with_eb veb speed w) = rmap (with_eb veb speed) (m w).

Lemma blind_ret {A} (a : A) : blind (ret a).
Proof. intros w. reflexivity. Qed.

Lemma blind_bind {A B} (m : M A) (k : A -> M B) :
  blind m -> (forall a, blind (k a)) -> blind (m ≫= k).
Proof.
  intros Hm Hk w. unfold mbind, M_bind, bind. rewrite Hm.
  destruct (m w) as [a w'| |]; simpl; [apply Hk | reflexivity | reflexivity].
Qed.

(** Reading the object is harmless when what follows does not look at the
    two fields. *)
Lemma blind_get_bind {B} (k : DiffusionEquation -> M B) :
  (forall o, k (set_cyl_speed speed (set_vel_eb veb o)) = k o) ->
  (forall o, blind (k o)) -> blind (get ≫= k).
Proof.
  intros Hk Hb w. unfold mbind, M_bind, bind, get. cbn [self with_eb].
  rewrite Hk. apply Hb.
Qed.

Lemma blind_at {A} (v : list A) (i : nat) : blind (at_ v i).
Proof. intros w. unfold at_. destruct (v !! i); reflexivity. Qed.

Lemma blind_abort {A} : blind (@amrex_Abort A).
Proof. intros w. reflexivity. Qed.

Lemma blind_modify (f : DiffusionEquation -> DiffusionEquation) :
  (forall o, f (set_cyl_speed speed (set_vel_eb veb o)) =
             set_cyl_speed speed (set_vel_eb veb (f o))) ->
  blind (modify f).
Proof. intros Hf w. unfold modify, with_eb. cbn [self out rmap]. rewrite Hf. reflexivity. Qed.

Lemma blind_emit (e : Event) : blind (emit e).
Proof. intros w. reflexivity. Qed.

Lemma blind_matrix_call (e : Event) (f : LinOp -> LinOp) : blind (matrix_call e f).
Proof.
  unfold matrix_call. apply blind_bind; [|intros _; apply blind_emit].
  apply blind_modify. intros o. reflexivity.
Qed.

Lemma blind_when (c : bool) (m : M unit) : blind m -> blind (when c m).
Proof. destruct c; [auto | intros _; apply blind_ret]. Qed.

Lemma blind_for_acc {I A} (idx : list I) (body : I -> A -> M A) (a : A) :
  (forall i a, blind (body i a)) -> blind (for_acc idx body a).
Proof.
  intros Hbody. revert a. induction idx as [|i rest IH]; intros a.
  - apply blind_ret.
  - cbn [for_acc]. apply blind_bind; [apply Hbody | exact IH].
Qed.

End NotRead.

Ltac bstep :=
  lazymatch goal with
  | |- blind _ _ (get ≫= _) =>
      apply blind_get_bind; [intros ?; reflexivity | intros ?]
  | |- blind _ _ (_ ≫= _) => apply blind_bind; [|intros ?]
  | |- blind _ _ (at_ _ _) => apply blind_at
  | |- blind _ _ (ret _) => apply blind_ret
  | |- blind _ _ (mret _) => apply blind_ret
  | |- blind _ _ amrex_Abort => apply blind_abort
  | |- blind _ _ (when _ _) => apply blind_when
  | |- blind _ _ (amrex_Print _) => apply blind_emit
  | |- blind _ _ (emit _) => apply blind_emit
  | |- blind _ _ (modify _) => apply blind_modify; intros ?; reflexivity
  | |- blind _ _ (matrix_call _ _) => apply blind_matrix_call
  | |- blind _ _ (for_ _ _) => unfold for_; apply blind_for_acc; intros ? ?
  | |- blind _ _ (for_acc _ _ _) => apply blind_for_acc; intros ? ?
  end.

Lemma solve_blind
    (MLMG_ctor : LinOp -> MLMG)
    (MLMG_solve : LinOp -> MLMG -> list MultiFab -> list MultiFab -> Real -> Real ->
                  option (list (list Array4)))
    (vel_in ro_in eta_in : list MultiFab) (dt : Real)
    (veb : list MultiFab) (speed : Real) :
  blind veb speed (solve MLMG_ctor MLMG_solve vel_in ro_in eta_in dt).
Proof.
  unfold solve, refresh_coefficients, build_rhs, run_solver, copy_back.
  cbv zeta. repeat bstep.
  destruct (MLMG_solve _ _ _ _ _ _); bstep.
Qed.

(** Ready or not, [solve] makes no [setEBDirichlet] and no
    [setEBHomogDirichlet] call. *)
Lemma solve_makes_no_eb_dirichlet_call
    (MLMG_ctor : LinOp -> MLMG)
    (MLMG_solve : LinOp -> MLMG -> list MultiFab -> list MultiFab -> Real -> Real ->
                  option (list (list Array4)))
    (vel_in ro_in eta_in : list MultiFab) (dt : Real) (w : World) :
  match solve MLMG_ctor MLMG_solve vel_in ro_in eta_in dt w with
  | Normal _ w' | Aborted w' =>
      exists evs : list Event,
        out w' = out w ++ evs /\ List.filter is_eb_dirichlet evs = []
  | Undefined => True
  end.
Proof.
  pose proof (solve_preserves MLMG_ctor MLMG_solve vel_in ro_in eta_in dt w w
                (quiet_refl w)) as H.
  unfold triple in H.
  destruct (solve MLMG_ctor MLMG_solve vel_in ro_in eta_in dt w); exact H.
Qed.

(** C1, as the code has it.  Whatever the world, and whatever the rotation
    speed and the surface velocity buffer hold, [solve] does the same (run
    on a world where both are replaced, it has the same outcome, makes the
    same calls and leaves the same object, the two replaced fields apart,
    which it leaves as they are), and none of its calls is a
    [setEBDirichlet] or a [setEBHomogDirichlet].  But on an object whose
    vectors cover the levels up to [finestLevel], the operator it hands to
    the solver in its one solver call carries, on every level up to
    [finestLevel], the homogeneous Dirichlet condition on the embedded
    surface that [setEBShearViscosity] puts there, with the level's
    viscosity as coefficient (on the levels beyond it carries what it
    carried before): the surface is a wall at rest. *)
Theorem solve_ignores_surface_velocity
    (MLMG_ctor : LinOp -> MLMG)
    (MLMG_solve : LinOp -> MLMG -> list MultiFab -> list MultiFab -> Real -> Real ->
                  option (list (list Array4)))
    (vel_in ro_in eta_in : list MultiFab) (dt : Real) (w : World)
    (veb : list MultiFab) (speed : Real) :
  solve MLMG_ctor MLMG_solve vel_in ro_in eta_in dt (with_eb veb speed w) =
  rmap (with_eb veb speed) (solve MLMG_ctor MLMG_solve vel_in ro_in eta_in dt w) /\
  match solve MLMG_ctor MLMG_solve vel_in ro_in eta_in dt w with
  | Normal _ w' | Aborted w' =>
      exists evs : list Event,
        out w' = out w ++ evs /\ List.filter is_eb_dirichlet evs = []
  | Undefined => True
  end /\
  (solve_ready vel_in ro_in eta_in (self w) ->
   exists (w' : World) (evs : list Event) (op : LinOp) (mlmg : MLMG)
          (sol rhs_ : list MultiFab) (rtol atol : Real),
     ((exists vel', solve MLMG_ctor MLMG_solve vel_in ro_in eta_in dt w = Normal vel' w') \/
      solve MLMG_ctor MLMG_solve vel_in ro_in eta_in dt w = Aborted w') /\
     out w' = out w ++ evs /\
     List.filter is_eb_dirichlet evs = [] /\
     List.filter is_solver_call evs = [EvMLMGSolve op mlmg sol rhs_ rtol atol] /\
     (forall (lev : nat) (eta : MultiFab),
        Z.of_nat lev <= finestLevel (amrcore (self w)) -> eta_in !! lev = Some eta ->
        op_eb_dirichlet op lev = Some (None, eta)) /\
     (forall lev : nat, finestLevel (amrcore (self w)) < Z.of_nat lev ->
        op_eb_dirichlet op lev = op_eb_dirichlet (matrix (self w)) lev)).
Proof.
  split; [apply solve_blind|].
  split; [apply solve_makes_no_eb_dirichlet_call|].
  intros Hready.
  destruct (solve_outcome MLMG_ctor MLMG_solve vel_in ro_in eta_in dt w Hready)
    as (w2 & w' & post & Hprep & Hres & Hout & Hpost).
  destruct (prepared_log _ _ _ _ _ _ Hprep) as (evs & Hout2 & Hevs).
  destruct (prepared_eb_dirichlet _ _ _ _ _ _ Hprep) as (Hhom & Hrest).
  exists w', (EvSetScalars 1%float dt :: evs ++ solver_call MLMG_ctor (self w2) :: post),
    (matrix (self w2)), (solver_of MLMG_ctor (self w2)), (phi (self w2)), (rhs (self w2)),
    (mg_rtol (self w2)), (mg_atol (self w2)).
  split; [exact Hres|].
  split; [rewrite Hout, Hout2, <- app_assoc; reflexivity|].
  destruct Hevs as (_ & E2 & E3), Hpost as (_ & P2 & P3).
  split; [cbn [List.filter is_eb_dirichlet]; rewrite List.filter_app, E2;
          cbn [List.filter is_eb_dirichlet solver_call app]; exact P2|].
  split; [cbn [List.filter is_solver_call]; rewrite List.filter_app, E3;
          cbn [List.filter is_solver_call solver_call app]; rewrite P3; reflexivity|].
  split; [|exact Hrest].
  intros lev eta Hlev Heta.
  destruct (Hready lev Hlev) as (Hb & _ & _ & Hgeom & _ & Hro & _).
  apply Hhom; assumption.
Qed.

(** * The theorems on the small mesh *)

(** The object the constructor builds on the small mesh (the math library
    plays no part in what follows; any functions do). *)
Definition ex_object : DiffusionEquation :=
  match ex_ctor (fun x => x) (fun x => x) (fun y _ => y) with
  | Normal _ w => self w
  | _ => ex_blank
  end.

Definition ex_world : World := MkWorld ex_object [].

Definition ex_vel : list MultiFab :=
  [MkMultiFab [ex_box] 3 1
     [fun _ n => match n with O => 1%float | S O => 2%float | _ => 3%float end]].

Definition ex_ro : list MultiFab := [MkMultiFab [ex_box] 1 1 [fun _ _ => 2%float]].

Definition ex_eta : list MultiFab := [MkMultiFab [ex_box] 1 1 [fun _ _ => 0.5%float]].

Definition ex_dt : Real := 0.25%float.

Definition ex_MLMG_ctor : LinOp -> MLMG :=
  fun _ => MkMLMG bs_bicgstab 200 0 200 1 0 false.

(** A stand-in for the solver: it returns the right-hand side as the
    solution. *)
Definition ex_MLMG_solve :
  LinOp -> MLMG -> list MultiFab -> list MultiFab -> Real -> Real ->
  option (list (list Array4)) :=
  fun _ _ _ rhs_ _ _ => Some (map fabs rhs_).

(** The operators handed to the solver in the solver calls of a run. *)
Definition solver_operators {A : Type} (r : Result A) : list LinOp :=
  match r with
  | Normal _ w | Aborted w =>
      omap (fun e => match e with EvMLMGSolve op _ _ _ _ _ => Some op | _ => None end)
           (out w)
  | Undefined => []
  end.

Definition ex_run : Result (list MultiFab) :=
  solve ex_MLMG_ctor ex_MLMG_solve ex_vel ex_ro ex_eta ex_dt ex_world.

(** The small mesh made periodic in x, and a velocity with two ghost
    layers whose first component is 5 in cell (3,0,0) and 1 elsewhere. *)
Definition ex_geom_per : Geometry := MkGeometry ex_box (true, false, false).

Definition ex_amrcore_per : AmrCore := MkAmrCore 0 0 [ex_geom_per] [[ex_box]].

Definition ex_object_per : DiffusionEquation :=
  match ctor (fun x => x) (fun x => x) (fun y _ => y) ex_tiling ex_fresh ex_set_diff_bc
             ex_pp ex_amrcore_per ex_ebfactory ex_bc ex_bc ex_bc ex_bc ex_bc ex_bc 1
             ex_speed (MkWorld ex_blank []) with
  | Normal _ w => self w
  | _ => ex_blank
  end.

Definition ex_world_per : World := MkWorld ex_object_per [].

Definition ex_varr_wide : Array4 :=
  fun p n =>
    match n with
    | O => if iv_eqb p (3, 0, 0) then 5%float else 1%float
    | S O => 2%float
    | _ => 3%float
    end.

Definition ex_vel_wide : list MultiFab := [MkMultiFab [ex_box] 3 2 [ex_varr_wide]].

(** What a run leaves in the velocity it returns, at one level, patch,
    cell and component. *)
Definition stored_vel (r : Result (list MultiFab)) (lev i : nat) (p : IntVect) (n : nat)
    : option Real :=
  match r with
  | Normal vel _ =>
      mf ← vel !! lev;
      arr ← fabs mf !! i;
      Some (arr p n)
  | _ => None
  end.

Definition ex_run_per : Result (list MultiFab) :=
  solve ex_MLMG_ctor ex_MLMG_solve ex_vel_wide ex_ro ex_eta ex_dt ex_world_per.

Lemma ex_finest : finestLevel (amrcore (self ex_world)) = 0.
Proof. vm_compute. reflexivity. Defined.

Lemma ex_solve_ready : solve_ready ex_vel ex_ro ex_eta (self ex_world).
Proof.
  intros lev Hlev. rewrite ex_finest in Hlev. assert (lev = 0%nat) by lia. subst lev.
  repeat split; eexists; vm_compute; reflexivity.
Defined.

Lemma ex_finest_per : finestLevel (amrcore (self ex_world_per)) = 0.
Proof. vm_compute. reflexivity. Defined.

Lemma ex_solve_ready_per : solve_ready ex_vel_wide ex_ro ex_eta (self ex_world_per).
Proof.
  intros lev Hlev. rewrite ex_finest_per in Hlev. assert (lev = 0%nat) by lia. subst lev.
  repeat split; eexists; vm_compute; reflexivity.
Defined.

(** The theorem on the small mesh, with the surface velocity replaced by
    no buffer at all and the rotation speed by zero: the run is the same,
    it returns, none of its calls is a [setEBDirichlet] or a
    [setEBHomogDirichlet], and the operator of its one solver call carries
    the homogeneous condition with the viscosity passed for level 0. *)
Lemma solve_ignores_surface_velocity_witness :
  solve ex_MLMG_ctor ex_MLMG_solve ex_vel ex_ro ex_eta ex_dt
        (with_eb [] 0%float ex_world) =
  rmap (with_eb [] 0%float)
       (solve ex_MLMG_ctor ex_MLMG_solve ex_vel ex_ro ex_eta ex_dt ex_world) /\
  exists (w' : World) (evs : list Event) (op : LinOp) (mlmg : MLMG)
         (sol rhs_ : list MultiFab) (rtol atol : Real),
    (exists vel',
       solve ex_MLMG_ctor ex_MLMG_solve ex_vel ex_ro ex_eta ex_dt ex_world
       = Normal vel' w') /\
    out w' = out ex_world ++ evs /\
    List.filter is_eb_dirichlet evs = [] /\
    List.filter is_solver_call evs = [EvMLMGSolve op mlmg sol rhs_ rtol atol] /\
    op_eb_dirichlet op 0%nat
    = Some (None, MkMultiFab [ex_box] 1 1 [fun _ _ => 0.5%float]).
Proof.
  destruct (solve_ignores_surface_velocity ex_MLMG_ctor ex_MLMG_solve ex_vel ex_ro ex_eta
              ex_dt ex_world [] 0%float) as (Hsame & _ & Hop).
  split; [exact Hsame|].
  destruct (Hop ex_solve_ready)
    as (w' & evs & op & mlmg & sol & rhs_ & rtol & atol
        & Hres & Hout & Hno & Hcall & Hhom & _).
  exists w', evs, op, mlmg, sol, rhs_, rtol, atol.
  split.
  - destruct Hres as [Hn|Ha]; [exact Hn|].
    vm_compute in Ha. discriminate Ha.
  - split; [exact Hout|]. split; [exact Hno|]. split; [exact Hcall|].
    apply Hhom; [rewrite ex_finest; simpl; lia | reflexivity].
Defined.

(** C1, as stated, fails on the small mesh.  The object is built with
    rotation speed 2, and its operator carries no condition on the
    embedded surface.  [solve] makes one solver call, and the operator it
    hands over carries, on level 0, a Dirichlet condition on the embedded
    surface: the homogeneous one (surface value zero), with the viscosity
    passed for the level as coefficient, which line 200 puts there.  The
    surface is a wall at rest, not a flux boundary. *)
Lemma solve_puts_dirichlet_condition_on_surface :
  cyl_speed (self ex_world) = 2%float /\
  op_eb_dirichlet (matrix (self ex_world)) 0%nat = None /\
  (fun op => op_eb_dirichlet op 0%nat) <$> solver_operators ex_run
  = [Some (None, MkMultiFab [ex_box] 1 1 [fun _ _ => 0.5%float])] /\
  ~ Forall (fun op => op_eb_dirichlet op 0%nat = None) (solver_operators ex_run).
Proof.
  assert (H : (fun op => op_eb_dirichlet op 0%nat) <$> solver_operators ex_run
              = [Some (None, MkMultiFab [ex_box] 1 1 [fun _ _ => 0.5%float])])
    by (vm_compute; reflexivity).
  split; [vm_compute; reflexivity|]. split; [vm_compute; reflexivity|].
  split; [exact H|].
  intros HF.
  destruct (solver_operators ex_run) as [|op [|op' ops]]; try discriminate H.
  apply Forall_cons in HF as [H0 _].
  cbn [fmap list_fmap] in H. rewrite H0 in H. discriminate H.
Qed.

Lemma solve_configures_operator_witness :
  exists op : LinOp,
    op_scalars op = Some (1%float, ex_dt) /\
    op_acoeffs op 0%nat = ex_ro !! 0%nat /\ op_eb_shear_viscosity op 0%nat = ex_eta !! 0%nat.
Proof.
  destruct (solve_configures_operator ex_MLMG_ctor ex_MLMG_solve ex_vel ex_ro ex_eta
              ex_dt ex_world ex_solve_ready)
    as (w' & before & after & op & mlmg & sol & rhs_ & rtol & atol
        & _ & _ & _ & _ & _ & _ & Hsc & Hco).
  exists op. split; [exact Hsc|].
  assert (Hb : is_Some (b (self ex_world) !! 0%nat)) by (eexists; vm_compute; reflexivity).
  destruct Hb as [blev Hb].
  destruct (Hco 0%nat blev (MkMultiFab [ex_box] 1 1 [fun _ _ => 0.5%float])
              (MkGeometry ex_box (false, false, false))
              (MkMultiFab [ex_box] 1 1 [fun _ _ => 2%float]))
    as (Ha & _ & He); [rewrite ex_finest; simpl; lia | exact Hb | reflexivity
                       | vm_compute; reflexivity | reflexivity |].
  split; [exact Ha | exact He].
Defined.

Lemma solve_rhs_is_momentum_witness :
  exists (rhs_ : list MultiFab) (r' : MultiFab) (arr : Array4),
    rhs_ !! 0%nat = Some r' /\ fabs r' !! 0%nat = Some arr /\
    forall (p : IntVect) (c : nat), contains ex_box p = true -> (c < 3)%nat ->
      arr p c = PrimFloat.mul (match c with O => 1 | S O => 2 | _ => 3 end)%float 2%float.
Proof.
  destruct (solve_rhs_is_momentum ex_MLMG_ctor ex_MLMG_solve ex_vel ex_ro ex_eta
              ex_dt ex_world ex_solve_ready)
    as (w' & evs & op & mlmg & sol & rhs_ & rtol & atol & _ & _ & _ & Hrhs).
  destruct (Hrhs 0%nat (MultiFab_new ex_fresh [ex_box] 3 0 4 0)
              (MkMultiFab [ex_box] 3 1
                 [fun _ n => match n with O => 1%float | S O => 2%float | _ => 3%float end])
              (MkMultiFab [ex_box] 1 1 [fun _ _ => 2%float])
              0%nat ex_box (ex_fresh 4%nat 0%nat 0%nat)
              (fun _ n => match n with O => 1%float | S O => 2%float | _ => 3%float end)
              (fun _ _ => 2%float))
    as (r' & arr & H1 & H2 & H3);
    [rewrite ex_finest; simpl; lia | vm_compute; reflexivity | reflexivity | reflexivity
     | simpl; lia | reflexivity | reflexivity | reflexivity | reflexivity |].
  exists rhs_, r', arr. auto.
Defined.

Lemma ex_solver_returns (o : DiffusionEquation) :
  solver_result ex_MLMG_ctor ex_MLMG_solve o <> None.
Proof. unfold solver_result, ex_MLMG_solve. discriminate. Defined.

Lemma solve_overwrites_velocity_witness :
  exists (vel' : list MultiFab) (w' : World),
    solve ex_MLMG_ctor ex_MLMG_solve ex_vel ex_ro ex_eta ex_dt ex_world = Normal vel' w' /\
    length vel' = length ex_vel.
Proof.
  pose proof (solve_overwrites_velocity ex_MLMG_ctor ex_MLMG_solve ex_vel ex_ro ex_eta
                ex_dt ex_world ex_solve_ready) as H.
  destruct (solve ex_MLMG_ctor ex_MLMG_solve ex_vel ex_ro ex_eta ex_dt ex_world)
    as [vel' w'|w'|].
  - destruct H as (w2 & sol & _ & _ & Hlen & _). exists vel', w'. auto.
  - destruct H as (w2 & _ & Hnone). destruct (ex_solver_returns _ Hnone).
  - destruct H.
Defined.

(** The theorem on the periodic mesh, at the ghost cell (-1,0,0), whose
    periodic image is the valid cell (3,0,0): the velocity returned holds
    there, in the three components, the solver's value of cell (3,0,0)
    (10 in component 0); at the ghost cell (-2,0,0), outside the valid box
    grown by one cell, it holds what the caller passed. *)
Lemma solve_copies_back_with_halo_witness :
  exists (vel' : list MultiFab) (w' : World) (v' : MultiFab) (arr fj : Array4),
    solve ex_MLMG_ctor ex_MLMG_solve ex_vel_wide ex_ro ex_eta ex_dt ex_world_per
    = Normal vel' w' /\
    vel' !! 0%nat = Some v' /\ fabs v' !! 0%nat = Some arr /\
    fj (3, 0, 0) 0%nat = 10%float /\
    (forall c : nat, (c < 3)%nat -> arr (-1, 0, 0) c = fj (3, 0, 0) c) /\
    (forall c : nat, arr (-2, 0, 0) c = ex_varr_wide (-2, 0, 0) c).
Proof.
  pose proof (solve_copies_back_with_halo ex_MLMG_ctor ex_MLMG_solve ex_vel_wide ex_ro
                ex_eta ex_dt ex_world_per ex_solve_ready_per) as H.
  destruct (solve ex_MLMG_ctor ex_MLMG_solve ex_vel_wide ex_ro ex_eta ex_dt ex_world_per)
    as [vel' w'|w'|].
  - destruct H as (w2 & sol & Hprep & Hsol & Hlev).
    destruct (prepared_buffers _ _ _ _ _ _ Hprep 0%nat
                (MultiFab_new ex_fresh [ex_box] 3 0 4 0)
                (MkMultiFab [ex_box] 3 2 [ex_varr_wide])
                (MkMultiFab [ex_box] 1 1 [fun _ _ => 2%float])
                (MultiFab_new ex_fresh [ex_box] 3 1 3 0)
                ex_geom_per) as (Hrhs & _);
      [rewrite ex_finest_per; simpl; lia | vm_compute; reflexivity | reflexivity
       | reflexivity | vm_compute; reflexivity | vm_compute; reflexivity |].
    unfold solver_result, ex_MLMG_solve in Hsol. inversion Hsol as [Hs]. clear Hsol.
    set (r' := rhs_of (MultiFab_new ex_fresh [ex_box] 3 0 4 0)
                      (MkMultiFab [ex_box] 3 2 [ex_varr_wide])
                      (MkMultiFab [ex_box] 1 1 [fun _ _ => 2%float])) in *.
    assert (Hfj : is_Some (fabs r' !! 0%nat)) by (eexists; vm_compute; reflexivity).
    destruct Hfj as [fj Hfj].
    destruct (Hlev 0%nat (MkMultiFab [ex_box] 3 2 [ex_varr_wide])
                (MultiFab_new ex_fresh [ex_box] 3 1 3 0) ex_geom_per (fabs r'))
      as (sb & v' & _ & _ & _ & _ & Hv' & Hpatch);
      [rewrite ex_finest_per; simpl; lia | reflexivity | vm_compute; reflexivity
       | vm_compute; reflexivity
       | rewrite <- Hs; change ((fabs <$> rhs (self w2)) !! 0%nat = Some (fabs r'));
         rewrite list_lookup_fmap, Hrhs; reflexivity |].
    destruct (Hpatch 0%nat ex_box ex_varr_wide fj)
      as (arr & parr & Harr & _ & _ & Hsrc & Hout);
      [reflexivity | reflexivity | reflexivity | exact Hfj |].
    exists vel', w', v', arr, fj.
    split; [reflexivity|]. split; [exact Hv'|]. split; [exact Harr|].
    split; [|split].
    + vm_compute in Hfj. inversion Hfj. vm_compute. reflexivity.
    + intros c Hc.
      apply (Hsrc (-1, 0, 0) c 0%nat (3, 0, 0) fj);
        [reflexivity | reflexivity | simpl; lia | exact Hc | vm_compute; reflexivity
         | exact Hfj].
    + intros c. apply Hout. left. reflexivity.
  - destruct H as (w2 & _ & Hnone). destruct (ex_solver_returns _ Hnone).
  - destruct H.
Defined.

Lemma float_1_ne_2 : 1%float <> 2%float.
Proof.
  intros H. apply (f_equal (fun x => PrimFloat.eqb x 2%float)) in H.
  vm_compute in H. discriminate.
Qed.

(** C10, as stated, fails on the periodic mesh when the caller's velocity
    has two ghost layers.  The stand-in solver returns the right-hand
    side, so the solution is 10 in component 0 of cell (3,0,0) and 2 in
    the other cells.  The ghost cell (-1,0,0), the periodic image of
    (3,0,0), holds 10 after [solve], as the claim says.  The ghost cell
    (-2,0,0), the periodic image of (2,0,0), still holds the 1 the caller
    passed, where the returned solution has 2 in cell (2,0,0): the copy of
    line 254 goes one ghost cell deep. *)
Lemma velocity_outer_ghost_layer_not_updated :
  fb_source [ex_box] (shiftIntVect (periodicity ex_geom_per)) (-1, 0, 0)
    = Some (0%nat, (3, 0, 0)) /\
  fb_source [ex_box] (shiftIntVect (periodicity ex_geom_per)) (-2, 0, 0)
    = Some (0%nat, (2, 0, 0)) /\
  stored_vel ex_run_per 0 0 (3, 0, 0) 0 = Some 10%float /\
  stored_vel ex_run_per 0 0 (-1, 0, 0) 0 = Some 10%float /\
  stored_vel ex_run_per 0 0 (2, 0, 0) 0 = Some 2%float /\
  stored_vel ex_run_per 0 0 (-2, 0, 0) 0 = Some 1%float /\
  stored_vel ex_run_per 0 0 (-2, 0, 0) 0 <> stored_vel ex_run_per 0 0 (2, 0, 0) 0.
Proof.
  assert (H2 : stored_vel ex_run_per 0 0 (2, 0, 0) 0 = Some 2%float)
    by (vm_compute; reflexivity).
  assert (H1 : stored_vel ex_run_per 0 0 (-2, 0, 0) 0 = Some 1%float)
    by (vm_compute; reflexivity).
  split; [vm_compute; reflexivity|]. split; [vm_compute; reflexivity|].
  split; [vm_compute; reflexivity|]. split; [vm_compute; reflexivity|].
  split; [exact H2|]. split; [exact H1|].
  rewrite H1, H2. intros E. apply float_1_ne_2. congruence.
Qed.

Lemma refresh_coefficients_idempotent_witness :
  exists w1 w2 : World,
    refresh_coefficients ex_ro ex_eta ex_dt ex_world = Normal tt w1 /\
    refresh_coefficients ex_ro ex_eta ex_dt w1 = Normal tt w2 /\
    self w2 = self w1.
Proof.
  apply (refresh_coefficients_idempotent ex_ro ex_eta ex_dt ex_world).
  apply (solve_ready_refresh ex_vel). exact ex_solve_ready.
Defined.

Lemma setSolverSettings_spec_witness :
  bottom_solver (setSolverSettings ex_object (ex_MLMG_ctor LinOp_blank)) = bs_bicgstab /\
  max_iters (setSolverSettings ex_object (ex_MLMG_ctor LinOp_blank)) = 100.
Proof.
  destruct (setSolverSettings_spec ex_object (ex_MLMG_ctor LinOp_blank))
    as (_ & _ & Hkeep & Hmax & _).
  split.
  - apply Hkeep; vm_compute; discriminate.
  - rewrite Hmax. vm_compute. reflexivity.
Defined.

(** * What the fill never writes *)

Lemma lookup_MultiFab_new (fresh : nat -> nat -> nat -> Array4) (ba : list Box)
    (ncomp : nat) (ngrow : Z) (site lev i : nat) :
  (i < length ba)%nat ->
  fabs (MultiFab_new fresh ba ncomp ngrow site lev) !! i = Some (fresh site lev i).
Proof.
  intros Hi. unfold MultiFab_new. cbn [fabs].
  rewrite list_lookup_fmap, lookup_seq_lt by exact Hi. reflexivity.
Qed.

(** After construction, every component from 2 on of the embedded-surface
    velocity still holds what the fresh memory held, in every patch and
    cell: no branch of the fill assigns it. *)
Lemma ctor_leaves_third_component
    (sin cos : Real -> Real) (atan2 : Real -> Real -> Real)
    (tiling : MultiFab -> list (nat * Box)) (fresh : nat -> nat -> nat -> Array4)
    (set_diff_bc : Box -> Z -> IArrayBox -> IArrayBox -> IArrayBox -> IArrayBox ->
                   IArrayBox -> IArrayBox -> Array3 Z * Array3 Z)
    (pp : ParmParse) (_amrcore : AmrCore) (_ebfactory : list EBFArrayBoxFactory)
    (bc_ilo bc_ihi bc_jlo bc_jhi bc_klo bc_khi : list IArrayBox)
    (_nghost : Z) (_cyl_speed : Real) (w : World) :
  ctor_ready tiling fresh _amrcore _ebfactory
             bc_ilo bc_ihi bc_jlo bc_jhi bc_klo bc_khi _nghost ->
  exists w',
    ctor sin cos atan2 tiling fresh set_diff_bc pp _amrcore _ebfactory
         bc_ilo bc_ihi bc_jlo bc_jhi bc_klo bc_khi _nghost _cyl_speed w
    = Normal tt w' /\
    forall (lev : nat) (ba : list Box) (i : nat),
      Z.of_nat lev <= maxLevel _amrcore -> grids _amrcore !! lev = Some ba ->
      (i < length ba)%nat ->
      exists (mf : MultiFab) (arr : Array4),
        vel_eb (self w') !! lev = Some mf /\ fabs mf !! i = Some arr /\
        forall (p : IntVect) (n : nat), (2 <= n)%nat -> arr p n = fresh 5%nat lev i p n.
Proof.
  intros Hready.
  pose proof (ctor_run sin cos atan2 tiling fresh set_diff_bc pp _amrcore _ebfactory
                bc_ilo bc_ihi bc_jlo bc_jhi bc_klo bc_khi _nghost _cyl_speed w Hready)
    as Hrun.
  unfold triple in Hrun.
  destruct (ctor sin cos atan2 tiling fresh set_diff_bc pp _amrcore _ebfactory
              bc_ilo bc_ihi bc_jlo bc_jhi bc_klo bc_khi _nghost _cyl_speed w)
    as [[] w'| |]; try contradiction.
  exists w'. split; [reflexivity|].
  destruct Hrun as (_ & _ & _ & _ & Hpost).
  destruct Hready as (_ & _ & _ & _ & _ & _ & _ & Hlev).
  intros lev ba i Hl Hba Hi.
  destruct (Hlev lev Hl) as (ba' & fact & Hba' & Hfact & _).
  assert (ba' = ba) by congruence. subst ba'.
  destruct (Hpost lev ba fact Hl Hba Hfact) as (_ & _ & HV).
  set (mf0 := MultiFab_new fresh ba 3 _nghost 5 lev) in *.
  pose proof (lookup_MultiFab_new fresh ba 3 _nghost 5 lev i Hi) as H0. fold mf0 in H0.
  destruct (tiles_effect_layout sin cos atan2 _cyl_speed fact (tiling mf0) mf0)
    as (_ & _ & _ & Hlen).
  assert (Hsome : is_Some (fabs (tiles_effect sin cos atan2 _cyl_speed fact
                                   (tiling mf0) mf0) !! i)).
  { apply lookup_lt_is_Some. rewrite Hlen. apply lookup_lt_is_Some. eauto. }
  destruct Hsome as [arr Harr].
  eexists _, arr. split; [exact HV|]. split; [exact Harr|].
  intros p n Hn.
  exact (tiles_effect_high_comps sin cos atan2 _cyl_speed fact (tiling mf0) mf0 i _ arr p n
           H0 Harr Hn).
Qed.

(** * The constructed object, field by field *)

(** What [readParameters] leaves in the ten tunables of [o']: the entry of
    the input where it has one, otherwise what [o] held. *)
Definition parameters_read (pp : ParmParse) (o o' : DiffusionEquation) : Prop :=
  verbose o' = default (verbose o) (pp_int pp "verbose") /\
  mg_verbose o' = default (mg_verbose o) (pp_int pp "mg_verbose") /\
  mg_cg_verbose o' = default (mg_cg_verbose o) (pp_int pp "mg_cg_verbose") /\
  mg_max_iter o' = default (mg_max_iter o) (pp_int pp "mg_max_iter") /\
  mg_cg_maxiter o' = default (mg_cg_maxiter o) (pp_int pp "mg_cg_maxiter") /\
  mg_max_fmg_iter o' = default (mg_max_fmg_iter o) (pp_int pp "mg_max_fmg_iter") /\
  mg_max_coarsening_level o' =
    default (mg_max_coarsening_level o) (pp_int pp "mg_max_coarsening_level") /\
  mg_rtol o' = default (mg_rtol o) (pp_real pp "mg_rtol") /\
  mg_atol o' = default (mg_atol o) (pp_real pp "mg_atol") /\
  bottom_solver_type o' =
    default (bottom_solver_type o) (pp_string pp "bottom_solver_type").

Section CtorFields.

Variables (sin cos : Real -> Real) (atan2 : Real -> Real -> Real).
Variable tiling : MultiFab -> list (nat * Box).
Variable fresh : nat -> nat -> nat -> Array4.
Variable set_diff_bc :
  Box -> Z -> IArrayBox -> IArrayBox -> IArrayBox -> IArrayBox -> IArrayBox ->
  IArrayBox -> Array3 Z * Array3 Z.

(** The object [o'] the constructor leaves when it runs on [o]; [bcs] are
    the two tables [set_diff_bc] returned. *)
Definition constructed (pp : ParmParse) (_amrcore : AmrCore)
    (_ebfactory : list EBFArrayBoxFactory) (bcs : Array3 Z * Array3 Z)
    (_nghost : Z) (_cyl_speed : Real) (o o' : DiffusionEquation) : Prop :=
  parameters_read pp o o' /\
  amrcore o' = _amrcore /\ ebfactory o' = _ebfactory /\ nghost o' = _nghost /\
  cyl_speed o' = _cyl_speed /\ bc_lo o' = bcs.1 /\ bc_hi o' = bcs.2 /\
  matrix o' =
    LinOp_setDomainBC bcs.1 bcs.2
      (LinOp_setMaxOrder 3
         (LinOp_define (Geom _amrcore) (grids _amrcore) (mg_max_coarsening_level o')
            (matrix o))) /\
  length (b o') = Z.to_nat (maxLevel _amrcore + 1) /\
  length (phi o') = Z.to_nat (maxLevel _amrcore + 1) /\
  length (rhs o') = Z.to_nat (maxLevel _amrcore + 1) /\
  length (vel_eb o') = Z.to_nat (maxLevel _amrcore + 1) /\
  forall (lev : nat) (ba : list Box) (fact : EBFArrayBoxFactory),
    Z.of_nat lev <= maxLevel _amrcore ->
    grids _amrcore !! lev = Some ba -> _ebfactory !! lev = Some fact ->
    b o' !! lev =
      Some (MultiFab_new fresh (map (fun bx => surroundingNodes bx 0) ba) 1 _nghost 0 lev,
            MultiFab_new fresh (map (fun bx => surroundingNodes bx 1) ba) 1 _nghost 1 lev,
            MultiFab_new fresh (map (fun bx => surroundingNodes bx 2) ba) 1 _nghost 2 lev) /\
    phi o' !! lev = Some (MultiFab_new fresh ba 3 1 3 lev) /\
    rhs o' !! lev = Some (MultiFab_new fresh ba 3 0 4 lev) /\
    vel_eb o' !! lev =
      Some (tiles_effect sin cos atan2 _cyl_speed fact
              (tiling (MultiFab_new fresh ba 3 _nghost 5 lev))
              (MultiFab_new fresh ba 3 _nghost 5 lev)).

(** The constructor returns; it has printed its message when the verbosity
    read from the input is positive, and nothing else. *)
Lemma ctor_run_fields (pp : ParmParse) (_amrcore : AmrCore)
    (_ebfactory : list EBFArrayBoxFactory)
    (bc_ilo bc_ihi bc_jlo bc_jhi bc_klo bc_khi : list IArrayBox)
    (_nghost : Z) (_cyl_speed : Real) (w : World)
    (g0 : Geometry) (ilo ihi jlo jhi klo khi : IArrayBox) :
  ctor_ready tiling fresh _amrcore _ebfactory bc_ilo bc_ihi bc_jlo bc_jhi bc_klo bc_khi
             _nghost ->
  Geom _amrcore !! 0%nat = Some g0 ->
  bc_ilo !! 0%nat = Some ilo -> bc_ihi !! 0%nat = Some ihi ->
  bc_jlo !! 0%nat = Some jlo -> bc_jhi !! 0%nat = Some jhi ->
  bc_klo !! 0%nat = Some klo -> bc_khi !! 0%nat = Some khi ->
  triple (ctor sin cos atan2 tiling fresh set_diff_bc pp _amrcore _ebfactory
               bc_ilo bc_ihi bc_jlo bc_jhi bc_klo bc_khi _nghost _cyl_speed) w
         (fun _ w' =>
            out w' =
              out w ++ print_if (0 <? verbose (self w'))
                                "Constructing DiffusionEquation class" /\
            constructed pp _amrcore _ebfactory
              (set_diff_bc (Domain g0) _nghost ilo ihi jlo jhi klo khi)
              _nghost _cyl_speed (self w) (self w'))
         (fun _ => False) False.
Proof.
  intros (_ & _ & _ & _ & _ & _ & _ & Hlev) Hg0 Hilo Hihi Hjlo Hjhi Hklo Hkhi.
  unfold ctor, readParameters. cbv zeta.
  do 5 tstep. apply triple_when_print. cbn [self out]. onorm.
  repeat tstep. cbn [self out]. onorm.
  (eapply triple_conseq; [apply allocate_run | | auto]);
    [ intros lev Hl; destruct (Hlev lev Hl) as (ba & fact & Hba & Hfact & _);
      cbn [self ebfactory]; rewrite Hba, Hfact; split; eauto | ].
  intros [] w1 (Hout1 & B & P & R & V & Hself1 & HlB & HlP & HlR & HlV & Halloc).
  onorm. tstep.
  (eapply triple_conseq; [apply fill_vel_eb_run | | auto]);
    [ intros lev Hl; destruct (Hlev lev Hl) as (ba & fact & Hba & Hfact & Hok);
      destruct (Halloc lev ba Hl Hba) as (_ & _ & _ & HV);
      rewrite Hself1; onorm;
      exists fact, (MultiFab_new fresh ba 3 _nghost 5 lev);
      rewrite length_MultiFab_new; auto | ].
  intros [] w2 (Hout2 & V' & Hself2 & HlV' & _ & Hfilled).
  rewrite Hself1 in Hself2, Hfilled, HlV'. onorm.
  tstep. unfold constructed, parameters_read. onorm. rewrite Hself2. onorm.
  split; [rewrite Hout2, Hout1; reflexivity|].
  split; [repeat split|].
  do 7 (split; [reflexivity|]).
  do 3 (split; [assumption|]). split; [congruence|].
  intros lev ba fact Hl Hba Hfact.
  destruct (Halloc lev ba Hl Hba) as (HB & HP & HR & HV).
  do 3 (split; [assumption|]).
  apply Hfilled; [exact Hl | exact Hfact | exact HV].
Qed.

End CtorFields.

(** * The fill, cell by cell *)

Section FillCells.

Variables (sin cos : Real -> Real) (atan2 : Real -> Real -> Real).
Variables (speed : Real) (fact : EBFArrayBoxFactory).

(** What a tile stores in a cell depends on the array only through the
    entry it overwrites. *)
Lemma tile_effect_local (tile : nat * Box) (arr arr' : Array4) (p : IntVect) (n : nat) :
  arr p n = arr' p n ->
  tile_effect sin cos atan2 speed fact tile arr p n =
  tile_effect sin cos atan2 speed fact tile arr' p n.
Proof.
  intros H. unfold tile_effect.
  destruct (getMultiEBCellFlagFab fact !! tile.1) as [flags|]; [|exact H].
  destruct (is_covered_or_regular (getType flags tile.2)).
  - unfold setVal. rewrite H. reflexivity.
  - destruct (getBndryNormal fact !! tile.1) as [nrm|]; [|exact H].
    rewrite !fill_cut_cells_spec, H. reflexivity.
Qed.

(** A cell that no tile of its patch contains keeps its content. *)
Lemma tiles_effect_untouched (ts : list (nat * Box)) (mf : MultiFab) (i : nat)
    (arr0 arr : Array4) (p : IntVect) (n : nat) :
  fabs mf !! i = Some arr0 ->
  fabs (tiles_effect sin cos atan2 speed fact ts mf) !! i = Some arr ->
  (forall bx, (i, bx) ∈ ts -> contains bx p = false) ->
  arr p n = arr0 p n.
Proof.
  revert arr.
  induction ts as [|t ts IH] using rev_ind; intros arr H0 H Hout.
  - unfold tiles_effect in H. simpl in H. congruence.
  - rewrite tiles_effect_snoc in H. unfold tile_step in H.
    assert (Hpre : forall bx, (i, bx) ∈ ts -> contains bx p = false).
    { intros bx Hin. apply Hout. apply elem_of_app. left. exact Hin. }
    destruct (fabs (tiles_effect sin cos atan2 speed fact ts mf) !! t.1) as [arr_t|] eqn:Ht;
      [|eauto].
    simpl in H. destruct (decide (i = t.1)) as [->|NE].
    + rewrite list_lookup_insert_eq in H by (apply lookup_lt_is_Some; eauto).
      inversion H; subst. rewrite tile_effect_outside.
      * eauto.
      * apply Hout. apply elem_of_app. right. apply list_elem_of_singleton.
        destruct t; reflexivity.
    + rewrite list_lookup_insert_ne in H by congruence. eauto.
Qed.

(** With disjoint tiles, a cell of a tile holds what that tile stored. *)
Lemma tiles_effect_at_tile (ts : list (nat * Box)) (mf : MultiFab) (i : nat) (bx : Box)
    (arr0 arr : Array4) (p : IntVect) (n : nat) :
  fabs mf !! i = Some arr0 ->
  fabs (tiles_effect sin cos atan2 speed fact ts mf) !! i = Some arr ->
  tiles_disjoint ts = true -> (i, bx) ∈ ts -> contains bx p = true ->
  arr p n = tile_effect sin cos atan2 speed fact (i, bx) arr0 p n.
Proof.
  revert arr.
  induction ts as [|t ts IH] using rev_ind; intros arr H0 H Hdisj Hin Hp.
  - inversion Hin.
  - rewrite tiles_effect_snoc in H. unfold tile_step in H.
    destruct (tiles_effect_layout sin cos atan2 speed fact ts mf) as (_ & _ & _ & Hlen).
    assert (Hi : is_Some (fabs (tiles_effect sin cos atan2 speed fact ts mf) !! i)).
    { apply lookup_lt_is_Some. rewrite Hlen. apply lookup_lt_is_Some. eauto. }
    destruct Hi as [prev Hprev].
    apply elem_of_app in Hin as [Hin|Hin].
    + assert (Hprevval : prev p n = tile_effect sin cos atan2 speed fact (i, bx) arr0 p n).
      { apply IH; auto. eapply tiles_disjoint_snoc; eauto. }
      destruct (fabs (tiles_effect sin cos atan2 speed fact ts mf) !! t.1) as [arr_t|] eqn:Ht;
        [|congruence].
      simpl in H. destruct (decide (i = t.1)) as [E|NE].
      * rewrite <- E in Ht. rewrite <- E in H.
        rewrite list_lookup_insert_eq in H by (apply lookup_lt_is_Some; eauto).
        inversion H; subst arr. assert (arr_t = prev) by congruence. subst arr_t.
        rewrite tile_effect_outside; [exact Hprevval|].
        apply (tiles_disjoint_app ts t [] Hdisj (i, bx) p Hin); [exact E | exact Hp].
      * rewrite list_lookup_insert_ne in H by congruence. congruence.
    + apply list_elem_of_singleton in Hin. subst t. cbn [fst snd] in H.
      rewrite Hprev in H. simpl in H.
      rewrite list_lookup_insert_eq in H by (apply lookup_lt_is_Some; eauto).
      inversion H; subst arr. apply tile_effect_local.
      apply (tiles_effect_untouched ts mf i arr0 prev p n H0 Hprev).
      intros bx' Hin'.
      destruct (contains bx' p) eqn:E; [|reflexivity].
      pose proof (tiles_disjoint_app ts (i, bx) [] Hdisj (i, bx') p Hin' eq_refl E) as Hc.
      simpl in Hc. congruence.
Qed.

End FillCells.

Section CtorCells.

Variables (sin cos : Real -> Real) (atan2 : Real -> Real -> Real).
Variable tiling : MultiFab -> list (nat * Box).
Variable fresh : nat -> nat -> nat -> Array4.
Variable set_diff_bc :
  Box -> Z -> IArrayBox -> IArrayBox -> IArrayBox -> IArrayBox -> IArrayBox ->
  IArrayBox -> Array3 Z * Array3 Z.

(** The constructor returns, and patch [i] of the embedded-surface
    velocity of a level is the fresh array after the tiles of the level
    have been applied. *)
Lemma ctor_vel_eb_patch (pp : ParmParse) (_amrcore : AmrCore)
    (_ebfactory : list EBFArrayBoxFactory)
    (bc_ilo bc_ihi bc_jlo bc_jhi bc_klo bc_khi : list IArrayBox)
    (_nghost : Z) (_cyl_speed : Real) (w : World) :
  ctor_ready tiling fresh _amrcore _ebfactory bc_ilo bc_ihi bc_jlo bc_jhi bc_klo bc_khi
             _nghost ->
  exists w',
    ctor sin cos atan2 tiling fresh set_diff_bc pp _amrcore _ebfactory
         bc_ilo bc_ihi bc_jlo bc_jhi bc_klo bc_khi _nghost _cyl_speed w
    = Normal tt w' /\
    forall (lev : nat) (ba : list Box) (fact : EBFArrayBoxFactory) (i : nat),
      Z.of_nat lev <= maxLevel _amrcore -> grids _amrcore !! lev = Some ba ->
      _ebfactory !! lev = Some fact -> (i < length ba)%nat ->
      exists arr : Array4,
        vel_eb (self w') !! lev =
          Some (tiles_effect sin cos atan2 _cyl_speed fact
                  (tiling (MultiFab_new fresh ba 3 _nghost 5 lev))
                  (MultiFab_new fresh ba 3 _nghost 5 lev)) /\
        fabs (tiles_effect sin cos atan2 _cyl_speed fact
                (tiling (MultiFab_new fresh ba 3 _nghost 5 lev))
                (MultiFab_new fresh ba 3 _nghost 5 lev)) !! i = Some arr /\
        fabs (MultiFab_new fresh ba 3 _nghost 5 lev) !! i = Some (fresh 5%nat lev i).
Proof.
  intros Hready.
  pose proof (ctor_run sin cos atan2 tiling fresh set_diff_bc pp _amrcore _ebfactory
                bc_ilo bc_ihi bc_jlo bc_jhi bc_klo bc_khi _nghost _cyl_speed w Hready)
    as Hrun.
  unfold triple in Hrun.
  destruct (ctor sin cos atan2 tiling fresh set_diff_bc pp _amrcore _ebfactory
              bc_ilo bc_ihi bc_jlo bc_jhi bc_klo bc_khi _nghost _cyl_speed w)
    as [[] w'| |]; try contradiction.
  exists w'. split; [reflexivity|].
  destruct Hrun as (_ & _ & _ & _ & Hpost).
  intros lev ba fact i Hl Hba Hfact Hi.
  destruct (Hpost lev ba fact Hl Hba Hfact) as (_ & _ & HV).
  set (mf0 := MultiFab_new fresh ba 3 _nghost 5 lev) in *.
  pose proof (lookup_MultiFab_new fresh ba 3 _nghost 5 lev i Hi) as H0. fold mf0 in H0.
  destruct (tiles_effect_layout sin cos atan2 _cyl_speed fact (tiling mf0) mf0)
    as (_ & _ & _ & Hlen).
  assert (Hsome : is_Some (fabs (tiles_effect sin cos atan2 _cyl_speed fact
                                   (tiling mf0) mf0) !! i)).
  { apply lookup_lt_is_Some. rewrite Hlen. apply lookup_lt_is_Some. eauto. }
  destruct Hsome as [arr Harr].
  exists arr. auto.
Qed.

End CtorCells.

(** X4. The constructor's fill writes tiles only: a cell of a patch of the
    embedded-surface velocity that no tile of the patch contains (a ghost
    cell, for one) holds in every component what the allocation left
    there. *)
Theorem ctor_never_writes_outside_tiles
    (sin cos : Real -> Real) (atan2 : Real -> Real -> Real)
    (tiling : MultiFab -> list (nat * Box)) (fresh : nat -> nat -> nat -> Array4)
    (set_diff_bc : Box -> Z -> IArrayBox -> IArrayBox -> IArrayBox -> IArrayBox ->
                   IArrayBox -> IArrayBox -> Array3 Z * Array3 Z)
    (pp : ParmParse) (_amrcore : AmrCore) (_ebfactory : list EBFArrayBoxFactory)
    (bc_ilo bc_ihi bc_jlo bc_jhi bc_klo bc_khi : list IArrayBox)
    (_nghost : Z) (_cyl_speed : Real) (w : World) :
  ctor_ready tiling fresh _amrcore _ebfactory
             bc_ilo bc_ihi bc_jlo bc_jhi bc_klo bc_khi _nghost ->
  exists w',
    ctor sin cos atan2 tiling fresh set_diff_bc pp _amrcore _ebfactory
         bc_ilo bc_ihi bc_jlo bc_jhi bc_klo bc_khi _nghost _cyl_speed w
    = Normal tt w' /\
    forall (lev : nat) (ba : list Box) (i : nat),
      Z.of_nat lev <= maxLevel _amrcore -> grids _amrcore !! lev = Some ba ->
      (i < length ba)%nat ->
      exists (mf : MultiFab) (arr : Array4),
        vel_eb (self w') !! lev = Some mf /\ fabs mf !! i = Some arr /\
        forall p : IntVect,
          (forall bx : Box,
             (i, bx) ∈ tiling (MultiFab_new fresh ba 3 _nghost 5 lev) ->
             contains bx p = false) ->
          forall n : nat, arr p n = fresh 5%nat lev i p n.
Proof.
  intros Hready.
  destruct (ctor_vel_eb_patch sin cos atan2 tiling fresh set_diff_bc pp _amrcore
              _ebfactory bc_ilo bc_ihi bc_jlo bc_jhi bc_klo bc_khi _nghost _cyl_speed w
              Hready) as (w' & Hrun & Hpatch).
  exists w'. split; [exact Hrun|].
  destruct Hready as (_ & _ & _ & _ & _ & _ & _ & Hlev).
  intros lev ba i Hl Hba Hi.
  destruct (Hlev lev Hl) as (ba' & fact & Hba' & Hfact & _).
  assert (ba' = ba) by congruence. subst ba'.
  destruct (Hpatch lev ba fact i Hl Hba Hfact Hi) as (arr & HV & Harr & H0).
  eexists _, arr. split; [exact HV|]. split; [exact Harr|].
  intros p Hout n.
  exact (tiles_effect_untouched sin cos atan2 _cyl_speed fact _ _ i _ arr p n H0 Harr Hout).
Qed.

(** X5. In a tile whose cells are all regular or all covered the
    constructor writes component 0 only ([setVal(0.0, bx)] sets one
    component): with disjoint tiles, every other component of every cell
    of the tile holds what the allocation left there. *)
Theorem ctor_regular_tile_sets_one_component
    (sin cos : Real -> Real) (atan2 : Real -> Real -> Real)
    (tiling : MultiFab -> list (nat * Box)) (fresh : nat -> nat -> nat -> Array4)
    (set_diff_bc : Box -> Z -> IArrayBox -> IArrayBox -> IArrayBox -> IArrayBox ->
                   IArrayBox -> IArrayBox -> Array3 Z * Array3 Z)
    (pp : ParmParse) (_amrcore : AmrCore) (_ebfactory : list EBFArrayBoxFactory)
    (bc_ilo bc_ihi bc_jlo bc_jhi bc_klo bc_khi : list IArrayBox)
    (_nghost : Z) (_cyl_speed : Real) (w : World) :
  ctor_ready tiling fresh _amrcore _ebfactory
             bc_ilo bc_ihi bc_jlo bc_jhi bc_klo bc_khi _nghost ->
  (forall (lev : nat) (ba : list Box),
     Z.of_nat lev <= maxLevel _amrcore -> grids _amrcore !! lev = Some ba ->
     tiles_disjoint (tiling (MultiFab_new fresh ba 3 _nghost 5 lev)) = true) ->
  exists w',
    ctor sin cos atan2 tiling fresh set_diff_bc pp _amrcore _ebfactory
         bc_ilo bc_ihi bc_jlo bc_jhi bc_klo bc_khi _nghost _cyl_speed w
    = Normal tt w' /\
    forall (lev : nat) (ba : list Box) (fact : EBFArrayBoxFactory) (i : nat) (bx : Box)
           (flags : EBCellFlagFab),
      Z.of_nat lev <= maxLevel _amrcore ->
      grids _amrcore !! lev = Some ba -> _ebfactory !! lev = Some fact ->
      (i, bx) ∈ tiling (MultiFab_new fresh ba 3 _nghost 5 lev) ->
      getMultiEBCellFlagFab fact !! i = Some flags ->
      is_covered_or_regular (getType flags bx) = true ->
      exists (mf : MultiFab) (arr : Array4),
        vel_eb (self w') !! lev = Some mf /\ fabs mf !! i = Some arr /\
        forall (p : IntVect) (n : nat), contains bx p = true ->
          arr p n = if (n =? 0)%nat then 0%float else fresh 5%nat lev i p n.
Proof.
  intros Hready Hdisj.
  destruct (ctor_vel_eb_patch sin cos atan2 tiling fresh set_diff_bc pp _amrcore
              _ebfactory bc_ilo bc_ihi bc_jlo bc_jhi bc_klo bc_khi _nghost _cyl_speed w
              Hready) as (w' & Hrun & Hpatch).
  exists w'. split; [exact Hrun|].
  destruct Hready as (_ & _ & _ & _ & _ & _ & _ & Hlev).
  intros lev ba fact i bx flags Hl Hba Hfact Hin Hflags Hreg.
  assert (Hi : (i < length ba)%nat).
  { destruct (Hlev lev Hl) as (ba' & fact' & Hba' & Hfact' & Hok).
    assert (ba' = ba) by congruence. subst ba'.
    rewrite forallb_forall in Hok. specialize (Hok (i, bx)).
    rewrite <- list_elem_of_In in Hok. specialize (Hok Hin).
    unfold tile_ok in Hok. apply andb_true_iff in Hok as [Hi _].
    apply Nat.ltb_lt in Hi. exact Hi. }
  destruct (Hpatch lev ba fact i Hl Hba Hfact Hi) as (arr & HV & Harr & H0).
  eexists _, arr. split; [exact HV|]. split; [exact Harr|].
  intros p n Hp.
  rewrite (tiles_effect_at_tile sin cos atan2 _cyl_speed fact _ _ i bx _ arr p n H0 Harr
             (Hdisj lev ba Hl Hba) Hin Hp).
  unfold tile_effect. cbn [fst snd]. rewrite Hflags, Hreg.
  unfold setVal. rewrite Hp. reflexivity.
Qed.

(** * The buffers and the operator after construction *)

(** A MultiFab on the boxes [ba] with [ncomp] components and [ngrow] ghost
    cells. *)
Definition laid_out (mf : MultiFab) (ba : list Box) (ncomp : nat) (ngrow : Z) : Prop :=
  boxArray mf = ba /\ nComp mf = ncomp /\ nGrow mf = ngrow /\
  length (fabs mf) = length ba.

Lemma laid_out_new (fresh : nat -> nat -> nat -> Array4) (ba : list Box) (ncomp : nat)
    (ngrow : Z) (site lev : nat) :
  laid_out (MultiFab_new fresh ba ncomp ngrow site lev) ba ncomp ngrow.
Proof.
  unfold laid_out. rewrite length_MultiFab_new. repeat split; reflexivity.
Qed.

Section CtorResult.

Variables (sin cos : Real -> Real) (atan2 : Real -> Real -> Real).
Variable tiling : MultiFab -> list (nat * Box).
Variable fresh : nat -> nat -> nat -> Array4.
Variable set_diff_bc :
  Box -> Z -> IArrayBox -> IArrayBox -> IArrayBox -> IArrayBox -> IArrayBox ->
  IArrayBox -> Array3 Z * Array3 Z.

(** The constructor on ready arguments, as an equation. *)
Lemma ctor_returns (pp : ParmParse) (_amrcore : AmrCore)
    (_ebfactory : list EBFArrayBoxFactory)
    (bc_ilo bc_ihi bc_jlo bc_jhi bc_klo bc_khi : list IArrayBox)
    (_nghost : Z) (_cyl_speed : Real) (w : World) :
  ctor_ready tiling fresh _amrcore _ebfactory bc_ilo bc_ihi bc_jlo bc_jhi bc_klo bc_khi
             _nghost ->
  exists (w' : World) (g0 : Geometry) (ilo ihi jlo jhi klo khi : IArrayBox),
    ctor sin cos atan2 tiling fresh set_diff_bc pp _amrcore _ebfactory
         bc_ilo bc_ihi bc_jlo bc_jhi bc_klo bc_khi _nghost _cyl_speed w
    = Normal tt w' /\
    Geom _amrcore !! 0%nat = Some g0 /\
    bc_ilo !! 0%nat = Some ilo /\ bc_ihi !! 0%nat = Some ihi /\
    bc_jlo !! 0%nat = Some jlo /\ bc_jhi !! 0%nat = Some jhi /\
    bc_klo !! 0%nat = Some klo /\ bc_khi !! 0%nat = Some khi /\
    out w' =
      out w ++ print_if (0 <? verbose (self w')) "Constructing DiffusionEquation class" /\
    constructed sin cos atan2 tiling fresh pp _amrcore _ebfactory
      (set_diff_bc (Domain g0) _nghost ilo ihi jlo jhi klo khi)
      _nghost _cyl_speed (self w) (self w').
Proof.
  intros Hready.
  destruct Hready as ([g0 Hg0] & [ilo Hilo] & [ihi Hihi] & [jlo Hjlo] & [jhi Hjhi] &
                      [klo Hklo] & [khi Hkhi] & Hlev) eqn:E. clear E.
  assert (Hready' : ctor_ready tiling fresh _amrcore _ebfactory
                      bc_ilo bc_ihi bc_jlo bc_jhi bc_klo bc_khi _nghost).
  { unfold ctor_ready. repeat (split; [eauto|]). exact Hlev. }
  pose proof (ctor_run_fields sin cos atan2 tiling fresh set_diff_bc pp _amrcore
                _ebfactory bc_ilo bc_ihi bc_jlo bc_jhi bc_klo bc_khi _nghost _cyl_speed w
                g0 ilo ihi jlo jhi klo khi Hready' Hg0 Hilo Hihi Hjlo Hjhi Hklo Hkhi)
    as Hrun.
  unfold triple in Hrun.
  destruct (ctor sin cos atan2 tiling fresh set_diff_bc pp _amrcore _ebfactory
              bc_ilo bc_ihi bc_jlo bc_jhi bc_klo bc_khi _nghost _cyl_speed w)
    as [[] w'| |]; try contradiction.
  destruct Hrun as (Hout & Hcon).
  exists w', g0, ilo, ihi, jlo, jhi, klo, khi. repeat (split; [assumption || reflexivity|]).
  exact Hcon.
Qed.

End CtorResult.

(** X1. The constructor sizes the four buffer vectors to [maxLevel + 1]
    and gives every level, on the level's grid: face coefficients [b] on
    the grid's face boxes in each direction, one component and [nghost]
    ghost cells; [phi] with three components and one ghost cell; [rhs]
    with three components and no ghost cell; [vel_eb] with three
    components and [nghost] ghost cells. *)
Theorem ctor_allocates_buffers
    (sin cos : Real -> Real) (atan2 : Real -> Real -> Real)
    (tiling : MultiFab -> list (nat * Box)) (fresh : nat -> nat -> nat -> Array4)
    (set_diff_bc : Box -> Z -> IArrayBox -> IArrayBox -> IArrayBox -> IArrayBox ->
                   IArrayBox -> IArrayBox -> Array3 Z * Array3 Z)
    (pp : ParmParse) (_amrcore : AmrCore) (_ebfactory : list EBFArrayBoxFactory)
    (bc_ilo bc_ihi bc_jlo bc_jhi bc_klo bc_khi : list IArrayBox)
    (_nghost : Z) (_cyl_speed : Real) (w : World) :
  ctor_ready tiling fresh _amrcore _ebfactory
             bc_ilo bc_ihi bc_jlo bc_jhi bc_klo bc_khi _nghost ->
  0 <= maxLevel _amrcore ->
  exists w',
    ctor sin cos atan2 tiling fresh set_diff_bc pp _amrcore _ebfactory
         bc_ilo bc_ihi bc_jlo bc_jhi bc_klo bc_khi _nghost _cyl_speed w
    = Normal tt w' /\
    Z.of_nat (length (b (self w'))) = maxLevel _amrcore + 1 /\
    Z.of_nat (length (phi (self w'))) = maxLevel _amrcore + 1 /\
    Z.of_nat (length (rhs (self w'))) = maxLevel _amrcore + 1 /\
    Z.of_nat (length (vel_eb (self w'))) = maxLevel _amrcore + 1 /\
    forall (lev : nat) (ba : list Box),
      Z.of_nat lev <= maxLevel _amrcore -> grids _amrcore !! lev = Some ba ->
      exists (bx by_ bz ph r v : MultiFab),
        b (self w') !! lev = Some (bx, by_, bz) /\
        phi (self w') !! lev = Some ph /\ rhs (self w') !! lev = Some r /\
        vel_eb (self w') !! lev = Some v /\
        laid_out bx (map (fun bx => surroundingNodes bx 0) ba) 1 _nghost /\
        laid_out by_ (map (fun bx => surroundingNodes bx 1) ba) 1 _nghost /\
        laid_out bz (map (fun bx => surroundingNodes bx 2) ba) 1 _nghost /\
        laid_out ph ba 3 1 /\ laid_out r ba 3 0 /\ laid_out v ba 3 _nghost.
Proof.
  intros Hready Hmax.
  destruct (ctor_returns sin cos atan2 tiling fresh set_diff_bc pp _amrcore _ebfactory
              bc_ilo bc_ihi bc_jlo bc_jhi bc_klo bc_khi _nghost _cyl_speed w Hready)
    as (w' & g0 & ilo & ihi & jlo & jhi & klo & khi & Hrun & _ & _ & _ & _ & _ & _ & _
        & _ & Hcon).
  destruct Hcon as (_ & _ & _ & _ & _ & _ & _ & _ & HlB & HlP & HlR & HlV & Hlevels).
  exists w'. split; [exact Hrun|].
  rewrite HlB, HlP, HlR, HlV.
  do 4 (split; [lia|]).
  intros lev ba Hl Hba.
  destruct Hready as (_ & _ & _ & _ & _ & _ & _ & Hlev).
  destruct (Hlev lev Hl) as (ba' & fact & Hba' & Hfact & _).
  assert (ba' = ba) by congruence. subst ba'.
  destruct (Hlevels lev ba fact Hl Hba Hfact) as (HB & HP & HR & HV).
  eexists _, _, _, _, _, _.
  split; [exact HB|]. split; [exact HP|]. split; [exact HR|]. split; [exact HV|].
  do 5 (split; [apply laid_out_new|]).
  destruct (tiles_effect_layout sin cos atan2 _cyl_speed fact
              (tiling (MultiFab_new fresh ba 3 _nghost 5 lev))
              (MultiFab_new fresh ba 3 _nghost 5 lev)) as (L1 & L2 & L3 & L4).
  unfold laid_out. rewrite L1, L2, L3, L4. apply laid_out_new.
Qed.

(** X2. The constructor computes the two boundary tables once, from the
    level-0 domain and the level-0 markers, and leaves the operator
    defined on the hierarchy's geometries and grids with the coarsening
    limit read from the input, maximum order 3, and these tables as domain
    boundary types; it sets no scalar, no coefficient and no level
    boundary data. *)
Theorem ctor_sets_up_operator
    (sin cos : Real -> Real) (atan2 : Real -> Real -> Real)
    (tiling : MultiFab -> list (nat * Box)) (fresh : nat -> nat -> nat -> Array4)
    (set_diff_bc : Box -> Z -> IArrayBox -> IArrayBox -> IArrayBox -> IArrayBox ->
                   IArrayBox -> IArrayBox -> Array3 Z * Array3 Z)
    (pp : ParmParse) (_amrcore : AmrCore) (_ebfactory : list EBFArrayBoxFactory)
    (bc_ilo bc_ihi bc_jlo bc_jhi bc_klo bc_khi : list IArrayBox)
    (_nghost : Z) (_cyl_speed : Real) (w : World) :
  ctor_ready tiling fresh _amrcore _ebfactory
             bc_ilo bc_ihi bc_jlo bc_jhi bc_klo bc_khi _nghost ->
  exists (w' : World) (g0 : Geometry) (ilo ihi jlo jhi klo khi : IArrayBox),
    ctor sin cos atan2 tiling fresh set_diff_bc pp _amrcore _ebfactory
         bc_ilo bc_ihi bc_jlo bc_jhi bc_klo bc_khi _nghost _cyl_speed w
    = Normal tt w' /\
    Geom _amrcore !! 0%nat = Some g0 /\
    bc_ilo !! 0%nat = Some ilo /\ bc_ihi !! 0%nat = Some ihi /\
    bc_jlo !! 0%nat = Some jlo /\ bc_jhi !! 0%nat = Some jhi /\
    bc_klo !! 0%nat = Some klo /\ bc_khi !! 0%nat = Some khi /\
    (bc_lo (self w'), bc_hi (self w')) =
      set_diff_bc (Domain g0) _nghost ilo ihi jlo jhi klo khi /\
    op_defined (matrix (self w')) = Some (Geom _amrcore, grids _amrcore) /\
    op_max_coarsening_level (matrix (self w')) =
      Some (default (mg_max_coarsening_level (self w))
                    (pp_int pp "mg_max_coarsening_level")) /\
    op_max_order (matrix (self w')) = Some 3 /\
    op_domain_bc (matrix (self w')) = Some (bc_lo (self w'), bc_hi (self w')) /\
    op_scalars (matrix (self w')) = op_scalars (matrix (self w)) /\
    op_acoeffs (matrix (self w')) = op_acoeffs (matrix (self w)) /\
    op_shear_viscosity (matrix (self w')) = op_shear_viscosity (matrix (self w)) /\
    op_eb_shear_viscosity (matrix (self w')) = op_eb_shear_viscosity (matrix (self w)) /\
    op_level_bc (matrix (self w')) = op_level_bc (matrix (self w)) /\
    op_eb_dirichlet (matrix (self w')) = op_eb_dirichlet (matrix (self w)).
Proof.
  intros Hready.
  destruct (ctor_returns sin cos atan2 tiling fresh set_diff_bc pp _amrcore _ebfactory
              bc_ilo bc_ihi bc_jlo bc_jhi bc_klo bc_khi _nghost _cyl_speed w Hready)
    as (w' & g0 & ilo & ihi & jlo & jhi & klo & khi & Hrun & Hg0 & Hilo & Hihi & Hjlo
        & Hjhi & Hklo & Hkhi & _ & Hcon).
  destruct Hcon as (Hpar & _ & _ & _ & _ & Hlo & Hhi & Hmat & _).
  destruct Hpar as (_ & _ & _ & _ & _ & _ & Hmcl & _).
  exists w', g0, ilo, ihi, jlo, jhi, klo, khi.
  do 8 (split; [assumption|]).
  rewrite Hmat, Hlo, Hhi, Hmcl. cbn.
  split; [destruct (set_diff_bc (Domain g0) _nghost ilo ihi jlo jhi klo khi); reflexivity|].
  repeat split; reflexivity.
Qed.

(** X3. The constructor reads the input before anything else: each of the
    ten tunables of the constructed object is the input's entry where the
    input has one and otherwise what the object held, and the one message
    of the constructor is printed exactly when the verbosity so obtained
    is positive; the constructor prints nothing else. *)
Theorem ctor_reads_input_then_prints
    (sin cos : Real -> Real) (atan2 : Real -> Real -> Real)
    (tiling : MultiFab -> list (nat * Box)) (fresh : nat -> nat -> nat -> Array4)
    (set_diff_bc : Box -> Z -> IArrayBox -> IArrayBox -> IArrayBox -> IArrayBox ->
                   IArrayBox -> IArrayBox -> Array3 Z * Array3 Z)
    (pp : ParmParse) (_amrcore : AmrCore) (_ebfactory : list EBFArrayBoxFactory)
    (bc_ilo bc_ihi bc_jlo bc_jhi bc_klo bc_khi : list IArrayBox)
    (_nghost : Z) (_cyl_speed : Real) (w : World) :
  ctor_ready tiling fresh _amrcore _ebfactory
             bc_ilo bc_ihi bc_jlo bc_jhi bc_klo bc_khi _nghost ->
  exists w',
    ctor sin cos atan2 tiling fresh set_diff_bc pp _amrcore _ebfactory
         bc_ilo bc_ihi bc_jlo bc_jhi bc_klo bc_khi _nghost _cyl_speed w
    = Normal tt w' /\
    parameters_read pp (self w) (self w') /\
    out w' =
      out w ++
      (if 0 <? default (verbose (self w)) (pp_int pp "verbose")
       then [EvPrint "Constructing DiffusionEquation class"] else []).
Proof.
  intros Hready.
  destruct (ctor_returns sin cos atan2 tiling fresh set_diff_bc pp _amrcore _ebfactory
              bc_ilo bc_ihi bc_jlo bc_jhi bc_klo bc_khi _nghost _cyl_speed w Hready)
    as (w' & g0 & ilo & ihi & jlo & jhi & klo & khi & Hrun & _ & _ & _ & _ & _ & _ & _
        & Hout & Hcon).
  destruct Hcon as (Hpar & _).
  exists w'. split; [exact Hrun|]. split; [exact Hpar|].
  destruct Hpar as (Hv & _). rewrite Hout, Hv. reflexivity.
Qed.


(** * The order of the tiles *)

Lemma intersects_sym (b1 b2 : Box) : intersects b1 b2 = intersects b2 b1.
Proof.
  destruct b1 as [[[l1i l1j] l1k] [[h1i h1j] h1k]].
  destruct b2 as [[[l2i l2j] l2k] [[h2i h2j] h2k]].
  unfold intersects. simpl.
  rewrite (Z.max_comm l1i), (Z.max_comm l1j), (Z.max_comm l1k).
  rewrite (Z.min_comm h1i), (Z.min_comm h1j), (Z.min_comm h1k). reflexivity.
Qed.

Lemma forallb_perm {A : Type} (f : A -> bool) (l l' : list A) :
  l ≡ₚ l' -> forallb f l = forallb f l'.
Proof.
  induction 1 as [|x l l' _ IH|x y l|l l' l'' _ IH1 _ IH2]; simpl.
  - reflexivity.
  - rewrite IH. reflexivity.
  - destruct (f x), (f y); reflexivity.
  - congruence.
Qed.

Lemma tiles_disjoint_perm (ts ts' : list (nat * Box)) :
  ts ≡ₚ ts' -> tiles_disjoint ts = tiles_disjoint ts'.
Proof.
  induction 1 as [|x l l' Hp IH|x y l|l l' l'' _ IH1 _ IH2].
  - reflexivity.
  - cbn [tiles_disjoint]. rewrite IH.
    rewrite (forallb_perm _ l l' Hp). reflexivity.
  - cbn [tiles_disjoint forallb].
    rewrite (Nat.eqb_sym y.1 x.1), (intersects_sym y.2 x.2).
    destruct (negb ((x.1 =? y.1)%nat && intersects x.2 y.2));
      destruct (forallb _ l); destruct (forallb _ l); reflexivity.
  - congruence.
Qed.

Section TileOrder.

Variables (sin cos : Real -> Real) (atan2 : Real -> Real -> Real).
Variables (speed : Real) (fact : EBFArrayBoxFactory).

(** Disjoint tiles can be visited in any order. *)
Lemma tiles_effect_perm (ts ts' : list (nat * Box)) (mf : MultiFab) :
  ts ≡ₚ ts' -> tiles_disjoint ts = true ->
  tiles_effect sin cos atan2 speed fact ts' mf =
  tiles_effect sin cos atan2 speed fact ts mf.
Proof.
  intros Hperm Hdisj.
  assert (Hdisj' : tiles_disjoint ts' = true)
    by (rewrite <- (tiles_disjoint_perm ts ts' Hperm); exact Hdisj).
  destruct (tiles_effect_layout sin cos atan2 speed fact ts mf) as (L1 & L2 & L3 & L4).
  destruct (tiles_effect_layout sin cos atan2 speed fact ts' mf) as (L1' & L2' & L3' & L4').
  apply MultiFab_ext; try congruence.
  intros i.
  destruct (fabs mf !! i) as [arr0|] eqn:H0.
  - assert (Hs : is_Some (fabs (tiles_effect sin cos atan2 speed fact ts mf) !! i)).
    { apply lookup_lt_is_Some. rewrite L4. apply lookup_lt_is_Some. eauto. }
    assert (Hs' : is_Some (fabs (tiles_effect sin cos atan2 speed fact ts' mf) !! i)).
    { apply lookup_lt_is_Some. rewrite L4'. apply lookup_lt_is_Some. eauto. }
    destruct Hs as [arr Harr], Hs' as [arr' Harr']. rewrite Harr, Harr'. f_equal.
    apply functional_extensionality. intros p.
    apply functional_extensionality. intros n.
    destruct (existsb (fun t : nat * Box => (t.1 =? i)%nat && contains t.2 p) ts) eqn:Ex.
    + apply existsb_exists in Ex as ([j bx] & Hin & Hc).
      apply list_elem_of_In in Hin. cbn [fst snd] in Hc.
      apply andb_true_iff in Hc as [Hj Hp]. apply Nat.eqb_eq in Hj. subst j.
      rewrite (tiles_effect_at_tile sin cos atan2 speed fact ts mf i bx arr0 arr p n
                 H0 Harr Hdisj Hin Hp).
      apply (tiles_effect_at_tile sin cos atan2 speed fact ts' mf i bx arr0 arr' p n
               H0 Harr' Hdisj'); [|exact Hp].
      rewrite <- Hperm. exact Hin.
    + assert (Hout : forall bx, (i, bx) ∈ ts -> contains bx p = false).
      { intros bx Hin. destruct (contains bx p) eqn:Hp; [|reflexivity].
        assert (Hex : existsb (fun t : nat * Box => (t.1 =? i)%nat && contains t.2 p) ts
                      = true).
        { apply existsb_exists. exists (i, bx). split; [apply list_elem_of_In; exact Hin|].
          cbn [fst snd]. rewrite Nat.eqb_refl, Hp. reflexivity. }
        congruence. }
      rewrite (tiles_effect_untouched sin cos atan2 speed fact ts mf i arr0 arr p n
                 H0 Harr Hout).
      apply (tiles_effect_untouched sin cos atan2 speed fact ts' mf i arr0 arr' p n
               H0 Harr').
      intros bx Hin. apply Hout. rewrite Hperm. exact Hin.
  - assert (H1 : fabs (tiles_effect sin cos atan2 speed fact ts mf) !! i = None).
    { apply lookup_ge_None. rewrite L4. apply lookup_ge_None. exact H0. }
    assert (H2 : fabs (tiles_effect sin cos atan2 speed fact ts' mf) !! i = None).
    { apply lookup_ge_None. rewrite L4'. apply lookup_ge_None. exact H0. }
    congruence.
Qed.

End TileOrder.

Lemma DiffusionEquation_ext (o o' : DiffusionEquation) :
  amrcore o = amrcore o' -> ebfactory o = ebfactory o' -> nghost o = nghost o' ->
  cyl_speed o = cyl_speed o' -> bc_lo o = bc_lo o' -> bc_hi o = bc_hi o' ->
  b o = b o' -> phi o = phi o' -> rhs o = rhs o' -> vel_eb o = vel_eb o' ->
  matrix o = matrix o' -> verbose o = verbose o' -> mg_verbose o = mg_verbose o' ->
  mg_cg_verbose o = mg_cg_verbose o' -> mg_max_iter o = mg_max_iter o' ->
  mg_cg_maxiter o = mg_cg_maxiter o' -> mg_max_fmg_iter o = mg_max_fmg_iter o' ->
  mg_max_coarsening_level o = mg_max_coarsening_level o' ->
  mg_rtol o = mg_rtol o' -> mg_atol o = mg_atol o' ->
  bottom_solver_type o = bottom_solver_type o' -> o = o'.
Proof. destruct o, o'. simpl. intros. subst. reflexivity. Qed.

(** Two lists of the same length that agree below it. *)
Lemma list_eq_below {A : Type} (l l' : list A) (n : nat) :
  length l = n -> length l' = n ->
  (forall i, (i < n)%nat -> l !! i = l' !! i) -> l = l'.
Proof.
  intros Hl Hl' H. apply list_eq. intros i.
  destruct (Nat.lt_ge_cases i n) as [Hi|Hi]; [auto|].
  rewrite (proj2 (lookup_ge_None l i)) by lia.
  rewrite (proj2 (lookup_ge_None l' i)) by lia. reflexivity.
Qed.

(** X6. The constructor's result does not depend on the order in which the
    tiles of a level are visited, as long as the tiles of a patch are
    disjoint: with any other enumeration of the same tiles it returns the
    same object and output. *)
Theorem ctor_tile_order_irrelevant
    (sin cos : Real -> Real) (atan2 : Real -> Real -> Real)
    (tiling tiling' : MultiFab -> list (nat * Box))
    (fresh : nat -> nat -> nat -> Array4)
    (set_diff_bc : Box -> Z -> IArrayBox -> IArrayBox -> IArrayBox -> IArrayBox ->
                   IArrayBox -> IArrayBox -> Array3 Z * Array3 Z)
    (pp : ParmParse) (_amrcore : AmrCore) (_ebfactory : list EBFArrayBoxFactory)
    (bc_ilo bc_ihi bc_jlo bc_jhi bc_klo bc_khi : list IArrayBox)
    (_nghost : Z) (_cyl_speed : Real) (w : World) :
  ctor_ready tiling fresh _amrcore _ebfactory
             bc_ilo bc_ihi bc_jlo bc_jhi bc_klo bc_khi _nghost ->
  (forall (lev : nat) (ba : list Box),
     Z.of_nat lev <= maxLevel _amrcore -> grids _amrcore !! lev = Some ba ->
     tiles_disjoint (tiling (MultiFab_new fresh ba 3 _nghost 5 lev)) = true) ->
  (forall mf : MultiFab, tiling' mf ≡ₚ tiling mf) ->
  exists w',
    ctor sin cos atan2 tiling fresh set_diff_bc pp _amrcore _ebfactory
         bc_ilo bc_ihi bc_jlo bc_jhi bc_klo bc_khi _nghost _cyl_speed w
    = Normal tt w' /\
    ctor sin cos atan2 tiling' fresh set_diff_bc pp _amrcore _ebfactory
         bc_ilo bc_ihi bc_jlo bc_jhi bc_klo bc_khi _nghost _cyl_speed w
    = Normal tt w'.
Proof.
  intros Hready Hdisj Hperm.
  assert (Hready' : ctor_ready tiling' fresh _amrcore _ebfactory
                      bc_ilo bc_ihi bc_jlo bc_jhi bc_klo bc_khi _nghost).
  { destruct Hready as (H1 & H2 & H3 & H4 & H5 & H6 & H7 & Hlev).
    unfold ctor_ready. do 7 (split; [assumption|]).
    intros lev Hl. destruct (Hlev lev Hl) as (ba & fact & Hba & Hfact & Hok).
    exists ba, fact. do 2 (split; [assumption|]).
    rewrite (forallb_perm _ _ _ (Hperm _)). exact Hok. }
  destruct (ctor_returns sin cos atan2 tiling fresh set_diff_bc pp _amrcore _ebfactory
              bc_ilo bc_ihi bc_jlo bc_jhi bc_klo bc_khi _nghost _cyl_speed w Hready)
    as (w1 & g0 & ilo & ihi & jlo & jhi & klo & khi & Hrun1 & Hg0 & Hilo & Hihi & Hjlo
        & Hjhi & Hklo & Hkhi & Hout1 & Hcon1).
  destruct (ctor_returns sin cos atan2 tiling' fresh set_diff_bc pp _amrcore _ebfactory
              bc_ilo bc_ihi bc_jlo bc_jhi bc_klo bc_khi _nghost _cyl_speed w Hready')
    as (w2 & g0' & ilo' & ihi' & jlo' & jhi' & klo' & khi' & Hrun2 & Hg0' & Hilo' & Hihi'
        & Hjlo' & Hjhi' & Hklo' & Hkhi' & Hout2 & Hcon2).
  assert (g0' = g0) by congruence. assert (ilo' = ilo) by congruence.
  assert (ihi' = ihi) by congruence. assert (jlo' = jlo) by congruence.
  assert (jhi' = jhi) by congruence. assert (klo' = klo) by congruence.
  assert (khi' = khi) by congruence. subst.
  exists w1. split; [exact Hrun1|]. rewrite Hrun2. f_equal.
  destruct Hcon1 as (Hpar1 & A1 & A2 & A3 & A4 & A5 & A6 & A7 & LB1 & LP1 & LR1 & LV1 & Hl1).
  destruct Hcon2 as (Hpar2 & B1 & B2 & B3 & B4 & B5 & B6 & B7 & LB2 & LP2 & LR2 & LV2 & Hl2).
  destruct Hpar1 as (P1 & P2 & P3 & P4 & P5 & P6 & P7 & P8 & P9 & P10).
  destruct Hpar2 as (Q1 & Q2 & Q3 & Q4 & Q5 & Q6 & Q7 & Q8 & Q9 & Q10).
  assert (Hlevels : forall lev : nat, (lev < Z.to_nat (maxLevel _amrcore + 1))%nat ->
            b (self w2) !! lev = b (self w1) !! lev /\
            phi (self w2) !! lev = phi (self w1) !! lev /\
            rhs (self w2) !! lev = rhs (self w1) !! lev /\
            vel_eb (self w2) !! lev = vel_eb (self w1) !! lev).
  { intros lev Hlt. assert (Hl : Z.of_nat lev <= maxLevel _amrcore) by lia.
    destruct Hready as (_ & _ & _ & _ & _ & _ & _ & Hlev).
    destruct (Hlev lev Hl) as (ba & fact & Hba & Hfact & _).
    destruct (Hl1 lev ba fact Hl Hba Hfact) as (C1 & C2 & C3 & C4).
    destruct (Hl2 lev ba fact Hl Hba Hfact) as (D1 & D2 & D3 & D4).
    rewrite C1, C2, C3, C4, D1, D2, D3, D4. repeat split. f_equal.
    apply tiles_effect_perm; [symmetry; apply Hperm | apply (Hdisj lev ba Hl Hba)]. }
  assert (Hself : self w2 = self w1).
  { apply DiffusionEquation_ext; try congruence.
    - apply (list_eq_below _ _ _ LB2 LB1). intros i Hi. apply Hlevels. exact Hi.
    - apply (list_eq_below _ _ _ LP2 LP1). intros i Hi. apply Hlevels. exact Hi.
    - apply (list_eq_below _ _ _ LR2 LR1). intros i Hi. apply Hlevels. exact Hi.
    - apply (list_eq_below _ _ _ LV2 LV1). intros i Hi. apply Hlevels. exact Hi. }
  destruct w1 as [o1 out1], w2 as [o2 out2]. cbn [self out] in *.
  rewrite Hself in Hout2. congruence.
Qed.

(** * What [solve] leaves alone, and what it prints *)

(** Everything of the object that [solve] does not assign, and the sizes
    of the three buffer vectors it does assign. *)
Definition same_setup (o o' : DiffusionEquation) : Prop :=
  amrcore o' = amrcore o /\ ebfactory o' = ebfactory o /\ nghost o' = nghost o /\
  cyl_speed o' = cyl_speed o /\ bc_lo o' = bc_lo o /\ bc_hi o' = bc_hi o /\
  vel_eb o' = vel_eb o /\
  verbose o' = verbose o /\ mg_verbose o' = mg_verbose o /\
  mg_cg_verbose o' = mg_cg_verbose o /\ mg_max_iter o' = mg_max_iter o /\
  mg_cg_maxiter o' = mg_cg_maxiter o /\ mg_max_fmg_iter o' = mg_max_fmg_iter o /\
  mg_max_coarsening_level o' = mg_max_coarsening_level o /\
  mg_rtol o' = mg_rtol o /\ mg_atol o' = mg_atol o /\
  bottom_solver_type o' = bottom_solver_type o /\
  length (b o') = length (b o) /\ length (phi o') = length (phi o) /\
  length (rhs o') = length (rhs o).

Definition is_print (e : Event) : bool :=
  match e with EvPrint _ => true | _ => false end.

Lemma filter_print_coeff (evs : list Event) :
  Forall is_coeff_event evs -> List.filter is_print evs = [].
Proof.
  induction 1 as [|e evs He _ IH]; [reflexivity|].
  destruct e; try contradiction; exact IH.
Qed.

Lemma filter_print_levelbc (evs : list Event) :
  Forall is_levelbc_event evs -> List.filter is_print evs = [].
Proof.
  induction 1 as [|e evs He _ IH]; [reflexivity|].
  destruct e; try contradiction; exact IH.
Qed.

Lemma filter_print_if (c : bool) (msg : string) :
  List.filter is_print (print_if c msg) = print_if c msg.
Proof. destruct c; reflexivity. Qed.

Lemma prepared_setup (vel_in ro_in eta_in : list MultiFab) (dt : Real) (w w2 : World) :
  prepared vel_in ro_in eta_in dt w w2 ->
  same_setup (self w) (self w2) /\
  exists evs_c evs_b : list Event,
    out w2 =
      out w ++ EvSetScalars 1%float dt :: evs_c ++
      print_if (0 <? verbose (self w)) "Diffusing velocity components all together..." ++
      evs_b /\
    Forall is_coeff_event evs_c /\ Forall is_levelbc_event evs_b.
Proof.
  intros (w1 & (B & M & evs & Hs1 & Ho1 & Hev1 & HlB & _)
             & (R & P & M' & evs' & Hs2 & Ho2 & Hev2 & HlR & HlP & _)).
  cbn [self out] in Hs2, Ho2, HlR, HlP. rewrite Hs1 in Hs2, HlR, HlP, Ho2. onorm.
  split.
  - unfold same_setup. rewrite Hs2. onorm. repeat split; assumption.
  - exists evs, evs'. split; [|auto].
    rewrite Ho2, Ho1. rewrite <- !app_assoc. reflexivity.
Qed.

Section SolveTrace.

Variable MLMG_ctor : LinOp -> MLMG.
Variable MLMG_solve :
  LinOp -> MLMG -> list MultiFab -> list MultiFab -> Real -> Real ->
  option (list (list Array4)).

(** A run of [solve] on a ready object, in one piece: the world [w2] in
    which the solver is called, and what follows the call. *)
Lemma solve_trace (vel_in ro_in eta_in : list MultiFab) (dt : Real) (w : World) :
  solve_ready vel_in ro_in eta_in (self w) ->
  exists w2 : World,
    prepared vel_in ro_in eta_in dt w w2 /\
    match solve MLMG_ctor MLMG_solve vel_in ro_in eta_in dt w with
    | Normal vel' w' =>
        exists sol : list (list Array4),
          solver_result MLMG_ctor MLMG_solve (self w2) = Some sol /\
          copy_post vel_in (solved MLMG_ctor w2 sol) vel'
                    (MkWorld (self w') (out w2 ++ [solver_call MLMG_ctor (self w2)])) /\
          out w' =
            out w2 ++ solver_call MLMG_ctor (self w2) ::
            print_if (0 <? verbose (self w)) " done!"
    | Aborted w' =>
        solver_result MLMG_ctor MLMG_solve (self w2) = None /\
        w' = MkWorld (self w2) (out w2 ++ [solver_call MLMG_ctor (self w2)])
    | Undefined => False
    end.
Proof.
  intros Hready.
  pose proof (solve_run MLMG_ctor MLMG_solve vel_in ro_in eta_in dt w Hready) as H.
  unfold triple in H.
  destruct (solve MLMG_ctor MLMG_solve vel_in ro_in eta_in dt w) as [vel' w'|w'|];
    [| |contradiction].
  - destruct H as (w2 & sol & w3 & Hprep & Hsol & Hcopy & Hs' & Ho').
    exists w2. split; [exact Hprep|]. exists sol.
    destruct (prepared_setup _ _ _ _ _ _ Hprep) as ((_ & _ & _ & _ & _ & _ & _ & Hv & _) & _).
    pose proof Hcopy as (P & Hs3 & Ho3 & _).
    split; [exact Hsol|].
    assert (Hw3 : w3 = MkWorld (self w') (out w2 ++ [solver_call MLMG_ctor (self w2)])).
    { destruct w3 as [o3 out3]. cbn [self out] in *. unfold solved in Ho3.
      cbn [out] in Ho3. congruence. }
    split; [rewrite <- Hw3; exact Hcopy|].
    rewrite Ho', Ho3. unfold solved. cbn [out]. rewrite <- app_assoc.
    rewrite Hs3. unfold solved. onorm. rewrite Hv. reflexivity.
  - destruct H as (w2 & Hprep & Hsol & Hw'). exists w2. auto.
Qed.

End SolveTrace.

(** X9. What [solve] prints on a ready object: with a verbosity of zero
    or less, nothing; with a positive verbosity, the "Diffusing ..." line
    before the solver call and, when the solver returns, " done!" as the
    one thing after it.  When the solver gives up, the solver call is the
    last thing [solve] does. *)
Theorem solve_prints
    (MLMG_ctor : LinOp -> MLMG)
    (MLMG_solve : LinOp -> MLMG -> list MultiFab -> list MultiFab -> Real -> Real ->
                  option (list (list Array4)))
    (vel_in ro_in eta_in : list MultiFab) (dt : Real) (w : World) :
  solve_ready vel_in ro_in eta_in (self w) ->
  exists (before : list Event) (call : Event),
    is_solver_call call = true /\
    List.filter is_print before =
      (if 0 <? verbose (self w)
       then [EvPrint "Diffusing velocity components all together..."] else []) /\
    match solve MLMG_ctor MLMG_solve vel_in ro_in eta_in dt w with
    | Normal _ w' =>
        out w' =
          out w ++ before ++ call ::
          (if 0 <? verbose (self w) then [EvPrint " done!"] else [])
    | Aborted w' => out w' = out w ++ before ++ [call]
    | Undefined => False
    end.
Proof.
  intros Hready.
  destruct (solve_trace MLMG_ctor MLMG_solve vel_in ro_in eta_in dt w Hready)
    as (w2 & Hprep & Hres).
  destruct (prepared_setup _ _ _ _ _ _ Hprep) as (_ & evs_c & evs_b & Hout2 & Hc & Hb).
  exists (EvSetScalars 1%float dt :: evs_c ++
          print_if (0 <? verbose (self w))
                   "Diffusing velocity components all together..." ++ evs_b),
    (solver_call MLMG_ctor (self w2)).
  split; [reflexivity|]. split.
  - cbn [List.filter is_print]. rewrite !List.filter_app.
    rewrite (filter_print_coeff _ Hc), (filter_print_levelbc _ Hb), filter_print_if.
    rewrite app_nil_r. reflexivity.
  - destruct (solve MLMG_ctor MLMG_solve vel_in ro_in eta_in dt w) as [vel' w'|w'|];
      [| |exact Hres].
    + destruct Hres as (sol & _ & _ & Ho'). rewrite Ho', Hout2.
      rewrite <- !app_assoc. reflexivity.
    + destruct Hres as (_ & ->). cbn [out]. rewrite Hout2.
      rewrite <- !app_assoc. reflexivity.
Qed.

(** X10. [solve] assigns only the operator and the buffers [b], [phi] and
    [rhs]: every other member of the object (the hierarchy, the factories,
    the boundary tables, the surface velocity, the tunables) is what it
    was, the three buffer vectors keep their length, the velocity vector
    keeps its length, and the object is ready for the next [solve] on the
    velocity it returned. *)
Theorem solve_keeps_setup
    (MLMG_ctor : LinOp -> MLMG)
    (MLMG_solve : LinOp -> MLMG -> list MultiFab -> list MultiFab -> Real -> Real ->
                  option (list (list Array4)))
    (vel_in ro_in eta_in : list MultiFab) (dt : Real) (w : World) :
  solve_ready vel_in ro_in eta_in (self w) ->
  match solve MLMG_ctor MLMG_solve vel_in ro_in eta_in dt w with
  | Normal vel' w' =>
      same_setup (self w) (self w') /\ length vel' = length vel_in /\
      solve_ready vel' ro_in eta_in (self w')
  | Aborted w' => same_setup (self w) (self w')
  | Undefined => False
  end.
Proof.
  intros Hready.
  destruct (solve_trace MLMG_ctor MLMG_solve vel_in ro_in eta_in dt w Hready)
    as (w2 & Hprep & Hres).
  destruct (prepared_setup _ _ _ _ _ _ Hprep) as (Hsame & _).
  destruct (solve MLMG_ctor MLMG_solve vel_in ro_in eta_in dt w) as [vel' w'|w'|];
    [| |exact Hres].
  - destruct Hres as (sol & _ & (P' & Hs3 & _ & HlP & Hlv & _) & _).
    cbn [self] in Hs3. unfold solved in Hs3, HlP. onorm.
    rewrite length_store_solution in HlP.
    assert (Hsame' : same_setup (self w) (self w')).
    { unfold same_setup in *. rewrite Hs3. onorm.
      destruct Hsame as (S1 & S2 & S3 & S4 & S5 & S6 & S7 & S8 & S9 & S10 & S11 & S12
                         & S13 & S14 & S15 & S16 & S17 & S18 & S19 & S20).
      repeat split; try assumption. congruence. }
    split; [exact Hsame'|]. split; [exact Hlv|].
    destruct Hsame' as (Ham & _ & _ & _ & _ & _ & _ & _ & _ & _ & _ & _ & _ & _ & _ & _ & _
                        & LB & LP & LR).
    intros lev Hlev. rewrite Ham in *.
    destruct (Hready lev Hlev) as (H1 & H2 & H3 & H4 & H5 & H6 & H7).
    repeat split; try assumption.
    + apply lookup_lt_is_Some. rewrite LB. apply lookup_lt_is_Some. exact H1.
    + apply lookup_lt_is_Some. rewrite LP. apply lookup_lt_is_Some. exact H2.
    + apply lookup_lt_is_Some. rewrite LR. apply lookup_lt_is_Some. exact H3.
    + apply lookup_lt_is_Some. rewrite Hlv. apply lookup_lt_is_Some. exact H5.
  - destruct Hres as (_ & ->). exact Hsame.
Qed.

(** * The solver call in detail *)

(** [setSolverSettings] reads the tunables only. *)
Lemma setSolverSettings_reads_tunables (o o' : DiffusionEquation) (solver : MLMG) :
  same_setup o o' -> setSolverSettings o' solver = setSolverSettings o solver.
Proof.
  intros (_ & _ & _ & _ & _ & _ & _ & _ & S9 & S10 & S11 & S12 & S13 & _ & _ & _ & S17 & _).
  unfold setSolverSettings. rewrite S9, S10, S11, S12, S13, S17. reflexivity.
Qed.

Lemma setFinalFillBC_after_settings (o : DiffusionEquation) (solver : MLMG) :
  setFinalFillBC true (setSolverSettings o solver) = setSolverSettings o solver.
Proof. reflexivity. Qed.

Lemma prepared_higher_levels (vel_in ro_in eta_in : list MultiFab) (dt : Real)
    (w w2 : World) (lev : nat) :
  prepared vel_in ro_in eta_in dt w w2 ->
  finestLevel (amrcore (self w)) < Z.of_nat lev ->
  b (self w2) !! lev = b (self w) !! lev /\
  phi (self w2) !! lev = phi (self w) !! lev /\
  rhs (self w2) !! lev = rhs (self w) !! lev /\
  op_acoeffs (matrix (self w2)) lev = op_acoeffs (matrix (self w)) lev /\
  op_shear_viscosity (matrix (self w2)) lev = op_shear_viscosity (matrix (self w)) lev /\
  op_eb_shear_viscosity (matrix (self w2)) lev =
    op_eb_shear_viscosity (matrix (self w)) lev /\
  op_level_bc (matrix (self w2)) lev = op_level_bc (matrix (self w)) lev.
Proof.
  intros (w1 & (B & M & evs & Hs1 & _ & _ & _ & _ & _ & Hbc & Hrest1 & _)
             & (R & P & M' & evs' & Hs2 & _ & _ & _ & _ & _ & _ & Ha & Hs & He & Hrest2 & _))
         Hlev.
  cbn [self out] in Hs2, Ha, Hs, He, Hrest2. rewrite Hs1 in Ha, Hs, He, Hrest2. onorm.
  destruct (Hrest1 lev Hlev) as (R1 & R2 & R3 & R4 & R5).
  destruct (Hrest2 lev Hlev) as (T1 & T2 & T3).
  rewrite Hs2, Hs1. onorm. rewrite Ha, Hs, He.
  repeat split; try assumption. rewrite T3, Hbc. reflexivity.
Qed.

(** Lines 222-223 on one patch: the valid cells and, where the halo
    exchange finds no source, the first ghost layer hold the caller's
    velocity. *)
Lemma guess_of_patch (geom : Geometry) (ph v : MultiFab) (i : nat) (bx : Box)
    (parr varr : Array4) :
  boxArray ph !! i = Some bx -> fabs ph !! i = Some parr -> fabs v !! i = Some varr ->
  exists arr : Array4,
    fabs (guess_of geom ph v) !! i = Some arr /\
    (forall (p : IntVect) (c : nat), contains bx p = true -> (c < 3)%nat ->
       arr p c = varr p c) /\
    (forall (p : IntVect) (c : nat),
       contains (grow bx 1) p = true -> (c < 3)%nat ->
       fb_source (boxArray ph) (shiftIntVect (periodicity geom)) p = None ->
       arr p c = varr p c).
Proof.
  intros Hbx Hp Hv. unfold guess_of.
  set (G := MultiFab_Copy ph v 0 0 AMREX_SPACEDIM 1).
  destruct (MultiFab_Copy_layout ph v 0 0 AMREX_SPACEDIM 1) as (Hb & Hg & _).
  fold G in Hb, Hg.
  pose proof (MultiFab_Copy_patch ph v 0 0 AMREX_SPACEDIM 1 i bx parr varr Hbx Hp Hv) as HG.
  fold G in HG.
  rewrite (FillBoundary_patch G (periodicity geom) i bx _ ltac:(rewrite Hb; exact Hbx) HG).
  eexists. split; [reflexivity|].
  assert (Hcopy : forall p c, contains (grow bx 1) p = true -> (c < 3)%nat ->
            fab_copy (grow bx 1) varr 0 0 AMREX_SPACEDIM parr p c = varr p c).
  { intros p c Hin Hc. unfold fab_copy, in_comps, AMREX_SPACEDIM. rewrite Hin.
    cbn [andb Nat.leb]. destruct (Nat.ltb_spec c (0 + 3)); [|lia].
    rewrite Nat.sub_0_r, Nat.add_0_r. reflexivity. }
  split.
  - intros p c Hin Hc. rewrite (is_ghost_valid bx _ p Hin).
    apply Hcopy; [apply contains_grow; [lia | exact Hin] | exact Hc].
  - intros p c Hin Hc Hsrc. rewrite Hb, Hsrc.
    destruct (is_ghost bx (nGrow G) p); apply Hcopy; assumption.
Qed.

(** X12. The solver [solve] calls is built from the operator as updated,
    with exactly the settings of [setSolverSettings] on the object's
    tunables (the iteration caps, the verbosities, the bottom solver chosen
    by name, the final halo fill), and is run with the object's relative
    and absolute tolerances. *)
Theorem solve_hands_over_settings
    (MLMG_ctor : LinOp -> MLMG)
    (MLMG_solve : LinOp -> MLMG -> list MultiFab -> list MultiFab -> Real -> Real ->
                  option (list (list Array4)))
    (vel_in ro_in eta_in : list MultiFab) (dt : Real) (w : World) :
  solve_ready vel_in ro_in eta_in (self w) ->
  exists (w' : World) (evs : list Event) (op : LinOp) (mlmg : MLMG)
         (sol rhs_ : list MultiFab) (rtol atol : Real),
    ((exists vel', solve MLMG_ctor MLMG_solve vel_in ro_in eta_in dt w = Normal vel' w') \/
     solve MLMG_ctor MLMG_solve vel_in ro_in eta_in dt w = Aborted w') /\
    out w' = out w ++ evs /\
    List.filter is_solver_call evs = [EvMLMGSolve op mlmg sol rhs_ rtol atol] /\
    rtol = mg_rtol (self w) /\ atol = mg_atol (self w) /\
    mlmg = setSolverSettings (self w) (MLMG_ctor op) /\
    bottom_solver mlmg =
      (if String.eqb (bottom_solver_type (self w)) "smoother" then bs_smoother
       else if String.eqb (bottom_solver_type (self w)) "hypre" then bs_hypre
       else bottom_solver (MLMG_ctor op)) /\
    max_iters mlmg = mg_max_iter (self w) /\
    max_fmg_iters mlmg = mg_max_fmg_iter (self w) /\
    cg_maxiter mlmg = mg_cg_maxiter (self w) /\
    mlmg_verbose mlmg = mg_verbose (self w) /\
    cg_verbose mlmg = mg_cg_verbose (self w) /\
    final_fill_bc mlmg = true.
Proof.
  intros Hready.
  destruct (solve_outcome MLMG_ctor MLMG_solve vel_in ro_in eta_in dt w Hready)
    as (w2 & w' & post & Hprep & Hres & Hout & Hpost).
  destruct (prepared_log _ _ _ _ _ _ Hprep) as (evs & Hout2 & Hevs).
  destruct (prepared_setup _ _ _ _ _ _ Hprep) as (Hsame & _).
  exists w', (EvSetScalars 1%float dt :: evs ++ solver_call MLMG_ctor (self w2) :: post),
    (matrix (self w2)), (solver_of MLMG_ctor (self w2)), (phi (self w2)), (rhs (self w2)),
    (mg_rtol (self w2)), (mg_atol (self w2)).
  split; [exact Hres|].
  split; [rewrite Hout, Hout2, <- app_assoc; reflexivity|].
  destruct Hevs as (_ & _ & E3), Hpost as (_ & _ & P3).
  split; [cbn [List.filter is_solver_call]; rewrite List.filter_app, E3;
          cbn [List.filter is_solver_call solver_call app]; rewrite P3; reflexivity|].
  assert (Hs : solver_of MLMG_ctor (self w2) =
               setSolverSettings (self w) (MLMG_ctor (matrix (self w2)))).
  { unfold solver_of. rewrite setFinalFillBC_after_settings.
    apply setSolverSettings_reads_tunables. exact Hsame. }
  destruct Hsame as (_ & _ & _ & _ & _ & _ & _ & _ & _ & _ & _ & _ & _ & _ & S15 & S16 & _).
  split; [exact S15|]. split; [exact S16|]. split; [exact Hs|].
  rewrite Hs. split; [apply setSolverSettings_bottom|].
  apply (setSolverSettings_controls (self w) (MLMG_ctor (matrix (self w2)))).
Qed.

(** X13. [solve] does not touch the levels beyond [finestLevel]: there the
    face coefficients and the right-hand side are what they were, and the
    operator keeps the coefficients and the level boundary data it had
    (none, if none were ever set). *)
Theorem solve_leaves_higher_levels
    (MLMG_ctor : LinOp -> MLMG)
    (MLMG_solve : LinOp -> MLMG -> list MultiFab -> list MultiFab -> Real -> Real ->
                  option (list (list Array4)))
    (vel_in ro_in eta_in : list MultiFab) (dt : Real) (w : World) :
  solve_ready vel_in ro_in eta_in (self w) ->
  exists w' : World,
    ((exists vel', solve MLMG_ctor MLMG_solve vel_in ro_in eta_in dt w = Normal vel' w') \/
     solve MLMG_ctor MLMG_solve vel_in ro_in eta_in dt w = Aborted w') /\
    forall lev : nat, finestLevel (amrcore (self w)) < Z.of_nat lev ->
      b (self w') !! lev = b (self w) !! lev /\
      rhs (self w') !! lev = rhs (self w) !! lev /\
      op_acoeffs (matrix (self w')) lev = op_acoeffs (matrix (self w)) lev /\
      op_shear_viscosity (matrix (self w')) lev =
        op_shear_viscosity (matrix (self w)) lev /\
      op_eb_shear_viscosity (matrix (self w')) lev =
        op_eb_shear_viscosity (matrix (self w)) lev /\
      op_level_bc (matrix (self w')) lev = op_level_bc (matrix (self w)) lev.
Proof.
  intros Hready.
  destruct (solve_trace MLMG_ctor MLMG_solve vel_in ro_in eta_in dt w Hready)
    as (w2 & Hprep & Hres).
  destruct (solve MLMG_ctor MLMG_solve vel_in ro_in eta_in dt w) as [vel' w'|w'|];
    [| |contradiction].
  - exists w'. split; [left; eauto|].
    destruct Hres as (sol & _ & (P & Hs3 & _) & _).
    cbn [self] in Hs3. unfold solved in Hs3. onorm.
    intros lev Hlev.
    destruct (prepared_higher_levels _ _ _ _ _ _ lev Hprep Hlev)
      as (H1 & _ & H3 & H4 & H5 & H6 & H7).
    rewrite Hs3. onorm. repeat split; assumption.
  - exists w'. split; [right; reflexivity|].
    destruct Hres as (_ & ->). cbn [self].
    intros lev Hlev.
    destruct (prepared_higher_levels _ _ _ _ _ _ lev Hprep Hlev)
      as (H1 & _ & H3 & H4 & H5 & H6 & H7).
    repeat split; assumption.
Qed.

(** X11. The initial guess [solve] hands to the solver is, on every level
    up to [finestLevel], the buffer it has registered as level boundary
    data; it has the layout of [phi] and holds the caller's velocity in
    the three components of every valid cell and of every cell of the
    first ghost layer for which the halo exchange has no source (the
    cells that carry the caller's boundary values). *)
Theorem solve_initial_guess_is_velocity
    (MLMG_ctor : LinOp -> MLMG)
    (MLMG_solve : LinOp -> MLMG -> list MultiFab -> list MultiFab -> Real -> Real ->
                  option (list (list Array4)))
    (vel_in ro_in eta_in : list MultiFab) (dt : Real) (w : World) :
  solve_ready vel_in ro_in eta_in (self w) ->
  exists (w' : World) (evs : list Event) (op : LinOp) (mlmg : MLMG)
         (sol rhs_ : list MultiFab) (rtol atol : Real),
    ((exists vel', solve MLMG_ctor MLMG_solve vel_in ro_in eta_in dt w = Normal vel' w') \/
     solve MLMG_ctor MLMG_solve vel_in ro_in eta_in dt w = Aborted w') /\
    out w' = out w ++ evs /\
    List.filter is_solver_call evs = [EvMLMGSolve op mlmg sol rhs_ rtol atol] /\
    forall (lev : nat) (v ph : MultiFab) (geom : Geometry),
      Z.of_nat lev <= finestLevel (amrcore (self w)) ->
      vel_in !! lev = Some v -> phi (self w) !! lev = Some ph ->
      Geom (amrcore (self w)) !! lev = Some geom ->
      exists g : MultiFab,
        sol !! lev = Some g /\ op_level_bc op lev = Some g /\
        boxArray g = boxArray ph /\ nGrow g = nGrow ph /\
        forall (i : nat) (bx : Box) (parr varr : Array4),
          boxArray ph !! i = Some bx -> fabs ph !! i = Some parr ->
          fabs v !! i = Some varr ->
          exists arr : Array4,
            fabs g !! i = Some arr /\
            (forall (p : IntVect) (c : nat), contains bx p = true -> (c < 3)%nat ->
               arr p c = varr p c) /\
            (forall (p : IntVect) (c : nat),
               contains (grow bx 1) p = true -> (c < 3)%nat ->
               fb_source (boxArray ph) (shiftIntVect (periodicity geom)) p = None ->
               arr p c = varr p c).
Proof.
  intros Hready.
  destruct (solve_outcome MLMG_ctor MLMG_solve vel_in ro_in eta_in dt w Hready)
    as (w2 & w' & post & Hprep & Hres & Hout & Hpost).
  destruct (prepared_log _ _ _ _ _ _ Hprep) as (evs & Hout2 & Hevs).
  exists w', (EvSetScalars 1%float dt :: evs ++ solver_call MLMG_ctor (self w2) :: post),
    (matrix (self w2)), (solver_of MLMG_ctor (self w2)), (phi (self w2)), (rhs (self w2)),
    (mg_rtol (self w2)), (mg_atol (self w2)).
  split; [exact Hres|].
  split; [rewrite Hout, Hout2, <- app_assoc; reflexivity|].
  destruct Hevs as (_ & _ & E3), Hpost as (_ & _ & P3).
  split; [cbn [List.filter is_solver_call]; rewrite List.filter_app, E3;
          cbn [List.filter is_solver_call solver_call app]; rewrite P3; reflexivity|].
  intros lev v ph geom Hlev Hv Hph Hgeom.
  destruct (Hready lev Hlev) as (_ & _ & [r Hr] & _ & _ & [ro Hro] & _).
  destruct (prepared_buffers _ _ _ _ _ _ Hprep lev r v ro ph geom Hlev Hr Hv Hro Hph Hgeom)
    as (_ & HP).
  assert (Hbc : op_level_bc (matrix (self w2)) lev = Some (guess_of geom ph v)).
  { destruct Hprep as (w1 & (B & M & evs1 & Hs1 & _)
                          & (R & P & M' & evs' & Hs2 & _ & _ & _ & _ & _ & _ & _ & _ & _ & _
                             & Hdone)).
    cbn [self out] in Hs2, Hdone. rewrite Hs1 in Hdone. onorm.
    destruct (Hdone lev r v ro ph geom Hlev Hr Hv Hro Hph Hgeom) as (_ & _ & D3).
    rewrite Hs2. onorm. exact D3. }
  destruct (guess_of_layout geom ph v) as (Hb & Hg).
  exists (guess_of geom ph v). do 4 (split; [assumption|]).
  intros i bx parr varr Hbx Hparr Hvarr.
  exact (guess_of_patch geom ph v i bx parr varr Hbx Hparr Hvarr).
Qed.


(** * When the behaviour of [solve] is defined *)

(** Indexing, when undefined behaviour is tolerated: what follows may
    assume the index was in range. *)
Lemma triple_at_any {A} (v : list A) (i : nat) w (Q : A -> World -> Prop) Qa :
  (forall x, v !! i = Some x -> Q x w) -> triple (at_ v i) w Q Qa True.
Proof. unfold triple, at_. destruct (v !! i); auto. Qed.

Lemma triple_const {A} (m : M A) (w : World) (P : Prop) :
  P -> triple m w (fun _ _ => P) (fun _ => P) True.
Proof. intros H. unfold triple. destruct (m w); auto. Qed.

Ltac ustep :=
  lazymatch goal with
  | |- triple (at_ _ _) _ _ _ _ => apply triple_at_any; intros ? ?
  | _ => tstep
  end.

(** If the coefficient loop comes to its end, every vector it indexed
    covered the levels up to [finestLevel]. *)
Lemma refresh_coefficients_needs (ro_in eta_in : list MultiFab) (dt : Real) (w : World) :
  triple (refresh_coefficients ro_in eta_in dt) w
         (fun _ w1 =>
            refresh_ready ro_in eta_in (self w) /\
            amrcore (self w1) = amrcore (self w) /\
            phi (self w1) = phi (self w) /\ rhs (self w1) = rhs (self w))
         (fun _ => False) True.
Proof.
  unfold refresh_coefficients, levels_upto, for_.
  do 4 ustep. onorm.
  remember (Z.to_nat (finestLevel (amrcore (self w)) + 1)) as N eqn:HN.
  pose (Inv := fun (k : nat) (_ : unit) (w1 : World) =>
    amrcore (self w1) = amrcore (self w) /\
    length (b (self w1)) = length (b (self w)) /\
    phi (self w1) = phi (self w) /\ rhs (self w1) = rhs (self w) /\
    forall lev : nat, (lev < k)%nat ->
      is_Some (b (self w) !! lev) /\ is_Some (Geom (amrcore (self w)) !! lev) /\
      is_Some (ro_in !! lev) /\ is_Some (eta_in !! lev)).
  eapply triple_conseq;
    [apply (triple_for_levels N _ Inv (fun _ => False) True) | | auto].
  - repeat split; try reflexivity; lia.
  - intros i [] w1 Hi (Ham & Hlb & Hphi & Hrhs & Hdone).
    cbv zeta. repeat ustep. onorm.
    unfold Inv. onorm. rewrite length_insert.
    do 4 (split; [assumption|]).
    intros lev Hlev. destruct (decide (lev = i)) as [->|NE]; [|apply Hdone; lia].
    rewrite Ham in *.
    repeat split; eauto.
    apply lookup_lt_is_Some. rewrite <- Hlb. apply lookup_lt_is_Some. eauto.
  - intros [] w1 (Ham & Hlb & Hphi & Hrhs & Hdone).
    split; [|auto]. intros lev Hlev. apply Hdone. lia.
Qed.

(** The same for the right-hand-side loop. *)
Lemma build_rhs_needs (vel_in ro_in : list MultiFab) (w : World) :
  triple (build_rhs vel_in ro_in) w
         (fun _ _ =>
            forall lev : nat, Z.of_nat lev <= finestLevel (amrcore (self w)) ->
              is_Some (rhs (self w) !! lev) /\ is_Some (vel_in !! lev) /\
              is_Some (ro_in !! lev) /\ is_Some (phi (self w) !! lev) /\
              is_Some (Geom (amrcore (self w)) !! lev))
         (fun _ => False) True.
Proof.
  unfold build_rhs, levels_upto, for_.
  do 2 ustep.
  remember (Z.to_nat (finestLevel (amrcore (self w)) + 1)) as N eqn:HN.
  pose (Inv := fun (k : nat) (_ : unit) (w1 : World) =>
    amrcore (self w1) = amrcore (self w) /\
    length (rhs (self w1)) = length (rhs (self w)) /\
    length (phi (self w1)) = length (phi (self w)) /\
    forall lev : nat, (lev < k)%nat ->
      is_Some (rhs (self w) !! lev) /\ is_Some (vel_in !! lev) /\
      is_Some (ro_in !! lev) /\ is_Some (phi (self w) !! lev) /\
      is_Some (Geom (amrcore (self w)) !! lev)).
  eapply triple_conseq;
    [apply (triple_for_levels N _ Inv (fun _ => False) True) | | auto].
  - repeat split; try reflexivity; lia.
  - intros i [] w1 Hi (Ham & Hlr & Hlp & Hdone).
    cbv zeta. repeat ustep. onorm.
    unfold Inv. onorm. rewrite !length_insert.
    do 3 (split; [assumption|]).
    intros lev Hlev. destruct (decide (lev = i)) as [->|NE]; [|apply Hdone; lia].
    rewrite Ham in *.
    repeat split; eauto.
    + apply lookup_lt_is_Some. rewrite <- Hlr. apply lookup_lt_is_Some. eauto.
    + apply lookup_lt_is_Some. rewrite <- Hlp. apply lookup_lt_is_Some. eauto.
  - intros [] w1 (Ham & Hlr & Hlp & Hdone) lev Hlev. apply Hdone. lia.
Qed.

(** X8. The behaviour of [solve] is defined exactly when the object's
    buffers, the hierarchy's geometries and the caller's three vectors
    have an entry for every level up to [finestLevel]: a vector that is
    too short is indexed out of range. *)
Theorem solve_defined_iff_ready
    (MLMG_ctor : LinOp -> MLMG)
    (MLMG_solve : LinOp -> MLMG -> list MultiFab -> list MultiFab -> Real -> Real ->
                  option (list (list Array4)))
    (vel_in ro_in eta_in : list MultiFab) (dt : Real) (w : World) :
  solve MLMG_ctor MLMG_solve vel_in ro_in eta_in dt w <> Undefined <->
  solve_ready vel_in ro_in eta_in (self w).
Proof.
  split.
  - intros Hdef.
    assert (H : triple (solve MLMG_ctor MLMG_solve vel_in ro_in eta_in dt) w
                  (fun _ _ => solve_ready vel_in ro_in eta_in (self w))
                  (fun _ => solve_ready vel_in ro_in eta_in (self w)) True).
    { unfold solve. tstep.
      eapply triple_conseq;
        [apply (refresh_coefficients_needs ro_in eta_in dt w) | | intros ? []].
      intros [] w1 (Hr1 & Ham & Hphi & Hrhs). cbv beta.
      do 3 tstep. apply triple_when_print. tstep.
      eapply triple_conseq; [apply build_rhs_needs | | intros ? []].
      intros [] w2 Hr2. cbv beta. cbn [self] in Hr2.
      apply triple_const.
      intros lev Hlev.
      destruct (Hr1 lev Hlev) as (R1 & R2 & R3 & R4).
      rewrite Ham, Hphi, Hrhs in Hr2.
      destruct (Hr2 lev Hlev) as (B1 & B2 & B3 & B4 & B5).
      repeat split; assumption. }
    unfold triple in H.
    destruct (solve MLMG_ctor MLMG_solve vel_in ro_in eta_in dt w);
      [exact H | exact H | contradiction].
  - intros Hready E.
    pose proof (solve_run MLMG_ctor MLMG_solve vel_in ro_in eta_in dt w Hready) as H.
    unfold triple in H. rewrite E in H. exact H.
Qed.

(** * The settings and the input *)



(** * The face coefficients *)

(** The face buffer [g] holds, on the faces in direction [dir] of every
    patch of [eta], the mean of the two cell values of [eta] that share
    the face; [f] is the buffer [g] was computed into, laid out on the
    face boxes of [eta]'s grid. *)
Definition face_averaged (dir : nat) (eta f g : MultiFab) : Prop :=
  forall (i : nat) (bx : Box) (c d : Array4),
    boxArray eta !! i = Some bx -> fabs eta !! i = Some c ->
    boxArray f !! i = Some (surroundingNodes bx dir) -> fabs f !! i = Some d ->
    exists arr : Array4,
      fabs g !! i = Some arr /\
      forall p : IntVect, contains (surroundingNodes bx dir) p = true ->
        arr p 0%nat =
        PrimFloat.mul 0.5 (PrimFloat.add (c (lower_neighbour dir p) 0%nat) (c p 0%nat)).

Lemma refresh_dir_face_averaged (dir : nat) (eta : MultiFab) (per : Periodicity)
    (f : MultiFab) :
  face_averaged dir eta f (refresh_dir dir eta per f).
Proof.
  intros i bx c d Hbx Hc Hbf Hd. unfold refresh_dir.
  assert (HY : fabs (average_dir dir f eta) !! i = Some (avg_kernel dir eta i d))
    by (rewrite fabs_average_dir, Hd; reflexivity).
  assert (HbY : boxArray (average_dir dir f eta) !! i = Some (surroundingNodes bx dir))
    by exact Hbf.
  rewrite (FillBoundary_patch _ per i _ _ HbY HY).
  eexists. split; [reflexivity|].
  intros p Hp. cbv beta. rewrite (is_ghost_valid _ _ p Hp).
  unfold avg_kernel. rewrite Hbx, Hc, Hp. reflexivity.
Qed.

Lemma refreshed_b_face_averaged (geom : Geometry) (eta fx fy fz : MultiFab) :
  exists gx gy gz : MultiFab,
    refreshed_b geom eta (fx, fy, fz) = (gx, gy, gz) /\
    face_averaged 0 eta fx gx /\ face_averaged 1 eta fy gy /\ face_averaged 2 eta fz gz.
Proof.
  exists (refresh_dir 0 eta (periodicity geom) fx),
    (refresh_dir 1 eta (periodicity geom) fy),
    (refresh_dir 2 eta (periodicity geom) fz).
  split; [reflexivity|].
  repeat split; apply refresh_dir_face_averaged.
Qed.

Lemma prepared_b (vel_in ro_in eta_in : list MultiFab) (dt : Real) (w w2 : World)
    (lev : nat) (blev : Array3 MultiFab) (eta : MultiFab) (geom : Geometry)
    (ro : MultiFab) :
  prepared vel_in ro_in eta_in dt w w2 ->
  Z.of_nat lev <= finestLevel (amrcore (self w)) ->
  b (self w) !! lev = Some blev -> eta_in !! lev = Some eta ->
  Geom (amrcore (self w)) !! lev = Some geom -> ro_in !! lev = Some ro ->
  b (self w2) !! lev = Some (refreshed_b geom eta blev).
Proof.
  intros (w1 & (B & M & evs & Hs1 & _ & _ & _ & _ & _ & _ & _ & Hdone)
             & (R & P & M' & evs' & Hs2 & _)) Hlev Hb Heta Hgeom Hro.
  cbn [self out] in Hs2.
  destruct (Hdone lev blev eta geom ro Hlev Hb Heta Hgeom Hro) as (D1 & _).
  rewrite Hs2, Hs1. onorm. exact D1.
Qed.

(** X16. The b coefficients [solve] hands to the solver are face means of
    the viscosity: on every level up to [finestLevel], in each direction,
    for face buffers laid out on the face boxes of the viscosity's grid,
    the coefficient on a face of a patch is half the sum of the viscosity
    in the two cells that share the face; the object's own [b] buffers
    hold the same. *)
Theorem solve_face_coefficients_are_cell_means
    (MLMG_ctor : LinOp -> MLMG)
    (MLMG_solve : LinOp -> MLMG -> list MultiFab -> list MultiFab -> Real -> Real ->
                  option (list (list Array4)))
    (vel_in ro_in eta_in : list MultiFab) (dt : Real) (w : World) :
  solve_ready vel_in ro_in eta_in (self w) ->
  exists (w' : World) (evs : list Event) (op : LinOp) (mlmg : MLMG)
         (sol rhs_ : list MultiFab) (rtol atol : Real),
    ((exists vel', solve MLMG_ctor MLMG_solve vel_in ro_in eta_in dt w = Normal vel' w') \/
     solve MLMG_ctor MLMG_solve vel_in ro_in eta_in dt w = Aborted w') /\
    out w' = out w ++ evs /\
    List.filter is_solver_call evs = [EvMLMGSolve op mlmg sol rhs_ rtol atol] /\
    forall (lev : nat) (fx fy fz eta : MultiFab),
      Z.of_nat lev <= finestLevel (amrcore (self w)) ->
      b (self w) !! lev = Some (fx, fy, fz) -> eta_in !! lev = Some eta ->
      exists gx gy gz : MultiFab,
        op_shear_viscosity op lev = Some (gx, gy, gz) /\
        b (self w') !! lev = Some (gx, gy, gz) /\
        face_averaged 0 eta fx gx /\ face_averaged 1 eta fy gy /\
        face_averaged 2 eta fz gz.
Proof.
  intros Hready.
  destruct (solve_trace MLMG_ctor MLMG_solve vel_in ro_in eta_in dt w Hready)
    as (w2 & Hprep & Hres).
  destruct (prepared_log _ _ _ _ _ _ Hprep) as (evs & Hout2 & Hevs).
  destruct (prepared_operator _ _ _ _ _ _ Hprep) as (_ & _ & Hco).
  assert (Hmain : forall w' : World, b (self w') = b (self w2) ->
            forall (lev : nat) (fx fy fz eta : MultiFab),
              Z.of_nat lev <= finestLevel (amrcore (self w)) ->
              b (self w) !! lev = Some (fx, fy, fz) -> eta_in !! lev = Some eta ->
              exists gx gy gz : MultiFab,
                op_shear_viscosity (matrix (self w2)) lev = Some (gx, gy, gz) /\
                b (self w') !! lev = Some (gx, gy, gz) /\
                face_averaged 0 eta fx gx /\ face_averaged 1 eta fy gy /\
                face_averaged 2 eta fz gz).
  { intros w' Hb' lev fx fy fz eta Hlev Hb Heta.
    destruct (Hready lev Hlev) as (_ & _ & _ & [geom Hgeom] & _ & [ro Hro] & _).
    destruct (Hco lev (fx, fy, fz) eta geom ro Hlev Hb Heta Hgeom Hro) as (_ & C2 & _).
    pose proof (prepared_b _ _ _ _ _ _ lev (fx, fy, fz) eta geom ro Hprep Hlev Hb Heta
                  Hgeom Hro) as HB.
    destruct (refreshed_b_face_averaged geom eta fx fy fz) as (gx & gy & gz & E & F).
    exists gx, gy, gz. rewrite C2, Hb', HB, E. auto. }
  destruct Hevs as (_ & _ & E3).
  destruct (solve MLMG_ctor MLMG_solve vel_in ro_in eta_in dt w) as [vel' w'|w'|];
    [| |contradiction].
  - destruct Hres as (sol & _ & (P & Hs3 & _) & Ho').
    cbn [self] in Hs3. unfold solved in Hs3. onorm.
    exists w',
      (EvSetScalars 1%float dt :: evs ++ solver_call MLMG_ctor (self w2) ::
       print_if (0 <? verbose (self w)) " done!"),
      (matrix (self w2)), (solver_of MLMG_ctor (self w2)), (phi (self w2)),
      (rhs (self w2)), (mg_rtol (self w2)), (mg_atol (self w2)).
    split; [left; eauto|].
    split; [rewrite Ho', Hout2, <- app_assoc; reflexivity|].
    split.
    + cbn [List.filter is_solver_call]. rewrite List.filter_app, E3.
      cbn [List.filter is_solver_call solver_call app].
      destruct (0 <? verbose (self w)); reflexivity.
    + apply Hmain. rewrite Hs3. reflexivity.
  - destruct Hres as (_ & ->).
    exists (MkWorld (self w2) (out w2 ++ [solver_call MLMG_ctor (self w2)])),
      (EvSetScalars 1%float dt :: evs ++ [solver_call MLMG_ctor (self w2)]),
      (matrix (self w2)), (solver_of MLMG_ctor (self w2)), (phi (self w2)),
      (rhs (self w2)), (mg_rtol (self w2)), (mg_atol (self w2)).
    split; [right; reflexivity|].
    split; [cbn [out]; rewrite Hout2, <- app_assoc; reflexivity|].
    split.
    + cbn [List.filter is_solver_call]. rewrite List.filter_app, E3. reflexivity.
    + apply Hmain. reflexivity.
Qed.

(** * The layout of the buffers across [solve] *)

(** [m'] is laid out as [m]: the same boxes, number of components and
    ghost width. *)
Definition same_layout (m m' : MultiFab) : Prop :=
  boxArray m' = boxArray m /\ nComp m' = nComp m /\ nGrow m' = nGrow m.

Lemma same_layout_refl (m : MultiFab) : same_layout m m.
Proof. repeat split. Qed.

Lemma same_layout_trans (m1 m2 m3 : MultiFab) :
  same_layout m1 m2 -> same_layout m2 m3 -> same_layout m1 m3.
Proof. unfold same_layout. intros (A1 & A2 & A3) (B1 & B2 & B3). repeat split; congruence. Qed.

Lemma same_layout_rhs_of (r v ro : MultiFab) : same_layout r (rhs_of r v ro).
Proof. repeat split. Qed.

Lemma same_layout_guess_of (geom : Geometry) (ph v : MultiFab) :
  same_layout ph (guess_of geom ph v).
Proof. repeat split. Qed.

Lemma same_layout_FillBoundary (m : MultiFab) (per : Periodicity) :
  same_layout m (FillBoundary m per).
Proof. repeat split. Qed.

Lemma same_layout_refresh_dir (dir : nat) (cc : MultiFab) (per : Periodicity)
    (fc : MultiFab) :
  same_layout fc (refresh_dir dir cc per fc).
Proof. repeat split. Qed.

Lemma same_layout_store_solution (phi_ : list MultiFab) (sol : list (list Array4))
    (lev : nat) (ph : MultiFab) :
  phi_ !! lev = Some ph ->
  exists ph', store_solution phi_ sol !! lev = Some ph' /\ same_layout ph ph'.
Proof.
  intros H. unfold store_solution. rewrite list_lookup_imap, H.
  cbn [fmap option_fmap option_map].
  destruct (sol !! lev); eexists; (split; [reflexivity|]); repeat split.
Qed.

(** The three buffers of a level. *)
Definition buffers_laid_out_as (o o' : DiffusionEquation) (lev : nat) : Prop :=
  (forall fx fy fz : MultiFab, b o !! lev = Some (fx, fy, fz) ->
     exists gx gy gz : MultiFab,
       b o' !! lev = Some (gx, gy, gz) /\
       same_layout fx gx /\ same_layout fy gy /\ same_layout fz gz) /\
  (forall ph : MultiFab, phi o !! lev = Some ph ->
     exists ph' : MultiFab, phi o' !! lev = Some ph' /\ same_layout ph ph') /\
  (forall r : MultiFab, rhs o !! lev = Some r ->
     exists r' : MultiFab, rhs o' !! lev = Some r' /\ same_layout r r').

Lemma prepared_layouts (vel_in ro_in eta_in : list MultiFab) (dt : Real) (w w2 : World)
    (lev : nat) :
  solve_ready vel_in ro_in eta_in (self w) ->
  prepared vel_in ro_in eta_in dt w w2 ->
  buffers_laid_out_as (self w) (self w2) lev.
Proof.
  intros Hready Hprep.
  destruct (Z_le_gt_dec (Z.of_nat lev) (finestLevel (amrcore (self w)))) as [Hle|Hgt].
  - destruct (Hready lev Hle) as (_ & _ & _ & [geom Hgeom] & [v Hv] & [ro Hro] & [eta Heta]).
    split; [|split].
    + intros fx fy fz Hb.
      rewrite (prepared_b _ _ _ _ _ _ lev (fx, fy, fz) eta geom ro Hprep Hle Hb Heta
                 Hgeom Hro).
      exists (refresh_dir 0 eta (periodicity geom) fx),
        (refresh_dir 1 eta (periodicity geom) fy),
        (refresh_dir 2 eta (periodicity geom) fz).
      split; [reflexivity|]. repeat split.
    + intros ph Hph.
      destruct (Hready lev Hle) as (_ & _ & [r Hr] & _).
      destruct (prepared_buffers _ _ _ _ _ _ Hprep lev r v ro ph geom Hle Hr Hv Hro Hph
                  Hgeom) as (_ & HP).
      eexists. split; [exact HP|]. apply same_layout_guess_of.
    + intros r Hr.
      destruct (Hready lev Hle) as (_ & [ph Hph] & _).
      destruct (prepared_buffers _ _ _ _ _ _ Hprep lev r v ro ph geom Hle Hr Hv Hro Hph
                  Hgeom) as (HR & _).
      eexists. split; [exact HR|]. apply same_layout_rhs_of.
  - destruct (prepared_higher_levels _ _ _ _ _ _ lev Hprep ltac:(lia))
      as (H1 & H2 & H3 & _).
    split; [|split].
    + intros fx fy fz Hb. exists fx, fy, fz. rewrite H1.
      split; [exact Hb|]. repeat split.
    + intros ph Hph. exists ph. rewrite H2. split; [exact Hph|]. repeat split.
    + intros r Hr. exists r. rewrite H3. split; [exact Hr|]. repeat split.
Qed.

(** X17. [solve] changes the data of the buffers [b], [phi] and [rhs],
    never their layout: on every level each of them has, after [solve]
    (whether it returns or the solver gives up), the boxes, the number of
    components and the ghost width it had before. *)
Theorem solve_keeps_buffer_layouts
    (MLMG_ctor : LinOp -> MLMG)
    (MLMG_solve : LinOp -> MLMG -> list MultiFab -> list MultiFab -> Real -> Real ->
                  option (list (list Array4)))
    (vel_in ro_in eta_in : list MultiFab) (dt : Real) (w : World) :
  solve_ready vel_in ro_in eta_in (self w) ->
  exists w' : World,
    ((exists vel', solve MLMG_ctor MLMG_solve vel_in ro_in eta_in dt w = Normal vel' w') \/
     solve MLMG_ctor MLMG_solve vel_in ro_in eta_in dt w = Aborted w') /\
    forall lev : nat,
      (forall fx fy fz : MultiFab, b (self w) !! lev = Some (fx, fy, fz) ->
         exists gx gy gz : MultiFab,
           b (self w') !! lev = Some (gx, gy, gz) /\
           (boxArray gx = boxArray fx /\ nComp gx = nComp fx /\ nGrow gx = nGrow fx) /\
           (boxArray gy = boxArray fy /\ nComp gy = nComp fy /\ nGrow gy = nGrow fy) /\
           (boxArray gz = boxArray fz /\ nComp gz = nComp fz /\ nGrow gz = nGrow fz)) /\
      (forall ph : MultiFab, phi (self w) !! lev = Some ph ->
         exists ph' : MultiFab,
           phi (self w') !! lev = Some ph' /\
           boxArray ph' = boxArray ph /\ nComp ph' = nComp ph /\ nGrow ph' = nGrow ph) /\
      (forall r : MultiFab, rhs (self w) !! lev = Some r ->
         exists r' : MultiFab,
           rhs (self w') !! lev = Some r' /\
           boxArray r' = boxArray r /\ nComp r' = nComp r /\ nGrow r' = nGrow r).
Proof.
  intros Hready.
  destruct (solve_trace MLMG_ctor MLMG_solve vel_in ro_in eta_in dt w Hready)
    as (w2 & Hprep & Hres).
  destruct (prepared_setup _ _ _ _ _ _ Hprep)
    as ((Ham & _ & _ & _ & _ & _ & _ & _ & _ & _ & _ & _ & _ & _ & _ & _ & _ & _ & LP & _) & _).
  destruct (solve MLMG_ctor MLMG_solve vel_in ro_in eta_in dt w) as [vel' w'|w'|];
    [| |contradiction].
  - exists w'. split; [left; eauto|].
    destruct Hres as (sol & _ & (P & Hs3 & _ & _ & _ & Hrest & Hdone) & _).
    cbn [self] in Hs3. unfold solved in Hs3, Hrest, Hdone. onorm. rewrite Ham in *.
    intros lev.
    destruct (prepared_layouts _ _ _ _ _ _ lev Hready Hprep) as (Lb & Lp & Lr).
    rewrite Hs3. onorm.
    split; [exact Lb|]. split; [|exact Lr].
    intros ph Hph. destruct (Lp ph Hph) as (ph2 & Hph2 & L2).
    destruct (same_layout_store_solution (phi (self w2)) sol lev ph2 Hph2)
      as (ph3 & Hph3 & L3).
    destruct (Z_le_gt_dec (Z.of_nat lev) (finestLevel (amrcore (self w)))) as [Hle|Hgt].
    + destruct (Hready lev Hle) as (_ & _ & _ & [geom Hgeom] & [v Hv] & _).
      destruct (Hdone lev ph3 geom v Hle Hph3 Hgeom Hv) as (HP & _).
      eexists. split; [exact HP|].
      apply (same_layout_trans ph ph3); [|apply same_layout_FillBoundary].
      apply (same_layout_trans ph ph2); assumption.
    + destruct (Hrest lev ltac:(lia)) as (HP & _).
      exists ph3. split; [rewrite HP; exact Hph3|].
      apply (same_layout_trans ph ph2); assumption.
  - exists w'. split; [right; reflexivity|].
    destruct Hres as (_ & ->). cbn [self].
    intros lev. exact (prepared_layouts _ _ _ _ _ _ lev Hready Hprep).
Qed.

(** * When the behaviour of the constructor is defined *)


Section CtorNeeds.

Variables (sin cos : Real -> Real) (atan2 : Real -> Real -> Real).
Variable tiling : MultiFab -> list (nat * Box).
Variable fresh : nat -> nat -> nat -> Array4.
Variable set_diff_bc :
  Box -> Z -> IArrayBox -> IArrayBox -> IArrayBox -> IArrayBox -> IArrayBox ->
  IArrayBox -> Array3 Z * Array3 Z.






End CtorNeeds.


(** * The further theorems on the small mesh *)

Lemma ex_max_level : 0 <= maxLevel ex_amrcore.
Proof. simpl. lia. Defined.

Lemma ctor_allocates_buffers_witness :
  exists w',
    ex_ctor (fun x => x) (fun x => x) (fun y _ => y) = Normal tt w' /\
    Z.of_nat (length (phi (self w'))) = 1 /\
    exists r : MultiFab, rhs (self w') !! 0%nat = Some r /\ laid_out r [ex_box] 3 0.
Proof.
  destruct (ctor_allocates_buffers (fun x => x) (fun x => x) (fun y _ => y)
              ex_tiling ex_fresh ex_set_diff_bc ex_pp ex_amrcore ex_ebfactory
              ex_bc ex_bc ex_bc ex_bc ex_bc ex_bc 1 ex_speed (MkWorld ex_blank [])
              ex_ctor_ready ex_max_level) as (w' & Hrun & _ & HlP & _ & _ & Hlev).
  exists w'. split; [exact Hrun|]. split; [exact HlP|].
  destruct (Hlev 0%nat [ex_box] ex_max_level eq_refl)
    as (bx & by_ & bz & ph & r & v & _ & _ & Hr & _ & _ & _ & _ & _ & Lr & _).
  exists r. split; [exact Hr | exact Lr].
Defined.

Lemma ctor_sets_up_operator_witness :
  exists w',
    ex_ctor (fun x => x) (fun x => x) (fun y _ => y) = Normal tt w' /\
    op_max_order (matrix (self w')) = Some 3 /\
    op_scalars (matrix (self w')) = None.
Proof.
  destruct (ctor_sets_up_operator (fun x => x) (fun x => x) (fun y _ => y)
              ex_tiling ex_fresh ex_set_diff_bc ex_pp ex_amrcore ex_ebfactory
              ex_bc ex_bc ex_bc ex_bc ex_bc ex_bc 1 ex_speed (MkWorld ex_blank [])
              ex_ctor_ready)
    as (w' & g0 & ilo & ihi & jlo & jhi & klo & khi & Hrun & _ & _ & _ & _ & _ & _ & _
        & _ & _ & _ & Hord & _ & Hsc & _).
  exists w'. split; [exact Hrun|]. split; [exact Hord | exact Hsc].
Defined.

Lemma ctor_reads_input_then_prints_witness :
  exists w',
    ex_ctor (fun x => x) (fun x => x) (fun y _ => y) = Normal tt w' /\
    out w' = [] /\ mg_max_iter (self w') = 100.
Proof.
  destruct (ctor_reads_input_then_prints (fun x => x) (fun x => x) (fun y _ => y)
              ex_tiling ex_fresh ex_set_diff_bc ex_pp ex_amrcore ex_ebfactory
              ex_bc ex_bc ex_bc ex_bc ex_bc ex_bc 1 ex_speed (MkWorld ex_blank [])
              ex_ctor_ready) as (w' & Hrun & Hpar & Hout).
  exists w'. split; [exact Hrun|]. split; [exact Hout|].
  destruct Hpar as (_ & _ & _ & Hmax & _). exact Hmax.
Defined.

(** The ghost cell (4,0,0) of the patch lies in no tile. *)
Lemma ctor_never_writes_outside_tiles_witness :
  exists w',
    ex_ctor (fun x => x) (fun x => x) (fun y _ => y) = Normal tt w' /\
    exists (mf : MultiFab) (arr : Array4),
      vel_eb (self w') !! 0%nat = Some mf /\ fabs mf !! 0%nat = Some arr /\
      forall n : nat, arr (4, 0, 0) n = 7%float.
Proof.
  destruct (ctor_never_writes_outside_tiles (fun x => x) (fun x => x) (fun y _ => y)
              ex_tiling ex_fresh ex_set_diff_bc ex_pp ex_amrcore ex_ebfactory
              ex_bc ex_bc ex_bc ex_bc ex_bc ex_bc 1 ex_speed (MkWorld ex_blank [])
              ex_ctor_ready) as (w' & Hrun & Hall).
  exists w'. split; [exact Hrun|].
  destruct (Hall 0%nat [ex_box] 0%nat ex_max_level eq_refl ltac:(simpl; lia))
    as (mf & arr & Hmf & Harr & Hval).
  exists mf, arr. split; [exact Hmf|]. split; [exact Harr|].
  apply Hval. intros bx Hin.
  apply elem_of_cons in Hin as [E|Hin]; [inversion E; reflexivity|].
  apply elem_of_cons in Hin as [E|Hin]; [inversion E; reflexivity|].
  inversion Hin.
Defined.

Lemma ctor_regular_tile_sets_one_component_witness :
  exists w',
    ex_ctor (fun x => x) (fun x => x) (fun y _ => y) = Normal tt w' /\
    exists (mf : MultiFab) (arr : Array4),
      vel_eb (self w') !! 0%nat = Some mf /\ fabs mf !! 0%nat = Some arr /\
      arr (2, 0, 0) 0%nat = 0%float /\ arr (2, 0, 0) 1%nat = 7%float.
Proof.
  destruct (ctor_regular_tile_sets_one_component (fun x => x) (fun x => x) (fun y _ => y)
              ex_tiling ex_fresh ex_set_diff_bc ex_pp ex_amrcore ex_ebfactory
              ex_bc ex_bc ex_bc ex_bc ex_bc ex_bc 1 ex_speed (MkWorld ex_blank [])
              ex_ctor_ready ex_tiles_disjoint) as (w' & Hrun & Hall).
  exists w'. split; [exact Hrun|].
  destruct (Hall 0%nat [ex_box] (MkEBFactory [ex_flags] [ex_normal]) 0%nat ex_tile2 ex_flags
              ex_max_level eq_refl eq_refl)
    as (mf & arr & Hmf & Harr & Hval).
  - apply elem_of_cons. right. apply elem_of_cons. left. reflexivity.
  - reflexivity.
  - reflexivity.
  - exists mf, arr. split; [exact Hmf|]. split; [exact Harr|].
    split; [apply (Hval (2, 0, 0) 0%nat) | apply (Hval (2, 0, 0) 1%nat)]; reflexivity.
Defined.

(** The two tiles of the small mesh, visited in the other order. *)
Definition ex_tiling_swapped : MultiFab -> list (nat * Box) :=
  fun _ => [(0%nat, ex_tile2); (0%nat, ex_tile1)].

Lemma ctor_tile_order_irrelevant_witness :
  exists w',
    ex_ctor (fun x => x) (fun x => x) (fun y _ => y) = Normal tt w' /\
    ctor (fun x => x) (fun x => x) (fun y _ => y) ex_tiling_swapped ex_fresh
         ex_set_diff_bc ex_pp ex_amrcore ex_ebfactory
         ex_bc ex_bc ex_bc ex_bc ex_bc ex_bc 1 ex_speed (MkWorld ex_blank [])
    = Normal tt w'.
Proof.
  apply (ctor_tile_order_irrelevant (fun x => x) (fun x => x) (fun y _ => y)
           ex_tiling ex_tiling_swapped ex_fresh ex_set_diff_bc ex_pp ex_amrcore ex_ebfactory
           ex_bc ex_bc ex_bc ex_bc ex_bc ex_bc 1 ex_speed (MkWorld ex_blank [])
           ex_ctor_ready ex_tiles_disjoint).
  intros mf. apply perm_swap.
Defined.




Lemma ex_solve_returns :
  exists (vel' : list MultiFab) (w' : World),
    solve ex_MLMG_ctor ex_MLMG_solve ex_vel ex_ro ex_eta ex_dt ex_world = Normal vel' w'.
Proof.
  destruct (solve ex_MLMG_ctor ex_MLMG_solve ex_vel ex_ro ex_eta ex_dt ex_world)
    as [vel' w'|w'|] eqn:E.
  - exists vel', w'. reflexivity.
  - vm_compute in E. discriminate E.
  - vm_compute in E. discriminate E.
Qed.

(** The object of the small mesh is quiet ([verbose] is 0). *)
Lemma solve_prints_witness :
  exists (before : list Event) (call : Event),
    is_solver_call call = true /\ List.filter is_print before = [] /\
    exists (vel' : list MultiFab) (w' : World),
      solve ex_MLMG_ctor ex_MLMG_solve ex_vel ex_ro ex_eta ex_dt ex_world = Normal vel' w' /\
      out w' = before ++ [call].
Proof.
  destruct (solve_prints ex_MLMG_ctor ex_MLMG_solve ex_vel ex_ro ex_eta ex_dt ex_world
              ex_solve_ready) as (before & call & Hcall & Hpr & Hres).
  exists before, call. split; [exact Hcall|]. split; [exact Hpr|].
  destruct ex_solve_returns as (vel' & w' & Hrun).
  exists vel', w'. split; [exact Hrun|]. rewrite Hrun in Hres. exact Hres.
Defined.

Lemma solve_keeps_setup_witness :
  exists (vel' : list MultiFab) (w' : World),
    solve ex_MLMG_ctor ex_MLMG_solve ex_vel ex_ro ex_eta ex_dt ex_world = Normal vel' w' /\
    same_setup (self ex_world) (self w') /\ solve_ready vel' ex_ro ex_eta (self w').
Proof.
  pose proof (solve_keeps_setup ex_MLMG_ctor ex_MLMG_solve ex_vel ex_ro ex_eta ex_dt
                ex_world ex_solve_ready) as H.
  destruct ex_solve_returns as (vel' & w' & Hrun).
  exists vel', w'. split; [exact Hrun|]. rewrite Hrun in H.
  destruct H as (H1 & _ & H3). split; [exact H1 | exact H3].
Defined.

(** The initial guess on the small mesh: the caller's velocity, (1, 2, 3)
    in every cell. *)
Lemma solve_initial_guess_is_velocity_witness :
  exists (w' : World) (evs : list Event) (op : LinOp) (mlmg : MLMG)
         (sol rhs_ : list MultiFab) (rtol atol : Real) (g : MultiFab) (arr : Array4),
    (exists vel',
       solve ex_MLMG_ctor ex_MLMG_solve ex_vel ex_ro ex_eta ex_dt ex_world
       = Normal vel' w') /\
    List.filter is_solver_call evs = [EvMLMGSolve op mlmg sol rhs_ rtol atol] /\
    sol !! 0%nat = Some g /\ op_level_bc op 0%nat = Some g /\
    fabs g !! 0%nat = Some arr /\
    (forall p : IntVect, contains ex_box p = true ->
       arr p 0%nat = 1%float /\ arr p 1%nat = 2%float /\ arr p 2%nat = 3%float) /\
    arr (4, 0, 0) 0%nat = 1%float.
Proof.
  destruct (solve_initial_guess_is_velocity ex_MLMG_ctor ex_MLMG_solve ex_vel ex_ro ex_eta
              ex_dt ex_world ex_solve_ready)
    as (w' & evs & op & mlmg & sol & rhs_ & rtol & atol & Hres & _ & Hcall & Hguess).
  destruct (Hguess 0%nat
              (MkMultiFab [ex_box] 3 1
                 [fun _ n => match n with O => 1%float | S O => 2%float | _ => 3%float end])
              (MultiFab_new ex_fresh [ex_box] 3 1 3 0)
              (MkGeometry ex_box (false, false, false)))
    as (g & Hsol & Hbc & _ & _ & Hpatch);
    [rewrite ex_finest; simpl; lia | reflexivity | vm_compute; reflexivity
     | vm_compute; reflexivity |].
  destruct (Hpatch 0%nat ex_box (ex_fresh 3%nat 0%nat 0%nat)
              (fun _ n => match n with O => 1%float | S O => 2%float | _ => 3%float end)
              eq_refl eq_refl eq_refl) as (arr & Harr & Hval & Hghost).
  exists w', evs, op, mlmg, sol, rhs_, rtol, atol, g, arr.
  split; [destruct Hres as [Hn|Hab]; [exact Hn | vm_compute in Hab; discriminate Hab]|].
  split; [exact Hcall|]. split; [exact Hsol|]. split; [exact Hbc|]. split; [exact Harr|].
  split.
  - intros p Hp.
    split; [exact (Hval p 0%nat Hp ltac:(lia))|].
    split; [exact (Hval p 1%nat Hp ltac:(lia)) | exact (Hval p 2%nat Hp ltac:(lia))].
  - apply (Hghost (4, 0, 0) 0%nat); [reflexivity | lia | vm_compute; reflexivity].
Defined.

Lemma solve_hands_over_settings_witness :
  exists (w' : World) (evs : list Event) (op : LinOp) (mlmg : MLMG)
         (sol rhs_ : list MultiFab) (rtol atol : Real),
    (exists vel',
       solve ex_MLMG_ctor ex_MLMG_solve ex_vel ex_ro ex_eta ex_dt ex_world
       = Normal vel' w') /\
    out w' = out ex_world ++ evs /\
    List.filter is_solver_call evs = [EvMLMGSolve op mlmg sol rhs_ rtol atol] /\
    rtol = 0x1p-36%float /\ atol = 0x1p-46%float /\
    max_iters mlmg = 100 /\ bottom_solver mlmg = bs_bicgstab /\ final_fill_bc mlmg = true.
Proof.
  destruct (solve_hands_over_settings ex_MLMG_ctor ex_MLMG_solve ex_vel ex_ro ex_eta
              ex_dt ex_world ex_solve_ready)
    as (w' & evs & op & mlmg & sol & rhs_ & rtol & atol & Hres & Hout & Hcall & Hr & Ha
        & _ & Hb & Hm & _ & _ & _ & _ & Hf).
  exists w', evs, op, mlmg, sol, rhs_, rtol, atol.
  split; [destruct Hres as [Hn|Hab]; [exact Hn | vm_compute in Hab; discriminate Hab]|].
  split; [exact Hout|]. split; [exact Hcall|].
  split; [exact Hr|]. split; [exact Ha|]. split; [exact Hm|]. split; [exact Hb | exact Hf].
Defined.

(** The small mesh with room for a second level that is not in use
    ([maxLevel] is 1, [finestLevel] is 0). *)
Definition ex_amrcore_two : AmrCore :=
  MkAmrCore 1 0
    [MkGeometry ex_box (false, false, false); MkGeometry ex_box (false, false, false)]
    [[ex_box]; [ex_box]].

Definition ex_object_two : DiffusionEquation :=
  match ctor (fun x => x) (fun x => x) (fun y _ => y) ex_tiling ex_fresh ex_set_diff_bc
             ex_pp ex_amrcore_two
             [MkEBFactory [ex_flags] [ex_normal]; MkEBFactory [ex_flags] [ex_normal]]
             ex_bc ex_bc ex_bc ex_bc ex_bc ex_bc 1 ex_speed (MkWorld ex_blank []) with
  | Normal _ w => self w
  | _ => ex_blank
  end.

Definition ex_world_two : World := MkWorld ex_object_two [].

Lemma ex_finest_two : finestLevel (amrcore (self ex_world_two)) = 0.
Proof. vm_compute. reflexivity. Defined.

Lemma ex_solve_ready_two : solve_ready ex_vel ex_ro ex_eta (self ex_world_two).
Proof.
  intros lev Hlev. rewrite ex_finest_two in Hlev. assert (lev = 0%nat) by lia. subst lev.
  repeat split; eexists; vm_compute; reflexivity.
Defined.

(** On the mesh with an unused second level: level 1 has buffers, and
    after [solve] they are what they were. *)
Lemma solve_leaves_higher_levels_witness :
  exists w' : World,
    (exists vel',
       solve ex_MLMG_ctor ex_MLMG_solve ex_vel ex_ro ex_eta ex_dt ex_world_two
       = Normal vel' w') /\
    is_Some (b (self ex_world_two) !! 1%nat) /\
    is_Some (rhs (self ex_world_two) !! 1%nat) /\
    b (self w') !! 1%nat = b (self ex_world_two) !! 1%nat /\
    rhs (self w') !! 1%nat = rhs (self ex_world_two) !! 1%nat /\
    op_acoeffs (matrix (self w')) 1%nat = None.
Proof.
  destruct (solve_leaves_higher_levels ex_MLMG_ctor ex_MLMG_solve ex_vel ex_ro ex_eta
              ex_dt ex_world_two ex_solve_ready_two) as (w' & Hres & Hrest).
  exists w'.
  split; [destruct Hres as [Hn|Hab]; [exact Hn | vm_compute in Hab; discriminate Hab]|].
  destruct (Hrest 1%nat ltac:(rewrite ex_finest_two; simpl; lia)) as (Hb & Hr & Ha & _).
  split; [eexists; vm_compute; reflexivity|].
  split; [eexists; vm_compute; reflexivity|].
  split; [exact Hb|]. split; [exact Hr|].
  rewrite Ha. vm_compute. reflexivity.
Defined.

(** The viscosity of the small mesh is 0.5 everywhere, and so is every
    face mean. *)
Lemma solve_face_coefficients_are_cell_means_witness :
  exists (w' : World) (evs : list Event) (op : LinOp) (mlmg : MLMG)
         (sol rhs_ : list MultiFab) (rtol atol : Real) (gx gy gz : MultiFab) (arr : Array4),
    (exists vel',
       solve ex_MLMG_ctor ex_MLMG_solve ex_vel ex_ro ex_eta ex_dt ex_world
       = Normal vel' w') /\
    List.filter is_solver_call evs = [EvMLMGSolve op mlmg sol rhs_ rtol atol] /\
    op_shear_viscosity op 0%nat = Some (gx, gy, gz) /\ fabs gx !! 0%nat = Some arr /\
    forall p : IntVect, contains (surroundingNodes ex_box 0) p = true ->
      arr p 0%nat = PrimFloat.mul 0.5 (PrimFloat.add 0.5 0.5).
Proof.
  destruct (solve_face_coefficients_are_cell_means ex_MLMG_ctor ex_MLMG_solve ex_vel ex_ro
              ex_eta ex_dt ex_world ex_solve_ready)
    as (w' & evs & op & mlmg & sol & rhs_ & rtol & atol & Hres & _ & Hcall & Hco).
  destruct (Hco 0%nat
              (MultiFab_new ex_fresh (map (fun bx => surroundingNodes bx 0) [ex_box]) 1 1 0 0)
              (MultiFab_new ex_fresh (map (fun bx => surroundingNodes bx 1) [ex_box]) 1 1 1 0)
              (MultiFab_new ex_fresh (map (fun bx => surroundingNodes bx 2) [ex_box]) 1 1 2 0)
              (MkMultiFab [ex_box] 1 1 [fun _ _ => 0.5%float]))
    as (gx & gy & gz & Hop & _ & Hx & _);
    [rewrite ex_finest; simpl; lia | vm_compute; reflexivity | reflexivity |].
  destruct (Hx 0%nat ex_box (fun _ _ => 0.5%float) (ex_fresh 0%nat 0%nat 0%nat)
              eq_refl eq_refl eq_refl eq_refl) as (arr & Harr & Hval).
  exists w', evs, op, mlmg, sol, rhs_, rtol, atol, gx, gy, gz, arr.
  split; [destruct Hres as [Hn|Hab]; [exact Hn | vm_compute in Hab; discriminate Hab]|].
  split; [exact Hcall|]. split; [exact Hop|]. split; [exact Harr | exact Hval].
Defined.

Lemma solve_keeps_buffer_layouts_witness :
  exists (w' : World) (r' : MultiFab),
    (exists vel',
       solve ex_MLMG_ctor ex_MLMG_solve ex_vel ex_ro ex_eta ex_dt ex_world
       = Normal vel' w') /\
    rhs (self w') !! 0%nat = Some r' /\
    boxArray r' = [ex_box] /\ nComp r' = 3%nat /\ nGrow r' = 0.
Proof.
  destruct (solve_keeps_buffer_layouts ex_MLMG_ctor ex_MLMG_solve ex_vel ex_ro ex_eta
              ex_dt ex_world ex_solve_ready) as (w' & Hres & Hlay).
  destruct (Hlay 0%nat) as (_ & _ & Hr).
  destruct (Hr (MultiFab_new ex_fresh [ex_box] 3 0 4 0)) as (r' & Hr' & L);
    [vm_compute; reflexivity|].
  exists w', r'.
  split; [destruct Hres as [Hn|Hab]; [exact Hn | vm_compute in Hab; discriminate Hab]|].
  split; [exact Hr' | exact L].
Defined.
